(** * Timeline controller (src/controller/timeline-controller.js)

    A shallow embedding of the caption / subtitle timeline controller:
    the CEA-608 byte-pair extraction, the cue-range overlap resolver,
    the initial-PTS gate with its queue of unparsed WebVTT fragments,
    the main-fragment continuity check, the manifest / media event
    handlers and the callbacks of the caption decoder with the text
    tracks they create or reuse, followed by the properties proved
    about them.

    Conventions.
    - Media times (seconds) are exact rationals [Q] in the handlers;
      JavaScript's [Math.min], [Math.max], [-], [/] and the comparisons
      are their rational counterparts there.  The module [Double] embeds
      [addCues] a second time on IEEE doubles, with the rounding of [-]
      and [/]; the rule on the computed quotient is stated on it.
    - A [Uint8Array] is a [list Z] of its elements; indexing is stdpp's
      list lookup, [None] standing for JavaScript's [undefined].
    - [this] together with the DOM objects it points to and the calls
      made to external collaborators form one state [Sys]; a handler is
      a computation in the state-and-exception monad [M].  A JavaScript
      [TypeError] is the outcome [None]; the mutations done before it
      stay in the state. *)

From Stdlib Require Import ZArith QArith Qminmax Lia Lqa List.
From Stdlib Require PrimFloat.
From stdpp Require Import base option list strings gmap.
Import ListNotations.

Local Open Scope Z_scope.

(** ** CEA-608 byte pairs *)

Module Cea608.

(** [mask & byteArray[i]]: an [undefined] operand converts to 0. *)
Definition js_and (mask : Z) (v : option Z) : Z :=
  match v with
  | Some b => Z.land mask b
  | None => 0
  end.

(** The loop variables of [_extractCea608Data].  [reads] is ghost state:
    the indices at which [byteArray] has been read, oldest first. *)
Record Extract := mkExtract {
  position : nat;
  actualCCBytes : list Z;
  reads : list nat
}.

(** One iteration of [for (var j = 0; j < count; j++)]. *)
Definition extract_step (byteArray : list Z) (st : Extract) : Extract :=
  let p := position st in
  let tmpByte := byteArray !! p in
  let ccbyte1 := js_and 0x7F (byteArray !! (p + 1)%nat) in
  let ccbyte2 := js_and 0x7F (byteArray !! (p + 2)%nat) in
  let ccValid := negb (js_and 4 tmpByte =? 0) in
  let ccType := js_and 3 tmpByte in
  let rd := reads st ++ [p; (p + 1)%nat; (p + 2)%nat] in
  if (ccbyte1 =? 0) && (ccbyte2 =? 0)
  then mkExtract (p + 3) (actualCCBytes st) rd
  else if ccValid
  then if ccType =? 0
       then mkExtract (p + 3) (actualCCBytes st ++ [ccbyte1; ccbyte2]) rd
       else mkExtract (p + 3) (actualCCBytes st) rd
  else mkExtract (p + 3) (actualCCBytes st) rd.

Fixpoint extract_loop (byteArray : list Z) (n : nat) (st : Extract) : Extract :=
  match n with
  | O => st
  | S n' => extract_loop byteArray n' (extract_step byteArray st)
  end.

Definition cc_count (byteArray : list Z) : nat :=
  Z.to_nat (js_and 31 (byteArray !! 0%nat)).

Definition extract_run (byteArray : list Z) : Extract :=
  extract_loop byteArray (cc_count byteArray) (mkExtract 2 [] [0%nat]).

Definition _extractCea608Data (byteArray : list Z) : list Z :=
  actualCCBytes (extract_run byteArray).

(** The indices read, and whether one of them is past the end. *)
Definition indices_read (byteArray : list Z) : list nat :=
  reads (extract_run byteArray).

Definition reads_out_of_bounds (byteArray : list Z) : Prop :=
  ∃ i, In i (indices_read byteArray) ∧ byteArray !! i = None.

(** *** The loop as a filter over the triplets it visits *)

(** The three bytes [(marker, byte1, byte2)] at offset [p], and the
    [j]-th triplet, the first one being at offset 2. *)
Definition triplet_from (byteArray : list Z) (p : nat)
  : option Z * option Z * option Z :=
  (byteArray !! p, byteArray !! (p + 1)%nat, byteArray !! (p + 2)%nat).

Definition triplet (byteArray : list Z) (j : nat)
  : option Z * option Z * option Z :=
  triplet_from byteArray (2 + 3 * j).

Definition triplets (byteArray : list Z) : list (option Z * option Z * option Z) :=
  map (triplet byteArray) (seq 0 (cc_count byteArray)).

(** The offsets of [n] consecutive triplets, the first one at [p]. *)
Definition offsets (p n : nat) : list nat :=
  map (λ j, (p + 3 * j)%nat) (seq 0 n).

Definition masked_pair (t : option Z * option Z * option Z) : Z * Z :=
  let '(_, b1, b2) := t in (js_and 0x7F b1, js_and 0x7F b2).

Definition marker_valid (t : option Z * option Z * option Z) : bool :=
  let '(m, _, _) := t in negb (js_and 0x04 m =? 0).

Definition marker_type (t : option Z * option Z * option Z) : Z :=
  let '(m, _, _) := t in js_and 0x03 m.

Definition is_padding (t : option Z * option Z * option Z) : bool :=
  (fst (masked_pair t) =? 0) && (snd (masked_pair t) =? 0).

Definition selected (t : option Z * option Z * option Z) : bool :=
  marker_valid t && (marker_type t =? 0) && negb (is_padding t).

Definition selected_pairs (byteArray : list Z) : list (Z * Z) :=
  map masked_pair (filter (λ t, selected t = true) (triplets byteArray)).

Definition flatten_pairs (ps : list (Z * Z)) : list Z :=
  flat_map (λ p, [fst p; snd p]) ps.

(** *** The extraction as the specification words it *)

(** The specification speaks of bytes and of their bits; nothing below
    uses [js_and], [cc_count] or the loop.  A byte that the array does
    not have counts as 0, and the low [n] bits of a byte are its
    remainder modulo [2 ^ n]. *)
Definition byte_at (byteArray : list Z) (i : nat) : Z :=
  default 0 (byteArray !! i).

Definition low_bits (n : Z) (b : Z) : Z := b mod 2 ^ n.

(** "read [count = firstByte & 0x1F] (ignore reserved high bits)". *)
Definition announced_count (byteArray : list Z) : nat :=
  Z.to_nat (low_bits 5 (byte_at byteArray 0)).

(** "starting at byte offset 2, for each of [count] triplets read
    [(marker, byte1, byte2)]". *)
Record Triplet := mkTriplet {
  marker : Z;
  byte1 : Z;
  byte2 : Z
}.

Definition triplet_at (byteArray : list Z) (j : nat) : Triplet :=
  mkTriplet (byte_at byteArray (2 + 3 * j))
            (byte_at byteArray (2 + 3 * j + 1))
            (byte_at byteArray (2 + 3 * j + 2)).

(** "mask [byte1] and [byte2] with [0x7F]". *)
Definition data1 (t : Triplet) : Z := low_bits 7 (byte1 t).
Definition data2 (t : Triplet) : Z := low_bits 7 (byte2 t).

(** "[valid = (marker & 0x04) != 0]; [type = marker & 0x03]". *)
Definition valid (t : Triplet) : bool := Z.testbit (marker t) 2.
Definition cc_type (t : Triplet) : Z := low_bits 2 (marker t).

(** "when both masked bytes are zero (padding)". *)
Definition padding (t : Triplet) : bool := (data1 t =? 0) && (data2 t =? 0).

(** The triplets that contribute their pair: valid, of type 0 and not
    padding. *)
Definition contributes (t : Triplet) : bool :=
  valid t && (cc_type t =? 0) && negb (padding t).

Definition demultiplexed (byteArray : list Z) : list Z :=
  flat_map (λ j, let t := triplet_at byteArray j in
                 if contributes t then [data1 t; data2 t] else [])
           (seq 0 (announced_count byteArray)).

End Cea608.

(** ** The objects the controller works on *)

(** References to text tracks and to media elements. *)
Abbreviation TrackRef := nat.
Abbreviation MediaRef := nat.

(** A cue of a text track, and a [TextTrack] of the media element.
    [textTrack1] / [textTrack2] are the properties the controller sets
    on the tracks it uses for CEA-608 channel 1 / 2. *)
Record Cue := mkCue {
  id : string;
  startTime : Q;
  endTime : Q;
  text : string
}.

Record TextTrack := mkTextTrack {
  kind : string;
  label : string;
  language : string;
  mode : string;
  cues : list Cue;
  tt_textTrack1 : bool;
  tt_textTrack2 : bool
}.

(** The DOM: the text tracks that exist (a [TrackRef] is an index into
    [w_tracks]) and, for each media element, its [textTracks] list; a
    media element without an entry has no text track yet. *)
Record World := mkWorld {
  w_tracks : list TextTrack;
  w_media : gmap MediaRef (list TrackRef)
}.

(** What the manifest says about one subtitle track. *)
Record ManifestTrack := mkManifestTrack {
  name : string;
  lang : string;
  default_ : bool
}.

Record Frag := mkFrag {
  type : string;
  sn : Z;
  cc : Z;
  start : Q;
  trackId : nat
}.

(** The data of FRAG_LOADED: the fragment and its payload (an
    [ArrayBuffer], here the list of its bytes). *)
Record FragLoadedData := mkFragLoadedData {
  frag : Frag;
  payload : list Z
}.

Definition byteLength (p : list Z) : nat := length p.

(** The continuity map [_vttCCs]: two offsets and one entry per
    discontinuity counter. *)
Record VttCC := mkVttCC {
  cc_start : Q;
  cc_prevCC : option Z;
  cc_new : bool
}.

Record VttCCs := mkVttCCs {
  ccOffset : Z;
  presentationOffset : Z;
  cc_entries : gmap Z VttCC
}.

(** A cue range [[start, end]]. *)
Definition CueRange := (Q * Q)%type.

Definition CaptionScreen := list string.

Inductive Channel := textTrack1 | textTrack2.

Record Config := mkConfig {
  enableCEA708Captions : bool;
  enableWebVTT : bool
}.

(** The fields of [this].  Those the constructor leaves unassigned are
    [None] ([undefined]) until a handler assigns them.  [_cea608Parser]
    records whether the caption decoder has been created. *)
Record TimelineController := mkTimelineController {
  _config : Config;
  _enabled : bool;
  _textTracks : list TrackRef;
  _tracks : list ManifestTrack;
  _unparsedVttFrags : list FragLoadedData;
  _initPTS : option Z;
  _cueRanges : list CueRange;
  _cea608Parser : bool;
  _media : option MediaRef;
  _lastSn : option Z;
  _prevCC : option Z;
  _vttCCs : option VttCCs;
  this_textTrack1 : option TrackRef;
  this_textTrack2 : option TrackRef;
  _textTrack1 : option TrackRef;
  _textTrack2 : option TrackRef
}.

(** Calls made to the collaborators that are not part of this file: the
    caption decoder, the cue handler [_Cues], the WebVTT parser, the
    text tracks, the logger and the event bus. *)
Inductive Effect :=
| Cea608Parser_reset
| Cues_newCue (track : option TrackRef) (startTime endTime : Q) (screen : CaptionScreen)
| WebVTTParser_parse (payload : list Z) (initPTS : Z) (vttCCs : VttCCs) (cc : Z)
| TextTrack_addCue (track : TrackRef) (cue : Cue)
| logger_log (msg : string)
| trigger_SUBTITLE_FRAG_PROCESSED (success : bool) (frag : Frag)
| Cea608Parser_addData (pts : Z) (ccdatas : list Z).

Record Sys := mkSys {
  this : TimelineController;
  world : World;
  trace : list Effect
}.

(** What the WebVTT parser hands back: cues to its success callback or
    an error to its error callback. *)
Inductive ParseResult :=
| ParseCues (cues : list Cue)
| ParseError (e : string).

(** *** Field assignments *)

Definition set_textTracks (v : list TrackRef) (t : TimelineController) :=
  mkTimelineController (_config t) (_enabled t) v (_tracks t)
    (_unparsedVttFrags t) (_initPTS t) (_cueRanges t) (_cea608Parser t)
    (_media t) (_lastSn t) (_prevCC t) (_vttCCs t)
    (this_textTrack1 t) (this_textTrack2 t) (_textTrack1 t) (_textTrack2 t).

Definition set_tracks (v : list ManifestTrack) (t : TimelineController) :=
  mkTimelineController (_config t) (_enabled t) (_textTracks t) v
    (_unparsedVttFrags t) (_initPTS t) (_cueRanges t) (_cea608Parser t)
    (_media t) (_lastSn t) (_prevCC t) (_vttCCs t)
    (this_textTrack1 t) (this_textTrack2 t) (_textTrack1 t) (_textTrack2 t).

Definition set_unparsedVttFrags (v : list FragLoadedData) (t : TimelineController) :=
  mkTimelineController (_config t) (_enabled t) (_textTracks t) (_tracks t)
    v (_initPTS t) (_cueRanges t) (_cea608Parser t)
    (_media t) (_lastSn t) (_prevCC t) (_vttCCs t)
    (this_textTrack1 t) (this_textTrack2 t) (_textTrack1 t) (_textTrack2 t).

Definition set_initPTS (v : option Z) (t : TimelineController) :=
  mkTimelineController (_config t) (_enabled t) (_textTracks t) (_tracks t)
    (_unparsedVttFrags t) v (_cueRanges t) (_cea608Parser t)
    (_media t) (_lastSn t) (_prevCC t) (_vttCCs t)
    (this_textTrack1 t) (this_textTrack2 t) (_textTrack1 t) (_textTrack2 t).

Definition set_cueRanges (v : list CueRange) (t : TimelineController) :=
  mkTimelineController (_config t) (_enabled t) (_textTracks t) (_tracks t)
    (_unparsedVttFrags t) (_initPTS t) v (_cea608Parser t)
    (_media t) (_lastSn t) (_prevCC t) (_vttCCs t)
    (this_textTrack1 t) (this_textTrack2 t) (_textTrack1 t) (_textTrack2 t).

Definition set_media (v : option MediaRef) (t : TimelineController) :=
  mkTimelineController (_config t) (_enabled t) (_textTracks t) (_tracks t)
    (_unparsedVttFrags t) (_initPTS t) (_cueRanges t) (_cea608Parser t)
    v (_lastSn t) (_prevCC t) (_vttCCs t)
    (this_textTrack1 t) (this_textTrack2 t) (_textTrack1 t) (_textTrack2 t).

Definition set_lastSn (v : option Z) (t : TimelineController) :=
  mkTimelineController (_config t) (_enabled t) (_textTracks t) (_tracks t)
    (_unparsedVttFrags t) (_initPTS t) (_cueRanges t) (_cea608Parser t)
    (_media t) v (_prevCC t) (_vttCCs t)
    (this_textTrack1 t) (this_textTrack2 t) (_textTrack1 t) (_textTrack2 t).

Definition set_prevCC (v : option Z) (t : TimelineController) :=
  mkTimelineController (_config t) (_enabled t) (_textTracks t) (_tracks t)
    (_unparsedVttFrags t) (_initPTS t) (_cueRanges t) (_cea608Parser t)
    (_media t) (_lastSn t) v (_vttCCs t)
    (this_textTrack1 t) (this_textTrack2 t) (_textTrack1 t) (_textTrack2 t).

Definition set_vttCCs (v : option VttCCs) (t : TimelineController) :=
  mkTimelineController (_config t) (_enabled t) (_textTracks t) (_tracks t)
    (_unparsedVttFrags t) (_initPTS t) (_cueRanges t) (_cea608Parser t)
    (_media t) (_lastSn t) (_prevCC t) v
    (this_textTrack1 t) (this_textTrack2 t) (_textTrack1 t) (_textTrack2 t).

Definition set_cues (v : list Cue) (t : TextTrack) : TextTrack :=
  mkTextTrack (kind t) (label t) (language t) (mode t) v
    (tt_textTrack1 t) (tt_textTrack2 t).

Definition set_mode (v : string) (t : TextTrack) : TextTrack :=
  mkTextTrack (kind t) (label t) (language t) v (cues t)
    (tt_textTrack1 t) (tt_textTrack2 t).

(** ** The monad of the handlers *)

Definition M (A : Type) : Type := Sys → option A * Sys.

Definition ret {A} (a : A) : M A := λ s, (Some a, s).

Definition bind {A B} (m : M A) (k : A → M B) : M B :=
  λ s, match m s with
       | (Some a, s') => k a s'
       | (None, s') => (None, s')
       end.

(** A [TypeError]: the handler stops, the state stays as it is. *)
Definition throw {A} : M A := λ s, (None, s).

Notation "'do' x <- m ; k" := (bind m (λ x, k))
  (at level 20, x name, m at level 100, k at level 200, only parsing).
Notation "m ;; k" := (bind m (λ _, k))
  (at level 100, k at level 200, only parsing, right associativity).

Definition get_this : M TimelineController := λ s, (Some (this s), s).
Definition get_world : M World := λ s, (Some (world s), s).

Definition modify_this (f : TimelineController → TimelineController) : M unit :=
  λ s, (Some tt, mkSys (f (this s)) (world s) (trace s)).

Definition modify_world (f : World → World) : M unit :=
  λ s, (Some tt, mkSys (this s) (f (world s)) (trace s)).

Definition emit (e : Effect) : M unit :=
  λ s, (Some tt, mkSys (this s) (world s) (trace s ++ [e])).

(** [l.forEach(f)], and [l.forEach((x, index) => f index x)] with the
    index starting at [i]. *)
Fixpoint forEach {A} (l : list A) (f : A → M unit) : M unit :=
  match l with
  | [] => ret tt
  | x :: l' => f x ;; forEach l' f
  end.

Fixpoint forEach_from {A} (i : nat) (l : list A) (f : nat → A → M unit) : M unit :=
  match l with
  | [] => ret tt
  | x :: l' => f i x ;; forEach_from (S i) l' f
  end.

(** ** The functions of the file *)

Local Open Scope Q_scope.

Definition Qlt_bool (x y : Q) : bool := negb (Qle_bool y x).

(** [while (track.cues.length > 0) track.removeCue(track.cues[0])]. *)
Fixpoint removeCues_loop (cs : list Cue) : list Cue :=
  match cs with
  | [] => []
  | _ :: rest => removeCues_loop rest
  end.

Definition clearCurrentCues (track : option TrackRef) : M unit :=
  match track with
  | Some r =>
      modify_world (λ w,
        mkWorld (alter (λ t, set_cues (removeCues_loop (cues t)) t) r (w_tracks w))
                (w_media w))
  | None => ret tt
  end.

Definition reuseVttTextTrack (inUseTrack : TextTrack) (manifestTrack : ManifestTrack) : bool :=
  String.eqb (label inUseTrack) (name manifestTrack)
  && negb (tt_textTrack1 inUseTrack || tt_textTrack2 inUseTrack).

Definition intersection (x1 x2 y1 y2 : Q) : Q :=
  Qmin x2 y2 - Qmax x1 y1.

Definition new_TimelineController (config : Config) : TimelineController :=
  {| _config := config;
     _enabled := true;
     _textTracks := [];
     _tracks := [];
     _unparsedVttFrags := [];
     _initPTS := None;
     _cueRanges := [];
     _cea608Parser := enableCEA708Captions config;
     _media := None;
     _lastSn := None;
     _prevCC := None;
     _vttCCs := None;
     this_textTrack1 := None;
     this_textTrack2 := None;
     _textTrack1 := None;
     _textTrack2 := None |}.

(** *** addCues *)

(** [addCues] as the handlers call it, on exact times.  [Math.min],
    [Math.max] and the comparisons are exact on doubles as well; the
    subtraction and the division are rounded there, see [Double]. *)

(** How the loop of [addCues] ends: by the [return] inside it, or by
    running out of ranges with the flag [merged]. *)
Inductive Scan :=
| ScanReturned (ranges : list CueRange)
| ScanDone (ranges : list CueRange) (merged : bool).

Definition merge_range (cueRange : CueRange) (startTime endTime : Q) : CueRange :=
  (Qmin (fst cueRange) startTime, Qmax (snd cueRange) endTime).

(** [for (let i = ranges.length; i--;)], entered with [i]: the body runs
    at [i - 1] and updates [ranges[i - 1]] in place. *)
Fixpoint addCues_loop (i : nat) (ranges : list CueRange) (merged : bool)
    (startTime endTime : Q) : option Scan :=
  match i with
  | O => Some (ScanDone ranges merged)
  | S i' =>
      match ranges !! i' with
      | None => None
      | Some cueRange =>
          let overlap := intersection (fst cueRange) (snd cueRange) startTime endTime in
          if Qle_bool 0 overlap
          then
            let ranges' := <[i' := merge_range cueRange startTime endTime]> ranges in
            if Qlt_bool (1 # 2) (overlap / (endTime - startTime))
            then Some (ScanReturned ranges')
            else addCues_loop i' ranges' true startTime endTime
          else addCues_loop i' ranges merged startTime endTime
      end
  end.

Definition channel_track (channel : Channel) (t : TimelineController) : option TrackRef :=
  match channel with
  | textTrack1 => this_textTrack1 t
  | textTrack2 => this_textTrack2 t
  end.

Definition addCues (channel : Channel) (startTime endTime : Q)
    (screen : CaptionScreen) : M unit :=
  do t <- get_this;
  let ranges := _cueRanges t in
  match addCues_loop (length ranges) ranges false startTime endTime with
  | None => throw
  | Some (ScanReturned ranges') => modify_this (set_cueRanges ranges')
  | Some (ScanDone ranges' merged) =>
      modify_this (set_cueRanges
        (if merged then ranges' else ranges' ++ [(startTime, endTime)])) ;;
      emit (Cues_newCue (channel_track channel t) startTime endTime screen)
  end.

(** The vocabulary of the overlap rule: the overlap of a stored range
    with the candidate [[startTime, endTime]], its share of the
    candidate's duration, whether the loop body merges the range, and
    whether it then leaves the loop by [return]. *)
Definition overlap_of (cueRange : CueRange) (startTime endTime : Q) : Q :=
  intersection (fst cueRange) (snd cueRange) startTime endTime.

Definition overlap_ratio (cueRange : CueRange) (startTime endTime : Q) : Q :=
  overlap_of cueRange startTime endTime / (endTime - startTime).

Definition overlaps (startTime endTime : Q) (cueRange : CueRange) : bool :=
  Qle_bool 0 (overlap_of cueRange startTime endTime).

Definition stops_scan (startTime endTime : Q) (cueRange : CueRange) : bool :=
  overlaps startTime endTime cueRange
  && Qlt_bool (1 # 2) (overlap_ratio cueRange startTime endTime).

Definition merge_if_overlaps (startTime endTime : Q) (cueRange : CueRange) : CueRange :=
  if overlaps startTime endTime cueRange
  then merge_range cueRange startTime endTime
  else cueRange.

(** *** addCues on doubles *)

(** The times of the cues and of the cue ranges are JavaScript numbers,
    IEEE doubles.  In this module they are the kernel's binary64
    [float], with its NaN, its infinities and the rounding of [-] and
    [/], and [addCues] is embedded as a function of the cue ranges and
    the track it finds in [this]: it returns the ranges it leaves in
    [this._cueRanges] and the calls it makes to [this._Cues.newCue].
    Wherever the branch taken depends on a rounded value, this is the
    embedding to go by. *)
Module Double.
Import PrimFloat.
Local Open Scope float_scope.

Definition CueRange := (float * float)%type.

(** [Math.min] and [Math.max]: NaN when an argument is NaN, and [-0]
    below [+0]. *)
Definition Math_min (a b : float) : float :=
  if is_nan a || is_nan b then nan
  else if a <? b then a
  else if b <? a then b
  else if get_sign a then a else b.

Definition Math_max (a b : float) : float :=
  if is_nan a || is_nan b then nan
  else if a <? b then b
  else if b <? a then a
  else if get_sign a then b else a.

Definition intersection (x1 x2 y1 y2 : float) : float :=
  Math_min x2 y2 - Math_max x1 y1.

Inductive Scan :=
| ScanReturned (ranges : list CueRange)
| ScanDone (ranges : list CueRange) (merged : bool).

Definition merge_range (cueRange : CueRange) (startTime endTime : float) : CueRange :=
  (Math_min (fst cueRange) startTime, Math_max (snd cueRange) endTime).

(** [for (let i = ranges.length; i--;)], entered with [i]. *)
Fixpoint addCues_loop (i : nat) (ranges : list CueRange) (merged : bool)
    (startTime endTime : float) : option Scan :=
  match i with
  | O => Some (ScanDone ranges merged)
  | S i' =>
      match ranges !! i' with
      | None => None
      | Some cueRange =>
          let overlap := intersection (fst cueRange) (snd cueRange) startTime endTime in
          if 0 <=? overlap
          then
            let ranges' := <[i' := merge_range cueRange startTime endTime]> ranges in
            if 0.5 <? overlap / (endTime - startTime)
            then Some (ScanReturned ranges')
            else addCues_loop i' ranges' true startTime endTime
          else addCues_loop i' ranges merged startTime endTime
      end
  end.

(** A call [this._Cues.newCue(track, startTime, endTime, screen)]. *)
Record NewCueCall := mkNewCueCall {
  call_track : option TrackRef;
  call_startTime : float;
  call_endTime : float;
  call_screen : CaptionScreen
}.

(** [addCues(channel, startTime, endTime, screen)] with [ranges] for
    [this._cueRanges] and [track] for [this[channel]]: the ranges after
    the call and the calls made to [this._Cues.newCue]. *)
Definition addCues (ranges : list CueRange) (track : option TrackRef)
    (startTime endTime : float) (screen : CaptionScreen)
  : option (list CueRange * list NewCueCall) :=
  match addCues_loop (length ranges) ranges false startTime endTime with
  | None => None
  | Some (ScanReturned ranges') => Some (ranges', [])
  | Some (ScanDone ranges' merged) =>
      Some (if merged then ranges' else ranges' ++ [(startTime, endTime)],
            [mkNewCueCall track startTime endTime screen])
  end.

(** The overlap of a stored range with the cue, its quotient by the
    cue's duration, both as the code computes them, and the two tests
    of the loop body. *)
Definition overlap_of (cueRange : CueRange) (startTime endTime : float) : float :=
  intersection (fst cueRange) (snd cueRange) startTime endTime.

Definition overlap_ratio (cueRange : CueRange) (startTime endTime : float) : float :=
  overlap_of cueRange startTime endTime / (endTime - startTime).

Definition overlaps (startTime endTime : float) (cueRange : CueRange) : bool :=
  0 <=? overlap_of cueRange startTime endTime.

Definition stops_scan (startTime endTime : float) (cueRange : CueRange) : bool :=
  overlaps startTime endTime cueRange
  && (0.5 <? overlap_ratio cueRange startTime endTime).

Definition merge_if_overlaps (startTime endTime : float) (cueRange : CueRange) : CueRange :=
  if overlaps startTime endTime cueRange
  then merge_range cueRange startTime endTime
  else cueRange.

End Double.

(** *** Text tracks *)

(** [media.textTracks], read at the time of the call. *)
Definition media_textTracks (media : MediaRef) : M (list TrackRef) :=
  do w <- get_world;
  ret (default [] (w_media w !! media)).

(** [media.addTextTrack(kind, label, lang)]: a new track with no cue, in
    mode [hidden], appended to the tracks of the media element. *)
Definition addTextTrack (media : MediaRef) (kind label lang : string) : M TrackRef :=
  do w <- get_world;
  let r := length (w_tracks w) in
  modify_world (λ w,
    mkWorld (w_tracks w ++ [mkTextTrack kind label lang "hidden" [] false false])
            (<[media := default [] (w_media w !! media) ++ [r]]> (w_media w))) ;;
  ret r.

Definition createTextTrack (kind label lang : string) : M (option TrackRef) :=
  do t <- get_this;
  match _media t with
  | Some media => do r <- addTextTrack media kind label lang; ret (Some r)
  | None => ret None
  end.

(** [cues.getCueById(id)]: the first cue with this id, and [null] when
    there is none or when the id asked for is the empty string, as the
    DOM defines the method. *)
Definition getCueById (cs : list Cue) (i : string) : option Cue :=
  if String.eqb i ""
  then None
  else find (λ c, String.eqb (id c) i) cs.

(** *** Numbers that may be [undefined] or [NaN] *)

(** The double nearest to the integer [n], a tie going to the even
    significand: [n] itself when 53 bits hold it, and otherwise the
    nearest multiple of [2 ^ k], where [k] is the number of bits beyond
    53.  Every sequence number is a double with an integer value. *)
Definition round_double (n : Z) : Z :=
  let k := (Z.log2 (Z.abs n) - 52)%Z in
  if (k <=? 0)%Z
  then n
  else
    let q := (n / 2 ^ k)%Z in
    let r := (n mod 2 ^ k)%Z in
    match (2 * r ?= 2 ^ k)%Z with
    | Lt => (q * 2 ^ k)%Z
    | Gt => ((q + 1) * 2 ^ k)%Z
    | Eq => if Z.even q then (q * 2 ^ k)%Z else ((q + 1) * 2 ^ k)%Z
    end.

(** [v + 1] in double arithmetic: the sum is rounded, so that
    [2 ^ 53 + 1] is [2 ^ 53]; [undefined + 1] is [NaN], written [None]. *)
Definition js_plus1 (v : option Z) : option Z :=
  match v with
  | Some x => Some (round_double (x + 1))
  | None => None
  end.

(** [Number.isSafeInteger(n)]: for such an [n], the sum [n + 1] is
    exact. *)
Definition safe_integer (n : Z) : Prop := (Z.abs n <= 2 ^ 53 - 1)%Z.

(** [a !== b] for a number [a]: [NaN] differs from every number. *)
Definition js_strict_ne (a : Z) (b : option Z) : bool :=
  match b with
  | Some y => negb (a =? y)%Z
  | None => true
  end.

(** [a || []] for a field that holds an array: an array is truthy, also
    when it is empty. *)
Definition or_empty {A} (a : list A) : list A := a.

(** ** The event handlers *)

Section Handlers.

(** [WebVTTParser.parse(payload, initPTS, vttCCs, cc, callBack,
    errorCallBack)] is not part of this file.  It is given the
    continuity map, which it may update, and answers through one of its
    two callbacks: [parse] returns the map it leaves and what it hands
    back. *)
Variable parse : list Z → Z → VttCCs → Z → VttCCs * ParseResult.

(** Whether [track.addCue(cue)] raises an exception for this cue. *)
Variable addCue_throws : Cue → bool.

Definition track_addCue (r : TrackRef) (cue : Cue) : M unit :=
  modify_world (λ w,
    mkWorld (alter (λ t, set_cues (cues t ++ [cue]) t) r (w_tracks w)) (w_media w)) ;;
  emit (TextTrack_addCue r cue).

(** The track object a reference points to, if any. *)
Definition track_of (w : World) (currentTrack : option TrackRef)
  : option (TrackRef * TextTrack) :=
  match currentTrack with
  | Some r =>
      match w_tracks w !! r with
      | Some track => Some (r, track)
      | None => None
      end
  | None => None
  end.

(** The body of [cues.forEach(cue => ...)] in the success callback.
    [currentTrack] is [textTracks[frag.trackId]]; reading [.cues] of an
    [undefined] track is a [TypeError]. *)
Definition addParsedCue (currentTrack : option TrackRef) (cue : Cue) : M unit :=
  do w <- get_world;
  match track_of w currentTrack with
  | None => throw
  | Some (r, track) =>
      match getCueById (cues track) (id cue) with
      | Some _ => ret tt
      | None =>
          if addCue_throws cue
          then track_addCue r (mkCue (id cue) (startTime cue) (endTime cue) (text cue))
          else track_addCue r cue
      end
  end.

Definition parseCallback (textTracks : list TrackRef) (frag : Frag)
    (parsed : list Cue) : M unit :=
  let currentTrack := textTracks !! trackId frag in
  forEach parsed (addParsedCue currentTrack) ;;
  emit (trigger_SUBTITLE_FRAG_PROCESSED true frag).

Definition parseErrorCallback (frag : Frag) (e : string) : M unit :=
  emit (logger_log ("Failed to parse VTT cue: " ++ e)%string) ;;
  emit (trigger_SUBTITLE_FRAG_PROCESSED false frag).

(** [vttCCs] after [if (!vttCCs[frag.cc]) vttCCs[frag.cc] = {...}]. *)
Definition vttCCs_with (frag : Frag) (prevCC : option Z) (vttCCs : VttCCs) : VttCCs :=
  match cc_entries vttCCs !! cc frag with
  | Some _ => vttCCs
  | None =>
      mkVttCCs (ccOffset vttCCs) (presentationOffset vttCCs)
        (<[cc frag := mkVttCC (start frag) prevCC true]> (cc_entries vttCCs))
  end.

(** The subtitle fragment once the initial PTS is known: lines 272 to
    304.  Indexing an [undefined] [_vttCCs] is a [TypeError]. *)
Definition parseVttFrag (frag : Frag) (payload : list Z) (initPTS : Z) : M unit :=
  do t <- get_this;
  match _vttCCs t with
  | None => throw
  | Some vttCCs =>
      let vttCCs1 := vttCCs_with frag (_prevCC t) vttCCs in
      (match cc_entries vttCCs !! cc frag with
       | Some _ => ret tt
       | None =>
           modify_this (set_vttCCs (Some vttCCs1)) ;;
           modify_this (set_prevCC (Some (cc frag)))
       end) ;;
      let textTracks := _textTracks t in
      emit (WebVTTParser_parse payload initPTS vttCCs1 (cc frag)) ;;
      let answer := parse payload initPTS vttCCs1 (cc frag) in
      modify_this (set_vttCCs (Some (fst answer))) ;;
      match snd answer with
      | ParseCues parsed => parseCallback textTracks frag parsed
      | ParseError e => parseErrorCallback frag e
      end
  end.

Definition onFragLoaded (data : FragLoadedData) : M unit :=
  let frag := frag data in
  let payload := payload data in
  if String.eqb (type frag) "main"
  then
    do t <- get_this;
    (if js_strict_ne (sn frag) (js_plus1 (_lastSn t))
     then if _cea608Parser t then emit Cea608Parser_reset else ret tt
     else ret tt) ;;
    modify_this (set_lastSn (Some (sn frag)))
  else if String.eqb (type frag) "subtitle"
  then
    if negb (byteLength payload =? 0)%nat
    then
      do t <- get_this;
      match _initPTS t with
      | None => modify_this (set_unparsedVttFrags (_unparsedVttFrags t ++ [data]))
      | Some initPTS => parseVttFrag frag payload initPTS
      end
    else emit (trigger_SUBTITLE_FRAG_PROCESSED false frag)
  else ret tt.

Definition onInitPtsFound (initPTS : Z) : M unit :=
  do t <- get_this;
  (match _initPTS t with
   | None => modify_this (set_initPTS (Some initPTS))
   | Some _ => ret tt
   end) ;;
  do t <- get_this;
  if negb (length (_unparsedVttFrags t) =? 0)%nat
  then
    forEach (_unparsedVttFrags t) onFragLoaded ;;
    modify_this (set_unparsedVttFrags [])
  else ret tt.

Definition onMediaAttaching (media : MediaRef) : M unit :=
  modify_this (set_media (Some media)).

Definition onMediaDetaching : M unit :=
  do t <- get_this;
  clearCurrentCues (_textTrack1 t) ;;
  clearCurrentCues (_textTrack2 t).

Definition onManifestLoading : M unit :=
  modify_this (set_lastSn (Some (-1)%Z)) ;;
  modify_this (set_prevCC (Some (-1)%Z)) ;;
  modify_this (set_vttCCs (Some (mkVttCCs 0 0 ∅))) ;;
  do t <- get_this;
  match _media t with
  | Some media =>
      do textTracks <- media_textTracks media;
      forEach textTracks (λ r, clearCurrentCues (Some r))
  | None => ret tt
  end.

(** [inUseTracks]: the live [textTracks] of the media element, or an
    empty array when there is no media element. *)
Definition inUseTracks_now : M (list TrackRef) :=
  do t <- get_this;
  match _media t with
  | Some media => media_textTracks media
  | None => ret []
  end.

(** The body of [this._tracks.forEach((track, index) => ...)]. *)
Definition setupTextTrack (index : nat) (track : ManifestTrack) : M unit :=
  do inUseTracks <- inUseTracks_now;
  do w <- get_world;
  let reused :=
    if (index <? length inUseTracks)%nat
    then
      match inUseTracks !! index with
      | Some r =>
          match w_tracks w !! r with
          | Some inUseTrack =>
              if reuseVttTextTrack inUseTrack track then Some r else None
          | None => None
          end
      | None => None
      end
    else None in
  do textTrack <-
    match reused with
    | Some r => ret (Some r)
    | None => createTextTrack "subtitles" (name track) (lang track)
    end;
  match textTrack with
  | None => throw
  | Some r =>
      modify_world (λ w,
        mkWorld (alter (set_mode (if default_ track then "showing" else "hidden")) r
                   (w_tracks w))
                (w_media w)) ;;
      modify_this (λ t, set_textTracks (_textTracks t ++ [r]) t)
  end.

Definition onManifestLoaded (subtitles : option (list ManifestTrack)) : M unit :=
  modify_this (set_textTracks []) ;;
  modify_this (λ t, set_unparsedVttFrags (or_empty (_unparsedVttFrags t)) t) ;;
  modify_this (set_initPTS None) ;;
  modify_this (set_cueRanges []) ;;
  do t <- get_this;
  if enableWebVTT (_config t)
  then
    modify_this (set_tracks (default [] subtitles)) ;;
    do t <- get_this;
    forEach_from 0 (_tracks t) setupTextTrack
  else ret tt.

(** *** The events the controller listens to *)

Inductive Event :=
| MEDIA_ATTACHING (media : MediaRef)
| MEDIA_DETACHING
| MANIFEST_LOADING
| MANIFEST_LOADED (subtitles : option (list ManifestTrack))
| FRAG_LOADED (data : FragLoadedData)
| INIT_PTS_FOUND (initPTS : Z).

Definition handle (ev : Event) : M unit :=
  match ev with
  | MEDIA_ATTACHING media => onMediaAttaching media
  | MEDIA_DETACHING => onMediaDetaching
  | MANIFEST_LOADING => onManifestLoading
  | MANIFEST_LOADED subtitles => onManifestLoaded subtitles
  | FRAG_LOADED data => onFragLoaded data
  | INIT_PTS_FOUND initPTS => onInitPtsFound initPTS
  end.

(** The states the controller can be in after handlers that returned:
    it starts from the constructor, in any DOM, and each event is
    handled to completion. *)
Inductive reachable : Sys → Prop :=
| reachable_new config w :
    reachable (mkSys (new_TimelineController config) w [])
| reachable_step s ev s' :
    reachable s →
    handle ev s = (Some tt, s') →
    reachable s'.

End Handlers.

(** ** What the properties are stated with *)

(** The effects a handler added to the trace, going from [s] to [s']. *)
Definition emitted (s s' : Sys) : list Effect :=
  drop (length (trace s)) (trace s').



(** The number of [reset()] calls to the caption decoder in a trace. *)
Definition is_reset (e : Effect) : bool :=
  match e with
  | Cea608Parser_reset => true
  | _ => false
  end.

Definition Cea608Parser_resets (tr : list Effect) : nat :=
  length (filter (λ e, is_reset e = true) tr).

(** The cues of [parsed] that the success callback adds to a track that
    holds [existing], in the order in which it adds them. *)
Fixpoint cues_added (existing parsed : list Cue) : list Cue :=
  match parsed with
  | [] => []
  | cue :: rest =>
      match getCueById existing (id cue) with
      | Some _ => cues_added existing rest
      | None => cue :: cues_added (existing ++ [cue]) rest
      end
  end.

(** A subtitle fragment with a payload: what the queue holds. *)
Definition queued_frag (data : FragLoadedData) : Prop :=
  type (frag data) = "subtitle"%string ∧ payload data ≠ [].


(** The fields of [this] once [parseVttFrag] has noted the fragment's
    discontinuity counter and the parser has left the map [answer]. *)
Definition this_after_parse (frag : Frag) (vttCCs answer : VttCCs)
    (t : TimelineController) : TimelineController :=
  set_vttCCs (Some answer)
    (match cc_entries vttCCs !! cc frag with
     | Some _ => t
     | None => set_prevCC (Some (cc frag)) t
     end).




(** [m] keeps [R]: whatever the outcome, the state it leaves is related
    by [R] to the state it started from. *)
Definition keeps {A} (R : Sys → Sys → Prop) (m : M A) : Prop :=
  ∀ s, R s (snd (m s)).

(** The stores of [this] that the text-track bookkeeping never touches. *)
Definition same_stores (s s' : Sys) : Prop :=
  _unparsedVttFrags (this s') = _unparsedVttFrags (this s) ∧
  _initPTS (this s') = _initPTS (this s) ∧
  _cueRanges (this s') = _cueRanges (this s) ∧
  _vttCCs (this s') = _vttCCs (this s) ∧
  trace s' = trace s.

(** What handling one subtitle fragment past the gate leaves as it is,
    or can only improve. *)
Definition past_gate (s s' : Sys) : Prop :=
  _unparsedVttFrags (this s') = _unparsedVttFrags (this s) ∧
  _initPTS (this s') = _initPTS (this s) ∧
  _textTracks (this s') = _textTracks (this s) ∧
  (is_Some (_vttCCs (this s)) → is_Some (_vttCCs (this s'))) ∧
  (∀ r, is_Some (w_tracks (world s) !! r) → is_Some (w_tracks (world s') !! r)).


(** What [onFragLoaded] does to the gate: the initial PTS stays, the
    queue stays once the initial PTS is known, and only subtitle
    fragments with a payload enter it. *)
Definition gate_grows (s s' : Sys) : Prop :=
  _initPTS (this s') = _initPTS (this s) ∧
  (_initPTS (this s) ≠ None → _unparsedVttFrags (this s') = _unparsedVttFrags (this s)) ∧
  (Forall queued_frag (_unparsedVttFrags (this s)) →
   Forall queued_frag (_unparsedVttFrags (this s'))).

Definition gate_invariant (s : Sys) : Prop :=
  (_initPTS (this s) ≠ None → _unparsedVttFrags (this s) = []) ∧
  Forall queued_frag (_unparsedVttFrags (this s)).

(** ** Sample inputs *)

(** A parser that rejects a payload starting with a zero byte and finds
    the cues [a], [b] and [a] again in any other, leaving the continuity
    map as it is; and text tracks that accept every cue. *)
Definition sample_cue (i : string) : Cue := mkCue i 0 1 "text".

Definition sample_parse (payload : list Z) (initPTS : Z) (vttCCs : VttCCs) (cc : Z)
  : VttCCs * ParseResult :=
  (vttCCs,
   match payload with
   | 0%Z :: _ => ParseError "malformed"
   | _ => ParseCues [sample_cue "a"; sample_cue "b"; sample_cue "a"]
   end).

Definition never_throws (cue : Cue) : bool := false.

Fixpoint run_events (parse : list Z → Z → VttCCs → Z → VttCCs * ParseResult)
    (addCue_throws : Cue → bool) (evs : list Event) (s : Sys) : Sys :=
  match evs with
  | [] => s
  | ev :: evs' =>
      run_events parse addCue_throws evs' (snd (handle parse addCue_throws ev s))
  end.

Fixpoint all_return (parse : list Z → Z → VttCCs → Z → VttCCs * ParseResult)
    (addCue_throws : Cue → bool) (evs : list Event) (s : Sys) : bool :=
  match evs with
  | [] => true
  | ev :: evs' =>
      match handle parse addCue_throws ev s with
      | (Some _, s') => all_return parse addCue_throws evs' s'
      | (None, _) => false
      end
  end.

Definition fresh (config : Config) : Sys :=
  mkSys (new_TimelineController config) (mkWorld [] ∅) [].

Definition F1 : FragLoadedData := mkFragLoadedData (mkFrag "subtitle" 0 0 0 0) [1; 2; 3]%Z.
Definition F2 : FragLoadedData := mkFragLoadedData (mkFrag "subtitle" 1 0 10 0) [4; 5]%Z.
Definition F3 : FragLoadedData := mkFragLoadedData (mkFrag "subtitle" 2 0 20 0) [6]%Z.
Definition M5 : FragLoadedData := mkFragLoadedData (mkFrag "main" 5 0 0 0) [].
Definition M6 : FragLoadedData := mkFragLoadedData (mkFrag "main" 6 0 0 0) [].
Definition M8 : FragLoadedData := mkFragLoadedData (mkFrag "main" 8 0 0 0) [].

(** A main fragment with the sequence number [2^53], and the controller
    that has just loaded it. *)
Definition M_2_53 : FragLoadedData :=
  mkFragLoadedData (mkFrag "main" 9007199254740992 0 0 0) [].

Definition english : ManifestTrack := mkManifestTrack "English" "en" true.

(** A media element with one subtitle track, the manifest loaded, and
    [F1], [F2] loaded before any initial PTS. *)
Definition events_gate_closed : list Event :=
  [MEDIA_ATTACHING 0; MANIFEST_LOADING; MANIFEST_LOADED (Some [english]);
   FRAG_LOADED F1; FRAG_LOADED F2].

Definition gate_closed : Sys :=
  run_events sample_parse never_throws events_gate_closed (fresh (mkConfig true true)).

(** Then the initial PTS is found. *)
Definition gate_open : Sys :=
  run_events sample_parse never_throws [INIT_PTS_FOUND 900] gate_closed.

(** Then the manifest is loaded again, [F3] is loaded and the caption
    decoder emits a cue for channel 1. *)
Definition before_detach : Sys :=
  snd (addCues textTrack1 0 10 ["HELLO"%string]
         (run_events sample_parse never_throws
            [MANIFEST_LOADED (Some [english]); FRAG_LOADED F3] gate_open)).

(** The manifest is loading, with and without the caption decoder. *)
Definition captions_on : Sys :=
  run_events sample_parse never_throws [MANIFEST_LOADING] (fresh (mkConfig true true)).

Definition captions_off : Sys :=
  run_events sample_parse never_throws [MANIFEST_LOADING] (fresh (mkConfig false true)).

Definition loaded_2_53 : Sys :=
  run_events sample_parse never_throws [FRAG_LOADED M_2_53] captions_on.

(** Cue ranges stored by earlier cues. *)
Definition store_0_10 : Sys :=
  mkSys (set_cueRanges [(0, 10)] (new_TimelineController (mkConfig true true)))
        (mkWorld [] ∅) [].

Definition store_0_20 : Sys :=
  mkSys (set_cueRanges [(0, 20)] (new_TimelineController (mkConfig true true)))
        (mkWorld [] ∅) [].

(** ** The caption side of the controller *)

(** The strings of [config] that name the CEA-608 tracks. *)
Record CaptionsConfig := mkCaptionsConfig {
  captionsTextTrack1Label : string;
  captionsTextTrack1LanguageCode : string;
  captionsTextTrack2Label : string;
  captionsTextTrack2LanguageCode : string
}.

(** A call that the caption decoder makes, while it runs [addData], to
    [channel1.newCue] or [channel2.newCue]. *)
Record CueCall := mkCueCall {
  call_channel : Channel;
  call_startTime : Q;
  call_endTime : Q;
  call_screen : CaptionScreen
}.

(** One sample of FRAG_PARSING_USERDATA.  The caption decoder is
    outside this file: what it does with the byte pairs of a sample is
    its own business, except that it calls back [newCue] of its two
    channels, synchronously, before [addData] returns.  [decoded] lists
    the calls it makes during the [addData] of this sample, in order;
    the properties hold whatever these calls are. *)
Record Sample := mkSample {
  pts : Z;
  bytes : list Z;
  decoded : list CueCall
}.

Definition set_enabled (v : bool) (t : TimelineController) :=
  mkTimelineController (_config t) v (_textTracks t) (_tracks t)
    (_unparsedVttFrags t) (_initPTS t) (_cueRanges t) (_cea608Parser t)
    (_media t) (_lastSn t) (_prevCC t) (_vttCCs t)
    (this_textTrack1 t) (this_textTrack2 t) (_textTrack1 t) (_textTrack2 t).

(** [self.textTrack1 = v] or [self.textTrack2 = v]. *)
Definition set_channel_track (channel : Channel) (v : option TrackRef)
    (t : TimelineController) :=
  match channel with
  | textTrack1 =>
      mkTimelineController (_config t) (_enabled t) (_textTracks t) (_tracks t)
        (_unparsedVttFrags t) (_initPTS t) (_cueRanges t) (_cea608Parser t)
        (_media t) (_lastSn t) (_prevCC t) (_vttCCs t)
        v (this_textTrack2 t) (_textTrack1 t) (_textTrack2 t)
  | textTrack2 =>
      mkTimelineController (_config t) (_enabled t) (_textTracks t) (_tracks t)
        (_unparsedVttFrags t) (_initPTS t) (_cueRanges t) (_cea608Parser t)
        (_media t) (_lastSn t) (_prevCC t) (_vttCCs t)
        (this_textTrack1 t) v (_textTrack1 t) (_textTrack2 t)
  end.

(** [textTrack.textTrack1] or [textTrack.textTrack2], and the
    assignment of [true] to it. *)
Definition track_mark (channel : Channel) (t : TextTrack) : bool :=
  match channel with
  | textTrack1 => tt_textTrack1 t
  | textTrack2 => tt_textTrack2 t
  end.

Definition mark_track (channel : Channel) (t : TextTrack) : TextTrack :=
  match channel with
  | textTrack1 =>
      mkTextTrack (kind t) (label t) (language t) (mode t) (cues t) true (tt_textTrack2 t)
  | textTrack2 =>
      mkTextTrack (kind t) (label t) (language t) (mode t) (cues t) (tt_textTrack1 t) true
  end.

(** [textTrack[propName] === true] for the track behind a reference. *)
Definition marked (channel : Channel) (w : World) (r : TrackRef) : bool :=
  match w_tracks w !! r with
  | Some textTrack => track_mark channel textTrack
  | None => false
  end.

(** [getExistingTrack('1')] and [getExistingTrack('2')]: the first text
    track of the media element that carries the channel's mark. *)
Definition getExistingTrack (channel : Channel) : M (option TrackRef) :=
  do t <- get_this;
  match _media t with
  | Some media =>
      do textTracks <- media_textTracks media;
      do w <- get_world;
      ret (find (marked channel w) textTracks)
  | None => ret None
  end.

(** [sendAddTrackEvent(track, media)]: the event goes to listeners
    outside this file; with an [undefined] media element the call of
    [media.dispatchEvent] is a [TypeError]. *)
Definition sendAddTrackEvent (track : TrackRef) (media : option MediaRef) : M unit :=
  match media with
  | Some _ => ret tt
  | None => throw
  end.

Section Captions.

Variable captions : CaptionsConfig.

(** [self.media], a property that this file never assigns. *)
Variable self_media : option MediaRef.

Definition captions_label (channel : Channel) : string :=
  match channel with
  | textTrack1 => captionsTextTrack1Label captions
  | textTrack2 => captionsTextTrack2Label captions
  end.

(** The track that [newCue] creates for a channel, once it is marked. *)
Definition new_track (channel : Channel) : TextTrack :=
  mark_track channel
    (mkTextTrack "captions" (captions_label channel)
       (captionsTextTrack1LanguageCode captions) "hidden" [] false false).

(** [channel1.newCue] and [channel2.newCue], the callbacks handed to the
    caption decoder.  Both pass [captionsTextTrack1LanguageCode]. *)
Definition newCue (channel : Channel) (startTime endTime : Q)
    (screen : CaptionScreen) : M unit :=
  do t <- get_this;
  (match channel_track channel t with
   | Some _ => ret tt
   | None =>
       do existingTrack <- getExistingTrack channel;
       match existingTrack with
       | None =>
           do textTrack <- createTextTrack "captions" (captions_label channel)
                             (captionsTextTrack1LanguageCode captions);
           match textTrack with
           | Some r =>
               modify_world (λ w,
                 mkWorld (alter (mark_track channel) r (w_tracks w)) (w_media w)) ;;
               modify_this (set_channel_track channel (Some r))
           | None => ret tt
           end
       | Some r =>
           modify_this (set_channel_track channel (Some r)) ;;
           clearCurrentCues (Some r) ;;
           sendAddTrackEvent r self_media
       end
   end) ;;
  addCues channel startTime endTime screen.

(** [currentLevel] is [this._hls.currentLevel], [None] when it is
    [undefined] or [null]; inside, the value of its property
    [closedCaptions], [None] when that is not a string. *)
Definition onLevelSwitching (currentLevel : option (option string)) : M unit :=
  match currentLevel with
  | Some closedCaptions =>
      modify_this (set_enabled
        (match closedCaptions with
         | Some v => negb (String.eqb v "NONE")
         | None => true
         end))
  | None => throw
  end.

(** [this._cea608Parser.addData(pts, ccdatas)]: the call, and inside it
    the callbacks of the decoder.  A callback that throws ends the
    call. *)
Definition addData (pts : Z) (ccdatas : list Z) (calls : list CueCall) : M unit :=
  emit (Cea608Parser_addData pts ccdatas) ;;
  forEach calls (λ c,
    newCue (call_channel c) (call_startTime c) (call_endTime c) (call_screen c)).

(** Calling [addData] on an [undefined] decoder is a [TypeError]. *)
Definition onFragParsingUserdata (samples : list Sample) : M unit :=
  do t <- get_this;
  if _enabled t && enableCEA708Captions (_config t)
  then
    forEach samples (λ sample,
      let ccdatas := Cea608._extractCea608Data (bytes sample) in
      do t <- get_this;
      if _cea608Parser t
      then addData (pts sample) ccdatas (decoded sample)
      else throw)
  else ret tt.

(** The events of the caption side: a level switch, user data of a
    fragment, and a cue from the caption decoder. *)
Inductive CaptionEvent :=
| LEVEL_SWITCHING (currentLevel : option (option string))
| FRAG_PARSING_USERDATA (samples : list Sample)
| NEW_CUE (channel : Channel) (startTime endTime : Q) (screen : CaptionScreen).

Definition handle_captions (ev : CaptionEvent) : M unit :=
  match ev with
  | LEVEL_SWITCHING currentLevel => onLevelSwitching currentLevel
  | FRAG_PARSING_USERDATA samples => onFragParsingUserdata samples
  | NEW_CUE channel startTime endTime screen => newCue channel startTime endTime screen
  end.

End Captions.

(** The states the controller can be in when the caption side is
    counted in, whether the handlers before returned or threw: it starts
    from the constructor, in any DOM, and between two events nothing
    else changes the DOM. *)
Inductive reachable_all (parse : list Z → Z → VttCCs → Z → VttCCs * ParseResult)
    (addCue_throws : Cue → bool) (captions : CaptionsConfig) (self_media : option MediaRef)
  : Sys → Prop :=
| reachable_all_new config w :
    reachable_all parse addCue_throws captions self_media
      (mkSys (new_TimelineController config) w [])
| reachable_all_event s ev :
    reachable_all parse addCue_throws captions self_media s →
    reachable_all parse addCue_throws captions self_media
      (snd (handle parse addCue_throws ev s))
| reachable_all_captions s ev :
    reachable_all parse addCue_throws captions self_media s →
    reachable_all parse addCue_throws captions self_media
      (snd (handle_captions captions self_media ev s)).

(** ** What the further properties are stated with *)

(** A stored range covers the candidate; a range after an update
    extends the range before; a range is well formed. *)
Definition covers (cueRange : CueRange) (startTime endTime : Q) : Prop :=
  fst cueRange <= startTime ∧ endTime <= snd cueRange.

Definition extends (old new : CueRange) : Prop :=
  fst new <= fst old ∧ snd old <= snd new.

Definition well_formed (cueRange : CueRange) : Prop :=
  fst cueRange <= snd cueRange.


(** The number of times a run of main fragments takes the branch
    [sn !== this._lastSn + 1], as the code computes it. *)
Fixpoint resets_due (lastSn : option Z) (sns : list Z) : nat :=
  match sns with
  | [] => 0%nat
  | sn :: rest =>
      ((if js_strict_ne sn (js_plus1 lastSn) then 1 else 0) + resets_due (Some sn) rest)%nat
  end.

(** The number of sequence numbers of a run that are not the number
    before plus one, in exact arithmetic; the first one is compared with
    [lastSn], and with no number before it every number counts. *)
Fixpoint gaps (lastSn : option Z) (sns : list Z) : nat :=
  match sns with
  | [] => 0%nat
  | sn :: rest =>
      ((match lastSn with
        | Some x => if (sn =? x + 1)%Z then 0 else 1
        | None => 1
        end) + gaps (Some sn) rest)%nat
  end.

Definition same_initPTS (s s' : Sys) : Prop :=
  _initPTS (this s') = _initPTS (this s).

Definition clear_cues (t : TextTrack) : TextTrack := set_cues [] t.

(** [this._media.textTracks]: the text tracks of the media element the
    controller holds, none without a media element. *)
Definition held_textTracks (s : Sys) : list TrackRef :=
  match _media (this s) with
  | Some media => default [] (w_media (world s) !! media)
  | None => []
  end.

(** What the callbacks of the parser do to the state: they append to
    the trace and leave the fields of [this] alone. *)
Definition appends (s s' : Sys) : Prop :=
  this s' = this s ∧ ∃ rest, trace s' = trace s ++ rest.

(** A text track that stands for the manifest track [mt]: it carries its
    name as label and is not one of the CEA-608 tracks. *)
Definition track_for (w : World) (mt : ManifestTrack) (r : TrackRef) : Prop :=
  ∃ t, w_tracks w !! r = Some t ∧ label t = name mt ∧
       tt_textTrack1 t = false ∧ tt_textTrack2 t = false.

(** What setting up one text track leaves as it is: the media element
    and the label and the CEA-608 marks of every track that exists. *)
Definition tracks_stay (s s' : Sys) : Prop :=
  _media (this s') = _media (this s) ∧
  ∀ r t, w_tracks (world s) !! r = Some t →
    ∃ t', w_tracks (world s') !! r = Some t' ∧ label t' = label t ∧
          tt_textTrack1 t' = tt_textTrack1 t ∧ tt_textTrack2 t' = tt_textTrack2 t.

(** The four track fields of [this] are the same. *)
Definition same_caption_tracks (s s' : Sys) : Prop :=
  this_textTrack1 (this s') = this_textTrack1 (this s) ∧
  this_textTrack2 (this s') = this_textTrack2 (this s) ∧
  _textTrack1 (this s') = _textTrack1 (this s) ∧
  _textTrack2 (this s') = _textTrack2 (this s).

(** The decoder and the configuration are the same. *)
Definition same_decoder (s s' : Sys) : Prop :=
  _cea608Parser (this s') = _cea608Parser (this s) ∧ _config (this s') = _config (this s).

(** A channel that has a track keeps it; [_textTrack1], [_textTrack2],
    the decoder and the configuration stay. *)
Definition tracks_bound (s s' : Sys) : Prop :=
  (∀ channel r, channel_track channel (this s) = Some r →
                channel_track channel (this s') = Some r) ∧
  _textTrack1 (this s') = _textTrack1 (this s) ∧
  _textTrack2 (this s') = _textTrack2 (this s) ∧
  _cea608Parser (this s') = _cea608Parser (this s) ∧
  _config (this s') = _config (this s).

(** The calls to [addData] in a trace, oldest first, and the call the
    handler makes for a sample: its [pts] with the byte pairs extracted
    from its bytes. *)
Definition addData_call (e : Effect) : list (Z * list Z) :=
  match e with
  | Cea608Parser_addData pts ccdatas => [(pts, ccdatas)]
  | _ => []
  end.

Definition addData_calls (tr : list Effect) : list (Z * list Z) :=
  flat_map addData_call tr.

Definition fed (sample : Sample) : Z * list Z :=
  (pts sample, Cea608._extractCea608Data (bytes sample)).

(** The trace grew, by no call to [addData]. *)
Definition no_addData (s s' : Sys) : Prop :=
  ∃ rest, trace s' = trace s ++ rest ∧ addData_calls rest = [].

(** ** Further sample inputs *)

Definition sample_captions : CaptionsConfig := mkCaptionsConfig "English" "en" "Spanish" "es".

(** A media element is attached and nothing else has happened. *)
Definition attached : Sys :=
  run_events sample_parse never_throws [MEDIA_ATTACHING 0] (fresh (mkConfig true true)).

(** The CEA-608 marks of the tracks that exist stay as they are. *)
Definition marks_stay (s s' : Sys) : Prop :=
  ∀ r t, w_tracks (world s) !! r = Some t →
    ∃ t', w_tracks (world s') !! r = Some t' ∧
          tt_textTrack1 t' = tt_textTrack1 t ∧ tt_textTrack2 t' = tt_textTrack2 t.

Definition same_textTracks (s s' : Sys) : Prop :=
  _textTracks (this s') = _textTracks (this s).

(** A track that exists and carries no CEA-608 mark. *)
Definition unmarked (w : World) (r : TrackRef) : Prop :=
  ∃ t, w_tracks w !! r = Some t ∧ tt_textTrack1 t = false ∧ tt_textTrack2 t = false.

(** The track of a channel carries the channel's mark, and the tracks
    of the subtitles carry none. *)
Definition tracks_apart (s : Sys) : Prop :=
  (∀ channel r, channel_track channel (this s) = Some r →
                marked channel (world s) r = true) ∧
  Forall (unmarked (world s)) (_textTracks (this s)).

(** What a handler of the six events may add to the trace: cues for
    tracks of the subtitles, and no cue for the cue handler. *)
Definition from_subtitles (textTracks : list TrackRef) (e : Effect) : Prop :=
  match e with
  | TextTrack_addCue r _ => r ∈ textTracks
  | Cues_newCue _ _ _ _ => False
  | _ => True
  end.

Definition subtitle_effects (s s' : Sys) : Prop :=
  _textTracks (this s') = _textTracks (this s) ∧
  ∃ rest, trace s' = trace s ++ rest ∧
          Forall (from_subtitles (_textTracks (this s))) rest.

Definition same_trace (s s' : Sys) : Prop := trace s' = trace s.

(** A cue of a subtitle fragment went to a track without CEA-608 mark,
    and a caption cue that names a track names one with such a mark. *)
Definition on_its_track (w : World) (e : Effect) : Prop :=
  match e with
  | TextTrack_addCue r _ => unmarked w r
  | Cues_newCue (Some r) _ _ _ => marked textTrack1 w r || marked textTrack2 w r = true
  | _ => True
  end.

(** The first cue of channel 1 arrives, before and after the subtitles
    of [gate_open]. *)
Definition captioned : Sys :=
  snd (newCue sample_captions (Some 0%nat) textTrack1 0 10 ["HELLO"%string] attached).

Definition subtitles_and_captions : Sys :=
  snd (handle_captions sample_captions (Some 0%nat)
         (NEW_CUE textTrack1 0 10 ["HELLO"%string]) gate_open).

(** A second controller attached to the media element of [captioned]. *)
Definition second_controller : Sys :=
  mkSys (this attached) (world captioned) [].




(** A subtitle fragment is loaded before any manifest. *)
Definition no_manifest : Sys :=
  run_events sample_parse never_throws [FRAG_LOADED F1] (fresh (mkConfig true true)).

(** The manifest is loading and the initial PTS is known. *)
Definition ready : Sys :=
  run_events sample_parse never_throws [MANIFEST_LOADING; INIT_PTS_FOUND 900]
    (fresh (mkConfig true true)).

(** Two samples of user data; during the first [addData] the decoder
    hands over a cue of channel 1. *)
Definition sample_userdata : list Sample :=
  [mkSample 0 [0xC1; 0xFF; 0xFC; 0x94; 0x2C]%Z [mkCueCall textTrack1 0 10 ["HELLO"%string]];
   mkSample 90000 [0xC1; 0xFF; 0xFC; 0x94; 0x2F]%Z []].

(** ** Proof steps *)

(** Runs the monad's primitives and reads fields through assignments. *)
Ltac run :=
  unfold bind, ret, throw, get_this, get_world, modify_this, modify_world, emit;
  cbn beta iota;
  cbn [this world trace fst snd
       _config _enabled _textTracks _tracks _unparsedVttFrags _initPTS _cueRanges
       _cea608Parser _media _lastSn _prevCC _vttCCs this_textTrack1 this_textTrack2
       _textTrack1 _textTrack2
       set_textTracks set_tracks set_unparsedVttFrags set_initPTS set_cueRanges
       set_media set_lastSn set_prevCC set_vttCCs].

(** ** The byte-pair extraction *)

Module Cea608Facts.
Import Cea608.
Local Open Scope Z_scope.

Lemma position_step b st : position (extract_step b st) = (position st + 3)%nat.
Proof.
  unfold extract_step.
  repeat match goal with |- context [if ?c then _ else _] => destruct c end; reflexivity.
Qed.

Lemma reads_step b st :
  reads (extract_step b st) =
  reads st ++ [position st; (position st + 1)%nat; (position st + 2)%nat].
Proof.
  unfold extract_step.
  repeat match goal with |- context [if ?c then _ else _] => destruct c end; reflexivity.
Qed.

Lemma actualCCBytes_step b st :
  actualCCBytes (extract_step b st) =
  actualCCBytes st ++
    flatten_pairs (map masked_pair
      (filter (λ t, selected t = true) [triplet_from b (position st)])).
Proof.
  unfold extract_step, triplet_from.
  cbn [filter list_filter].
  unfold selected, is_padding, marker_valid, marker_type, masked_pair. cbn [fst snd].
  destruct (js_and 127 (b !! (position st + 1)%nat) =? 0) eqn:E1;
  destruct (js_and 127 (b !! (position st + 2)%nat) =? 0) eqn:E2;
  destruct (js_and 4 (b !! position st) =? 0) eqn:E3;
  destruct (js_and 3 (b !! position st) =? 0) eqn:E4;
  cbn; rewrite ?E1, ?E2, ?E3, ?E4; cbn; rewrite ?app_nil_r; try reflexivity.
Qed.

Lemma offsets_S p n : offsets p (S n) = p :: offsets (p + 3) n.
Proof.
  unfold offsets. cbn [seq map]. f_equal; [lia|].
  rewrite <- seq_shift, map_map. apply map_ext. intros j. lia.
Qed.

Lemma flatten_pairs_app l1 l2 :
  flatten_pairs (l1 ++ l2) = flatten_pairs l1 ++ flatten_pairs l2.
Proof. unfold flatten_pairs. apply flat_map_app. Qed.

Lemma extract_loop_bytes b n : ∀ st,
  actualCCBytes (extract_loop b n st) =
  actualCCBytes st ++
    flatten_pairs (map masked_pair
      (filter (λ t, selected t = true)
         (map (triplet_from b) (offsets (position st) n)))).
Proof.
  induction n as [|n IH]; intros st.
  - cbn. now rewrite app_nil_r.
  - cbn [extract_loop]. rewrite IH, actualCCBytes_step, position_step, offsets_S.
    rewrite <- app_assoc. f_equal.
    rewrite <- flatten_pairs_app, <- map_app.
    change (map (triplet_from b) (position st :: offsets (position st + 3) n))
      with ([triplet_from b (position st)] ++ map (triplet_from b) (offsets (position st + 3) n)).
    now rewrite filter_app.
Qed.

Lemma extract_loop_reads b n : ∀ st,
  reads (extract_loop b n st) =
  reads st ++ flat_map (λ p, [p; (p + 1)%nat; (p + 2)%nat]) (offsets (position st) n).
Proof.
  induction n as [|n IH]; intros st.
  - cbn. now rewrite app_nil_r.
  - cbn [extract_loop]. rewrite IH, reads_step, position_step, offsets_S.
    rewrite <- app_assoc. reflexivity.
Qed.

Lemma js_and_low_bits (n : Z) (v : option Z) :
  0 <= n → js_and (Z.ones n) v = low_bits n (default 0 v).
Proof.
  intros Hn. unfold low_bits. destruct v as [b|]; cbn [js_and].
  - change (default 0 (Some b)) with b. rewrite Z.land_comm. now apply Z.land_ones.
  - change (default 0 (@None Z)) with 0. symmetry. apply Z.mod_0_l.
    apply Z.pow_nonzero; lia.
Qed.

Lemma js_and_bit (k : Z) (v : option Z) :
  0 <= k → (js_and (2 ^ k) v =? 0) = negb (Z.testbit (default 0 v) k).
Proof.
  intros Hk. destruct v as [b|]; cbn [js_and].
  2:{ change (default 0 (@None Z)) with 0. now rewrite Z.testbit_0_l. }
  change (default 0 (Some b)) with b.
  assert (H : Z.land (2 ^ k) b = if Z.testbit b k then 2 ^ k else 0).
  { apply Z.bits_inj'. intros i Hi. rewrite Z.land_spec, Z.pow2_bits_eqb by assumption.
    destruct (Z.eqb_spec k i) as [<-|Hne].
    - destruct (Z.testbit b k); [now rewrite Z.pow2_bits_true | now rewrite Z.testbit_0_l].
    - destruct (Z.testbit b k); [|now rewrite Z.testbit_0_l].
      rewrite Z.pow2_bits_false by assumption. reflexivity. }
  rewrite H. destruct (Z.testbit b k); [|reflexivity].
  apply Z.eqb_neq. apply Z.pow_nonzero; lia.
Qed.

Lemma cc_count_announced (b : list Z) : cc_count b = announced_count b.
Proof.
  unfold cc_count, announced_count, byte_at. change 31 with (Z.ones 5).
  now rewrite js_and_low_bits.
Qed.

Lemma selected_contributes (b : list Z) (j : nat) :
  selected (triplet_from b (2 + 3 * j)) = contributes (triplet_at b j) ∧
  masked_pair (triplet_from b (2 + 3 * j)) = (data1 (triplet_at b j), data2 (triplet_at b j)).
Proof.
  unfold selected, contributes, is_padding, padding, marker_valid, marker_type, valid,
    cc_type, masked_pair, data1, data2, triplet_from, triplet_at, byte_at.
  cbn [fst snd marker byte1 byte2].
  change 127 with (Z.ones 7). change 3 with (Z.ones 2). change 4 with (2 ^ 2).
  rewrite !js_and_low_bits, js_and_bit by lia. rewrite Bool.negb_involutive. auto.
Qed.

Lemma flatten_selected (l : list (option Z * option Z * option Z)) :
  flatten_pairs (map masked_pair (filter (λ t, selected t = true) l)) =
  flat_map (λ t, if selected t
                 then [fst (masked_pair t); snd (masked_pair t)] else []) l.
Proof.
  induction l as [|t l IH]; [reflexivity|]. cbn [flat_map].
  destruct (selected t) eqn:Ht.
  - rewrite filter_cons_True by exact Ht. cbn [map flatten_pairs flat_map app].
    f_equal. f_equal. exact IH.
  - rewrite filter_cons_False by congruence. exact IH.
Qed.

(** C7.  For every byte array, [_extractCea608Data] returns, in input
    order, the pairs of the low seven bits of [byte1] and [byte2] of the
    triplets [(marker, byte1, byte2)], read from offset 2 on for as many
    triplets as the low five bits of the first byte say, whose marker
    has bit 2 (the value [0x04]) set and its low two bits equal to 0 and
    whose masked bytes are not both zero; the other triplets contribute
    nothing. *)
Theorem extractCea608Data_spec (byteArray : list Z) :
  _extractCea608Data byteArray = demultiplexed byteArray.
Proof.
  unfold _extractCea608Data, extract_run. rewrite extract_loop_bytes.
  cbn [actualCCBytes position app]. rewrite flatten_selected.
  unfold demultiplexed, offsets. rewrite cc_count_announced, map_map.
  generalize (seq 0 (announced_count byteArray)). intros l.
  induction l as [|j l IH]; [reflexivity|]. cbn [map flat_map]. rewrite IH.
  destruct (selected_contributes byteArray j) as [-> ->]. reflexivity.
Qed.

Lemma indices_read_eq b :
  indices_read b = 0%nat :: flat_map (λ p, [p; (p + 1)%nat; (p + 2)%nat]) (offsets 2 (cc_count b)).
Proof. unfold indices_read, extract_run. now rewrite extract_loop_reads. Qed.

Lemma reads_out_of_bounds_iff b :
  reads_out_of_bounds b ↔
  b = [] ∨ (1 ≤ cc_count b ∧ length b < 2 + 3 * cc_count b)%nat.
Proof.
  unfold reads_out_of_bounds. rewrite indices_read_eq. split.
  - intros (i & Hin & Hnone). apply lookup_ge_None in Hnone.
    destruct Hin as [<- | Hin].
    + left. destruct b; [reflexivity | cbn in Hnone; lia].
    + right. apply in_flat_map in Hin as (p & Hp & Hi).
      unfold offsets in Hp. apply in_map_iff in Hp as (j & <- & Hj).
      apply in_seq in Hj. cbn in Hi. lia.
  - intros [-> | [Hc Hl]].
    + exists 0%nat. split; [now left | reflexivity].
    + exists (2 + 3 * (cc_count b - 1) + 2)%nat. split.
      * right. apply in_flat_map. exists (2 + 3 * (cc_count b - 1))%nat. split.
        -- unfold offsets. apply in_map_iff. exists (cc_count b - 1)%nat. split; [reflexivity|].
           apply in_seq. lia.
        -- cbn. auto.
      * apply lookup_ge_None. lia.
Qed.

(** C9, counterexample.  For the one-byte array [[0]] the count is 0,
    so [2 + 3 * count] exceeds the length 1; the only index read is 0,
    which is inside the array. *)
Lemma no_triplet_no_read_past_end :
  (length [0%Z] < 2 + 3 * cc_count [0%Z])%nat ∧ ¬ reads_out_of_bounds [0%Z].
Proof.
  split; [vm_compute; lia|]. rewrite reads_out_of_bounds_iff.
  intros [H | [H _]]; [discriminate | vm_compute in H; lia].
Qed.

(** C9 (amended).  Some byte array makes [_extractCea608Data] read an
    index past its end: the count taken from the first byte is never
    compared with the length.  An index past the end is read exactly
    when the array is empty, or the count is at least 1 and
    [2 + 3 * count] exceeds the length. *)
Theorem extract_reads_past_end :
  (∃ byteArray, reads_out_of_bounds byteArray) ∧
  (∀ byteArray,
     reads_out_of_bounds byteArray ↔
     byteArray = [] ∨
     (1 ≤ cc_count byteArray ∧ length byteArray < 2 + 3 * cc_count byteArray)%nat).
Proof.
  split; [|exact reads_out_of_bounds_iff].
  exists [0xC1; 0xFF; 0xFC; 0x94]. apply reads_out_of_bounds_iff. right. vm_compute. lia.
Qed.

End Cea608Facts.

(** ** The overlap rule of addCues *)

Local Open Scope Q_scope.

Section Scan.
Variables s e : Q.

Lemma Qlt_bool_iff x y : Qlt_bool x y = true ↔ x < y.
Proof.
  unfold Qlt_bool. rewrite negb_true_iff. split.
  - intros H. apply Qnot_le_lt. intros Hle. apply Qle_bool_iff in Hle. congruence.
  - intros H. destruct (Qle_bool y x) eqn:E; [|reflexivity].
    apply Qle_bool_iff in E. exfalso. exact (Qlt_not_le _ _ H E).
Qed.

Lemma lookup_middle_len (pre post : list CueRange) r :
  ((pre ++ [r]) ++ post) !! length pre = Some r.
Proof. rewrite <- app_assoc. apply list_lookup_middle. reflexivity. Qed.

Lemma insert_middle_len (pre post : list CueRange) r r' :
  <[length pre := r']> ((pre ++ [r]) ++ post) = pre ++ r' :: post.
Proof.
  rewrite <- app_assoc. cbn [app].
  rewrite insert_app_r_alt by lia. rewrite Nat.sub_diag. reflexivity.
Qed.

Lemma addCues_loop_step (pre post : list CueRange) r merged :
  addCues_loop (length (pre ++ [r])) ((pre ++ [r]) ++ post) merged s e =
  if stops_scan s e r
  then Some (ScanReturned (pre ++ merge_range r s e :: post))
  else addCues_loop (length pre) (pre ++ merge_if_overlaps s e r :: post)
         (merged || overlaps s e r) s e.
Proof.
  rewrite length_app. cbn [length]. rewrite Nat.add_1_r. cbn [addCues_loop].
  rewrite lookup_middle_len, insert_middle_len.
  unfold stops_scan, merge_if_overlaps, overlaps, overlap_ratio, overlap_of.
  destruct (Qle_bool 0 (intersection (fst r) (snd r) s e)) eqn:Ho; cbn [andb].
  - destruct (Qlt_bool _ _); [reflexivity|]. now destruct merged.
  - rewrite Bool.orb_false_r. rewrite <- app_assoc. reflexivity.
Qed.

Lemma addCues_loop_done (pre : list CueRange) : ∀ post merged,
  Forall (λ r, stops_scan s e r = false) pre →
  addCues_loop (length pre) (pre ++ post) merged s e =
  Some (ScanDone (map (merge_if_overlaps s e) pre ++ post)
                 (merged || existsb (overlaps s e) pre)).
Proof.
  induction pre as [|r pre IH] using rev_ind; intros post merged Hall.
  - cbn. now rewrite Bool.orb_false_r.
  - apply Forall_app in Hall as [Hpre Hr]. apply Forall_inv in Hr.
    cbn beta in Hr. rewrite addCues_loop_step, Hr. rewrite IH by assumption.
    rewrite map_app, existsb_app. cbn [map existsb]. rewrite Bool.orb_false_r.
    rewrite <- app_assoc, <- Bool.orb_assoc, (Bool.orb_comm (overlaps s e r)). reflexivity.
Qed.

Lemma addCues_loop_returned (p1 p2 : list CueRange) r : ∀ post merged,
  stops_scan s e r = true →
  Forall (λ r, stops_scan s e r = false) p2 →
  addCues_loop (length (p1 ++ r :: p2)) ((p1 ++ r :: p2) ++ post) merged s e =
  Some (ScanReturned (p1 ++ merge_range r s e :: map (merge_if_overlaps s e) p2 ++ post)).
Proof.
  induction p2 as [|x p2 IH] using rev_ind; intros post merged Hr Hall.
  - change (p1 ++ [r]) with (p1 ++ [r]). rewrite addCues_loop_step, Hr. reflexivity.
  - apply Forall_app in Hall as [Hp2 Hx]. apply Forall_inv in Hx.
    replace (p1 ++ r :: p2 ++ [x]) with ((p1 ++ r :: p2) ++ [x])
      by (rewrite <- app_assoc; reflexivity).
    cbn beta in Hx. rewrite addCues_loop_step, Hx. rewrite IH by assumption.
    rewrite map_app. cbn [map]. rewrite <- app_assoc. reflexivity.
Qed.

(** The last range of a list that stops the scan. *)
Lemma last_stop_split (l : list CueRange) i r :
  l !! i = Some r → stops_scan s e r = true →
  ∃ p1 rk p2, l = p1 ++ rk :: p2 ∧ (i ≤ length p1)%nat ∧
    stops_scan s e rk = true ∧ Forall (λ r, stops_scan s e r = false) p2.
Proof.
  revert i. induction l as [|x l IH] using rev_ind; intros i Hi Hr.
  - discriminate.
  - destruct (stops_scan s e x) eqn:Hx.
    + exists l, x, []. repeat split; auto.
      apply lookup_lt_Some in Hi. rewrite length_app in Hi. cbn in Hi. lia.
    + assert (Hil : l !! i = Some r).
      { destruct (decide (i < length l)%nat) as [Hlt|Hge].
        - now rewrite lookup_app_l in Hi.
        - rewrite lookup_app_r in Hi by lia.
          destruct (i - length l)%nat; cbn in Hi; [|discriminate].
          congruence. }
      destruct (IH i Hil Hr) as (p1 & rk & p2 & -> & Hle & Hk & Hall).
      exists p1, rk, (p2 ++ [x]). repeat split; auto.
      * now rewrite <- app_assoc.
      * apply Forall_app. split; [assumption|]. now apply Forall_singleton.
Qed.
End Scan.

Lemma overlap_le_duration (r : CueRange) (s e : Q) : overlap_of r s e <= e - s.
Proof.
  unfold overlap_of, intersection, Qminus.
  apply Qplus_le_compat; [apply Q.le_min_r | apply Qopp_le_compat, Q.le_max_r].
Qed.

Lemma stops_scan_true s e r :
  stops_scan s e r = true ↔ 0 <= overlap_of r s e ∧ 1 # 2 < overlap_ratio r s e.
Proof.
  unfold stops_scan, overlaps. rewrite andb_true_iff, Qle_bool_iff, Qlt_bool_iff. reflexivity.
Qed.

Lemma stops_scan_false s e r :
  stops_scan s e r = false ↔ ¬ (0 <= overlap_of r s e ∧ 1 # 2 < overlap_ratio r s e).
Proof.
  rewrite <- stops_scan_true. destruct (stops_scan s e r); split; intros; congruence.
Qed.


(** ** The overlap rule on doubles *)

Module DoubleFacts.
Import PrimFloat Double.
Local Open Scope float_scope.

Section Scan.
Variables s e : float.





End Scan.


(** The quotient is the rounded one.  With the range [[-1, 1]] stored,
    the cue [[-2^-60, 2]] overlaps by [1 + 2^-60] of its [2 + 2^-60]
    seconds, more than half; the code computes the overlap 1, the
    duration 2 and the quotient [0.5], and hands the cue on. *)
Example rounded_quotient :
  overlap_of (-1, 1) (-0x1p-60) 2 = 1 ∧
  overlap_ratio (-1, 1) (-0x1p-60) 2 = 0.5 ∧
  addCues [(-1, 1)] None (-0x1p-60) 2 [] =
  Some ([(-1, 2)], [mkNewCueCall None (-0x1p-60) 2 []]).
Proof. repeat split. Qed.



End DoubleFacts.

(** ** What the handlers keep *)

Section Keeps.
Variable R : Sys → Sys → Prop.
Hypothesis R_refl : ∀ s, R s s.
Hypothesis R_trans : ∀ s1 s2 s3, R s1 s2 → R s2 s3 → R s1 s3.

Lemma keeps_ret {A} (a : A) : keeps R (ret a).
Proof. intros s. apply R_refl. Qed.

Lemma keeps_throw {A} : keeps R (@throw A).
Proof. intros s. apply R_refl. Qed.

Lemma keeps_get_this : keeps R get_this.
Proof. intros s. apply R_refl. Qed.

Lemma keeps_get_world : keeps R get_world.
Proof. intros s. apply R_refl. Qed.

Lemma keeps_bind {A B} (m : M A) (k : A → M B) :
  keeps R m → (∀ a, keeps R (k a)) → keeps R (bind m k).
Proof.
  intros Hm Hk s. unfold bind. specialize (Hm s).
  destruct (m s) as [[a|] s1]; cbn [snd] in *; [|exact Hm].
  eapply R_trans; [exact Hm | apply Hk].
Qed.

Lemma keeps_forEach {A} (f : A → M unit) (l : list A) :
  (∀ x, keeps R (f x)) → keeps R (forEach l f).
Proof.
  intros Hf. induction l as [|x l IH]; cbn [forEach].
  - apply keeps_ret.
  - apply keeps_bind; [apply Hf | intros _; exact IH].
Qed.

Lemma keeps_forEach_from {A} (f : nat → A → M unit) (l : list A) :
  (∀ i x, keeps R (f i x)) → ∀ i, keeps R (forEach_from i l f).
Proof.
  intros Hf. induction l as [|x l IH]; intros i; cbn [forEach_from].
  - apply keeps_ret.
  - apply keeps_bind; [apply Hf | intros _; apply IH].
Qed.
End Keeps.

Lemma same_stores_refl s : same_stores s s.
Proof. now repeat split. Qed.

Lemma same_stores_trans s1 s2 s3 :
  same_stores s1 s2 → same_stores s2 s3 → same_stores s1 s3.
Proof.
  intros (A1 & A2 & A3 & A4 & A5) (B1 & B2 & B3 & B4 & B5).
  repeat split; congruence.
Qed.

Lemma past_gate_refl s : past_gate s s.
Proof. now repeat split. Qed.

Lemma past_gate_trans s1 s2 s3 :
  past_gate s1 s2 → past_gate s2 s3 → past_gate s1 s3.
Proof.
  intros (A1 & A2 & A3 & A4 & A5) (B1 & B2 & B3 & B4 & B5).
  repeat split; try congruence; auto.
Qed.

(** Steps through a computation, one combinator at a time; what is left
    are the assignments and the calls. *)
Ltac keeps_step Rrefl Rtrans :=
  match goal with
  | |- keeps _ (bind _ _) => apply (keeps_bind _ Rtrans); [|intros ?]
  | |- keeps _ (ret _) => apply (keeps_ret _ Rrefl)
  | |- keeps _ throw => apply (keeps_throw _ Rrefl)
  | |- keeps _ get_this => apply (keeps_get_this _ Rrefl)
  | |- keeps _ get_world => apply (keeps_get_world _ Rrefl)
  | |- keeps _ (forEach _ _) => apply (keeps_forEach _ Rrefl Rtrans); intros ?
  | |- keeps _ (forEach_from _ _ _) => apply (keeps_forEach_from _ Rrefl Rtrans); intros ? ?
  | |- keeps _ (match ?x with _ => _ end) => destruct x
  | |- keeps _ (let _ := _ in _) => cbv zeta
  end.

(** A relation kept by the call of [addData] and by the callbacks of
    the decoder is kept by [onFragParsingUserdata]. *)
Lemma onFragParsingUserdata_keeps (R : Sys → Sys → Prop) captions self_media :
  (∀ s, R s s) →
  (∀ s1 s2 s3, R s1 s2 → R s2 s3 → R s1 s3) →
  (∀ pts ccdatas, keeps R (emit (Cea608Parser_addData pts ccdatas))) →
  (∀ channel st en screen, keeps R (newCue captions self_media channel st en screen)) →
  ∀ samples, keeps R (onFragParsingUserdata captions self_media samples).
Proof.
  intros Rrefl Rtrans Hemit HnewCue samples.
  unfold onFragParsingUserdata, addData.
  repeat keeps_step Rrefl Rtrans; auto.
Qed.

Lemma clearCurrentCues_keeps track : keeps same_stores (clearCurrentCues track).
Proof.
  destruct track; cbn; [|apply keeps_ret, same_stores_refl].
  intros s. now repeat split.
Qed.

Lemma createTextTrack_keeps kind label lang :
  keeps same_stores (createTextTrack kind label lang).
Proof.
  unfold createTextTrack, addTextTrack.
  repeat keeps_step same_stores_refl same_stores_trans.
  intros s. now repeat split.
Qed.

Lemma setupTextTrack_keeps index track :
  keeps same_stores (setupTextTrack index track).
Proof.
  unfold setupTextTrack, inUseTracks_now, media_textTracks.
  repeat keeps_step same_stores_refl same_stores_trans;
    try apply createTextTrack_keeps; intros s; now repeat split.
Qed.

(** *** Facts about the handlers *)




Lemma Cue_eta (c : Cue) : mkCue (id c) (startTime c) (endTime c) (text c) = c.
Proof. now destruct c. Qed.

Lemma Sys_eta (s : Sys) : mkSys (this s) (world s) (trace s) = s.
Proof. now destruct s. Qed.

Lemma World_eta (w : World) : mkWorld (w_tracks w) (w_media w) = w.
Proof. now destruct w. Qed.

Lemma set_cues_id (t : TextTrack) : set_cues (cues t) t = t.
Proof. now destruct t. Qed.

Lemma insert_alter_same {A} (f : A → A) (l : list A) i x :
  <[i := x]> (alter f i l) = <[i := x]> l.
Proof. rewrite !list_insert_alter, list_alter_alter_eq. reflexivity. Qed.

Lemma is_Some_alter {A} (f : A → A) (l : list A) i j :
  is_Some (l !! j) → is_Some (alter f i l !! j).
Proof.
  intros H. apply lookup_lt_is_Some. rewrite length_alter. now apply lookup_lt_is_Some.
Qed.

Section HandlerFacts.
Variable parse : list Z → Z → VttCCs → Z → VttCCs * ParseResult.
Variable addCue_throws : Cue → bool.

Lemma track_addCue_same r c : (if addCue_throws c
   then track_addCue r (mkCue (id c) (startTime c) (endTime c) (text c))
   else track_addCue r c) = track_addCue r c.
Proof. rewrite Cue_eta. now destruct (addCue_throws c). Qed.

Lemma forEach_addParsedCue r (parsed : list Cue) : ∀ (s : Sys) track,
  w_tracks (world s) !! r = Some track →
  forEach parsed (addParsedCue addCue_throws (Some r)) s =
  (Some tt,
   mkSys (this s)
     (mkWorld
        (<[r := set_cues (cues track ++ cues_added (cues track) parsed) track]>
           (w_tracks (world s)))
        (w_media (world s)))
     (trace s ++ map (TextTrack_addCue r) (cues_added (cues track) parsed))).
Proof.
  induction parsed as [|c rest IH]; intros s track Hr.
  - cbn. rewrite !app_nil_r, set_cues_id, list_insert_id by assumption.
    now rewrite World_eta, Sys_eta.
  - cbn [forEach cues_added]. unfold bind at 1. unfold addParsedCue at 1.
    unfold bind at 1, get_world, track_of. cbn beta iota. rewrite Hr.
    destruct (getCueById (cues track) (id c)) eqn:Hget.
    + unfold ret. now apply IH.
    + rewrite track_addCue_same.
      unfold track_addCue, bind, modify_world, emit. cbn [this world trace].
      erewrite IH.
      2:{ cbn [world w_tracks]. rewrite list_lookup_alter_eq, Hr. reflexivity. }
      cbn [this world trace w_tracks w_media cues set_cues kind label language mode
             tt_textTrack1 tt_textTrack2 map].
      rewrite insert_alter_same, <- !app_assoc. reflexivity.
Qed.

Lemma forEach_addParsedCue_no_track ct (parsed : list Cue) (s : Sys) :
  track_of (world s) ct = None →
  forEach parsed (addParsedCue addCue_throws ct) s =
  (match parsed with [] => Some tt | _ => None end, s).
Proof.
  intros H. destruct parsed as [|c rest]; [reflexivity|].
  cbn [forEach]. unfold bind at 1. unfold addParsedCue, bind, get_world.
  cbn beta iota. rewrite H. reflexivity.
Qed.


Lemma track_addCue_past_gate r c : keeps past_gate (track_addCue r c).
Proof.
  intros s. unfold track_addCue. run. repeat split; auto.
  intros j. cbn. apply is_Some_alter.
Qed.


Lemma addParsedCue_past_gate ct c : keeps past_gate (addParsedCue addCue_throws ct c).
Proof.
  unfold addParsedCue.
  repeat keeps_step past_gate_refl past_gate_trans; apply track_addCue_past_gate.
Qed.


Lemma emit_past_gate e : keeps past_gate (emit e).
Proof. intros s. now repeat split. Qed.


Lemma parseCallback_past_gate tts frag parsed :
  keeps past_gate (parseCallback addCue_throws tts frag parsed).
Proof.
  unfold parseCallback.
  repeat keeps_step past_gate_refl past_gate_trans;
    [apply addParsedCue_past_gate | apply emit_past_gate].
Qed.


Lemma parseErrorCallback_run frag e (s : Sys) :
  parseErrorCallback frag e s =
  (Some tt,
   mkSys (this s) (world s)
     (trace s ++ [logger_log ("Failed to parse VTT cue: " ++ e)%string;
                  trigger_SUBTITLE_FRAG_PROCESSED false frag])).
Proof. unfold parseErrorCallback. run. now rewrite <- app_assoc. Qed.

Lemma parseVttFrag_undefined frag payload initPTS (s : Sys) :
  _vttCCs (this s) = None →
  parseVttFrag parse addCue_throws frag payload initPTS s = (None, s).
Proof. intros H. unfold parseVttFrag, bind, get_this, throw. cbn beta iota. now rewrite H. Qed.

Lemma parseVttFrag_run frag payload initPTS (s : Sys) vttCCs :
  _vttCCs (this s) = Some vttCCs →
  parseVttFrag parse addCue_throws frag payload initPTS s =
  let vttCCs1 := vttCCs_with frag (_prevCC (this s)) vttCCs in
  let answer := parse payload initPTS vttCCs1 (cc frag) in
  let s1 := mkSys (this_after_parse frag vttCCs (fst answer) (this s)) (world s)
              (trace s ++ [WebVTTParser_parse payload initPTS vttCCs1 (cc frag)]) in
  match snd answer with
  | ParseCues parsed => parseCallback addCue_throws (_textTracks (this s)) frag parsed s1
  | ParseError e => parseErrorCallback frag e s1
  end.
Proof.
  intros H. unfold parseVttFrag, bind, get_this. cbn beta iota. rewrite H.
  unfold this_after_parse.
  destruct (cc_entries vttCCs !! cc frag) eqn:Hcc;
    unfold modify_this, emit, ret; cbn beta iota; cbn [this world trace];
    destruct (snd (parse payload initPTS _ (cc frag))); reflexivity.
Qed.

Lemma this_after_parse_past_gate frag vttCCs answer (s : Sys) tr :
  past_gate s (mkSys (this_after_parse frag vttCCs answer (this s)) (world s) tr).
Proof.
  unfold this_after_parse. destruct (cc_entries vttCCs !! cc frag); repeat split; cbn; eauto.
Qed.

Lemma parseVttFrag_past_gate frag payload initPTS :
  keeps past_gate (parseVttFrag parse addCue_throws frag payload initPTS).
Proof.
  intros s. destruct (_vttCCs (this s)) as [v|] eqn:Hv.
  - rewrite (parseVttFrag_run _ _ _ _ _ Hv). cbv zeta.
    eapply past_gate_trans; [apply this_after_parse_past_gate|].
    destruct (snd (parse _ _ _ _)).
    + apply parseCallback_past_gate.
    + rewrite parseErrorCallback_run. now repeat split.
  - rewrite parseVttFrag_undefined by assumption. apply past_gate_refl.
Qed.


End HandlerFacts.



Lemma emitted_app (s : Sys) t w tr : emitted s (mkSys t w (trace s ++ tr)) = tr.
Proof. unfold emitted. cbn [trace]. apply drop_app_length. Qed.

Lemma emitted_same (s : Sys) t w : emitted s (mkSys t w (trace s)) = [].
Proof. unfold emitted. cbn [trace]. apply drop_all. Qed.

Lemma gate_grows_refl s : gate_grows s s.
Proof. now repeat split. Qed.

Lemma gate_grows_trans s1 s2 s3 : gate_grows s1 s2 → gate_grows s2 s3 → gate_grows s1 s3.
Proof.
  intros (A1 & A2 & A3) (B1 & B2 & B3). repeat split.
  - congruence.
  - intros H. rewrite B2, A2; congruence.
  - auto.
Qed.

Lemma past_gate_grows s s' : past_gate s s' → gate_grows s s'.
Proof. intros (A1 & A2 & _). repeat split; congruence. Qed.

Lemma same_stores_grows s s' : same_stores s s' → gate_grows s s'.
Proof. intros (A1 & A2 & _). repeat split; congruence. Qed.

Lemma nonempty_byteLength (p : list Z) : p ≠ [] → negb (byteLength p =? 0)%nat = true.
Proof. destruct p; [congruence | reflexivity]. Qed.

Section GateFacts.
Variable parse : list Z → Z → VttCCs → Z → VttCCs * ParseResult.
Variable addCue_throws : Cue → bool.


Lemma onFragLoaded_main data (s : Sys) :
  type (frag data) = "main"%string →
  (onFragLoaded parse addCue_throws) data s =
  (Some tt,
   mkSys (set_lastSn (Some (sn (frag data))) (this s)) (world s)
     (trace s ++
      (if js_strict_ne (sn (frag data)) (js_plus1 (_lastSn (this s)))
       then if _cea608Parser (this s) then [Cea608Parser_reset] else []
       else []))).
Proof.
  intros H. unfold onFragLoaded. rewrite H. cbn [String.eqb Ascii.eqb Bool.eqb].
  run. destruct (js_strict_ne _ _); [destruct (_cea608Parser _)|]; run;
    rewrite ?app_nil_r; reflexivity.
Qed.

Lemma onFragLoaded_empty data (s : Sys) :
  type (frag data) = "subtitle"%string → payload data = [] →
  (onFragLoaded parse addCue_throws) data s =
  (Some tt,
   mkSys (this s) (world s)
     (trace s ++ [trigger_SUBTITLE_FRAG_PROCESSED false (frag data)])).
Proof.
  intros H Hp. unfold onFragLoaded. rewrite H, Hp. reflexivity.
Qed.

Lemma onFragLoaded_enqueue data (s : Sys) :
  type (frag data) = "subtitle"%string → payload data ≠ [] →
  _initPTS (this s) = None →
  (onFragLoaded parse addCue_throws) data s =
  (Some tt,
   mkSys (set_unparsedVttFrags (_unparsedVttFrags (this s) ++ [data]) (this s))
     (world s) (trace s)).
Proof.
  intros H Hp Hi. unfold onFragLoaded. rewrite H.
  cbn [String.eqb Ascii.eqb Bool.eqb]. rewrite nonempty_byteLength by assumption.
  run. rewrite Hi. reflexivity.
Qed.

Lemma onFragLoaded_parse data (s : Sys) initPTS :
  type (frag data) = "subtitle"%string → payload data ≠ [] →
  _initPTS (this s) = Some initPTS →
  (onFragLoaded parse addCue_throws) data s = (parseVttFrag parse addCue_throws) (frag data) (payload data) initPTS s.
Proof.
  intros H Hp Hi. unfold onFragLoaded. rewrite H.
  cbn [String.eqb Ascii.eqb Bool.eqb]. rewrite nonempty_byteLength by assumption.
  run. rewrite Hi. reflexivity.
Qed.

Lemma onFragLoaded_other data (s : Sys) :
  type (frag data) ≠ "main"%string → type (frag data) ≠ "subtitle"%string →
  (onFragLoaded parse addCue_throws) data s = (Some tt, s).
Proof.
  intros H1 H2. unfold onFragLoaded.
  apply String.eqb_neq in H1, H2. rewrite H1, H2. reflexivity.
Qed.

Lemma onFragLoaded_grows data : keeps gate_grows ((onFragLoaded parse addCue_throws) data).
Proof.
  intros s.
  destruct (decide (type (frag data) = "main"%string)) as [Hm|Hm].
  { rewrite onFragLoaded_main by assumption. now repeat split. }
  destruct (decide (type (frag data) = "subtitle"%string)) as [Hs|Hs].
  2:{ rewrite onFragLoaded_other by assumption. apply gate_grows_refl. }
  destruct (payload data) as [|b p] eqn:Hp.
  { rewrite onFragLoaded_empty by assumption. now repeat split. }
  assert (Hne : payload data ≠ []) by (rewrite Hp; discriminate).
  destruct (_initPTS (this s)) as [initPTS|] eqn:Hi.
  - rewrite (onFragLoaded_parse _ _ initPTS) by assumption.
    apply past_gate_grows, parseVttFrag_past_gate.
  - rewrite onFragLoaded_enqueue by assumption. repeat split; cbn; auto.
    + congruence.
    + intros Hq. apply Forall_app. split; [assumption|].
      apply Forall_singleton. now split.
Qed.

Lemma forEach_clearCurrentCues_returns (l : list nat) : ∀ s,
  fst (forEach l (λ r, clearCurrentCues (Some r)) s) = Some tt.
Proof.
  induction l as [|r l IH]; intros s; [reflexivity|].
  cbn [forEach]. unfold bind at 1. cbn [clearCurrentCues]. unfold modify_world at 1.
  apply IH.
Qed.

Lemma onManifestLoading_run (s : Sys) :
  fst (onManifestLoading s) = Some tt ∧
  same_stores
    (mkSys (set_vttCCs (Some (mkVttCCs 0 0 ∅)) (this s)) (world s) (trace s))
    (snd (onManifestLoading s)) ∧
  _lastSn (this (snd (onManifestLoading s))) = Some (-1)%Z ∧
  _cea608Parser (this (snd (onManifestLoading s))) = _cea608Parser (this s).
Proof.
  unfold onManifestLoading, media_textTracks. run.
  destruct (_media (this s)) as [m|]; run.
  - split; [apply forEach_clearCurrentCues_returns|].
    match goal with |- context [forEach ?l ?f ?s0] =>
      pose proof (keeps_forEach _ same_stores_refl same_stores_trans f l
                    (λ r, clearCurrentCues_keeps (Some r)) s0) as Hk;
      assert (Ht : this (snd (forEach l f s0)) = this s0)
    end.
    { clear Hk. generalize (default [] (w_media (world s) !! m)).
      intros l. match goal with |- context [forEach l ?f ?s0] => generalize s0 end.
      induction l as [|r l IH]; intros s0; [reflexivity|].
      cbn [forEach]. unfold bind at 1. cbn [clearCurrentCues]. unfold modify_world at 1.
      rewrite IH. reflexivity. }
    rewrite Ht. split; [|now split]. exact Hk.
  - split; [reflexivity|]. split; [now repeat split | now split].
Qed.

Lemma onManifestLoaded_run subtitles (s : Sys) :
  same_stores
    (mkSys (set_cueRanges [] (set_initPTS None (this s))) (world s) (trace s))
    (snd (onManifestLoaded subtitles s)).
Proof.
  unfold onManifestLoaded, or_empty. run.
  destruct (enableWebVTT (_config (this s))); run.
  - match goal with |- context [forEach_from ?i ?l ?f ?s0] =>
      pose proof (keeps_forEach_from _ same_stores_refl same_stores_trans f l
                    setupTextTrack_keeps i s0) as Hk
    end.
    eapply same_stores_trans; [|exact Hk]. now repeat split.
  - now repeat split.
Qed.

Lemma onMediaDetaching_run (s : Sys) :
  fst (onMediaDetaching s) = Some tt ∧ this (snd (onMediaDetaching s)) = this s ∧
  trace (snd (onMediaDetaching s)) = trace s.
Proof.
  unfold onMediaDetaching. run.
  destruct (_textTrack1 (this s)), (_textTrack2 (this s)); cbn; auto.
Qed.

Lemma drain_returns (s1 s' : Sys) :
  (if negb (length (_unparsedVttFrags (this s1)) =? 0)%nat
   then bind (forEach (_unparsedVttFrags (this s1)) (onFragLoaded parse addCue_throws))
          (λ _, modify_this (set_unparsedVttFrags []))
   else ret tt) s1 = (Some tt, s') →
  _unparsedVttFrags (this s') = [] ∧ _initPTS (this s') = _initPTS (this s1).
Proof.
  destruct (_unparsedVttFrags (this s1)) as [|d q] eqn:Hq1; cbn [length Nat.eqb negb].
  - intros [= <-]. now split.
  - pose proof (keeps_forEach _ gate_grows_refl gate_grows_trans _ (d :: q)
                  onFragLoaded_grows s1) as Hk.
    unfold bind. destruct (forEach (d :: q) (onFragLoaded parse addCue_throws) s1) as [[[]|] s2]; [|discriminate].
    intros [= <-]. cbn. split; [reflexivity|]. now destruct Hk as [Hk _].
Qed.

Lemma onInitPtsFound_returns initPTS (s s' : Sys) :
  (onInitPtsFound parse addCue_throws) initPTS s = (Some tt, s') →
  _unparsedVttFrags (this s') = [] ∧
  _initPTS (this s') = Some (default initPTS (_initPTS (this s))).
Proof.
  unfold onInitPtsFound. unfold bind at 1, get_this at 1. cbn beta iota.
  destruct (_initPTS (this s)) as [p|] eqn:Hi.
  - unfold bind at 1, ret at 1. cbn beta iota. unfold bind at 1, get_this at 1.
    cbn beta iota. intros H. apply drain_returns in H as [H1 H2]. split; [assumption|].
    now rewrite H2, Hi.
  - unfold bind at 1, modify_this at 1. cbn beta iota. unfold bind at 1, get_this at 1.
    cbn beta iota. intros H. apply drain_returns in H as [H1 H2]. now split.
Qed.

Lemma handle_invariant ev (s s' : Sys) :
  gate_invariant s → (handle parse addCue_throws) ev s = (Some tt, s') → gate_invariant s'.
Proof.
  intros [Hinv1 Hinv2] Hev. destruct ev; cbn [handle] in Hev.
  - unfold onMediaAttaching in Hev. injection Hev as <-. now split.
  - destruct (onMediaDetaching_run s) as (_ & Ht & _).
    rewrite Hev in Ht. cbn in Ht. unfold gate_invariant. rewrite Ht. now split.
  - destruct (onManifestLoading_run s) as (_ & (A1 & A2 & _) & _).
    rewrite Hev in A1, A2. cbn in A1, A2. unfold gate_invariant. rewrite A1, A2. now split.
  - pose proof (onManifestLoaded_run subtitles s) as (A1 & A2 & _).
    rewrite Hev in A1, A2. cbn in A1, A2. unfold gate_invariant. rewrite A1, A2.
    split; [congruence | assumption].
  - pose proof (onFragLoaded_grows data s) as (A1 & A2 & A3).
    rewrite Hev in A1, A2, A3. cbn [snd] in A1, A2, A3. split; [|auto].
    intros Hi. rewrite A1 in Hi. rewrite A2; auto.
  - apply onInitPtsFound_returns in Hev as [Hq Hi]. unfold gate_invariant. rewrite Hq.
    split; [reflexivity | constructor].
Qed.

Lemma reachable_invariant (s : Sys) : (reachable parse addCue_throws) s → gate_invariant s.
Proof.
  induction 1 as [config w | s ev s' _ IH Hev].
  - split; [reflexivity | constructor].
  - eapply handle_invariant; eassumption.
Qed.
End GateFacts.

(** Within the safe integers the sum [n + 1] is not rounded. *)
Lemma round_double_exact (n : Z) : (Z.abs n <= 2 ^ 53)%Z → round_double n = n.
Proof.
  intros Hn. unfold round_double.
  destruct (Z.eq_dec (Z.abs n) (2 ^ 53)%Z) as [He|Hne].
  - destruct (Z.abs_spec n) as [[_ Ha]|[_ Ha]]; rewrite Ha in He.
    + subst n. reflexivity.
    + replace n with (- 2 ^ 53)%Z by lia. reflexivity.
  - destruct (Z.eq_dec (Z.abs n) 0%Z) as [H0|H0].
    + rewrite H0. reflexivity.
    + assert (Z.log2 (Z.abs n) < 53)%Z by (apply Z.log2_lt_pow2; lia).
      destruct (Z.leb_spec (Z.log2 (Z.abs n) - 52) 0); [reflexivity | lia].
Qed.

Lemma js_plus1_safe (x : Z) : safe_integer x → js_plus1 (Some x) = Some (x + 1)%Z.
Proof.
  unfold safe_integer. intros Hx. cbn [js_plus1]. rewrite round_double_exact; [reflexivity|].
  lia.
Qed.

Section ClaimFacts.
Variable parse : list Z → Z → VttCCs → Z → VttCCs * ParseResult.
Variable addCue_throws : Cue → bool.






(** C10.  In every state reached from the constructor through handlers
    that returned, a defined [_initPTS] comes with an empty queue; so
    [onInitPtsFound] in such a state runs no drain loop and leaves the
    state as it is. *)
Theorem initPTS_defined_queue_empty (s : Sys) :
  (reachable parse addCue_throws) s →
  _initPTS (this s) ≠ None →
  _unparsedVttFrags (this s) = [] ∧
  ∀ initPTS, (onInitPtsFound parse addCue_throws) initPTS s = (Some tt, s).
Proof.
  intros Hreach Hi. apply reachable_invariant in Hreach as [Hinv _].
  specialize (Hinv Hi). split; [assumption|]. intros initPTS.
  unfold onInitPtsFound. unfold bind at 1, get_this at 1. cbn beta iota.
  destruct (_initPTS (this s)); [|congruence].
  unfold bind at 1, ret at 1. cbn beta iota. unfold bind at 1, get_this at 1.
  cbn beta iota. rewrite Hinv. reflexivity.
Qed.

(** C4 (amended).  [onMediaDetaching] returns and leaves the queue of
    unparsed fragments, the continuity map and the cue ranges as they
    were. *)
Theorem onMediaDetaching_keeps_stores (s : Sys) :
  fst (onMediaDetaching s) = Some tt ∧
  _unparsedVttFrags (this (snd (onMediaDetaching s))) = _unparsedVttFrags (this s) ∧
  _vttCCs (this (snd (onMediaDetaching s))) = _vttCCs (this s) ∧
  _cueRanges (this (snd (onMediaDetaching s))) = _cueRanges (this s).
Proof.
  destruct (onMediaDetaching_run s) as (H1 & H2 & _). rewrite H2. auto.
Qed.

(** C5 (amended).  After [onManifestLoading] followed by
    [onManifestLoaded] the cue ranges are empty, the continuity map has
    no entry for any discontinuity, [_initPTS] is undefined, and the
    queue of unparsed fragments is the one from before. *)
Theorem manifest_load_resets (s : Sys) subtitles :
  fst (onManifestLoading s) = Some tt ∧
  let s' := snd (onManifestLoaded subtitles (snd (onManifestLoading s))) in
  _cueRanges (this s') = [] ∧
  _vttCCs (this s') = Some (mkVttCCs 0 0 ∅) ∧
  _initPTS (this s') = None ∧
  _unparsedVttFrags (this s') = _unparsedVttFrags (this s).
Proof.
  destruct (onManifestLoading_run s) as (H1 & (A1 & A2 & A3 & A4 & A5) & _).
  split; [assumption|]. cbv zeta.
  destruct (onManifestLoaded_run subtitles (snd (onManifestLoading s)))
    as (B1 & B2 & B3 & B4 & B5).
  split; [rewrite B3; reflexivity|].
  split; [rewrite B4; exact A4|].
  split; [rewrite B2; reflexivity|].
  rewrite B1. exact A1.
Qed.

(** C6 (amended).  A main fragment always stores its sequence number.
    When the caption decoder exists and the stored number is a safe
    integer, its reset is signalled if and only if the sequence number
    differs from the stored one plus one, and the main fragments 5, 6, 8
    after the stored number -1 cause exactly two resets; when the
    decoder does not exist, nothing is signalled. *)
Theorem main_frag_continuity (s : Sys) data :
  type (frag data) = "main"%string →
  let s' := snd ((onFragLoaded parse addCue_throws) data s) in
  fst ((onFragLoaded parse addCue_throws) data s) = Some tt ∧
  _lastSn (this s') = Some (sn (frag data)) ∧
  (_cea608Parser (this s) = false → emitted s s' = []) ∧
  (_cea608Parser (this s) = true →
   ∀ lastSn, _lastSn (this s) = Some lastSn → safe_integer lastSn →
     (In Cea608Parser_reset (emitted s s') ↔ sn (frag data) ≠ (lastSn + 1)%Z) ∧
     emitted s s' =
       if bool_decide (sn (frag data) = (lastSn + 1)%Z) then [] else [Cea608Parser_reset]) ∧
  (_cea608Parser (this s) = true → _lastSn (this s) = Some (-1)%Z →
   ∀ f6 f8,
     sn (frag data) = 5%Z →
     type (frag f6) = "main"%string → sn (frag f6) = 6%Z →
     type (frag f8) = "main"%string → sn (frag f8) = 8%Z →
     let s3 := snd (forEach [data; f6; f8] (onFragLoaded parse addCue_throws) s) in
     fst (forEach [data; f6; f8] (onFragLoaded parse addCue_throws) s) = Some tt ∧
     emitted s s3 = [Cea608Parser_reset; Cea608Parser_reset] ∧
     Cea608Parser_resets (emitted s s3) = 2%nat).
Proof.
  intros Hty. cbv zeta. rewrite onFragLoaded_main by assumption. cbn [fst snd this].
  split; [reflexivity|]. split; [reflexivity|]. split; [|split].
  - intros Hp. rewrite Hp, emitted_app. now destruct (js_strict_ne _ _).
  - intros Hp lastSn Hl Hsafe. rewrite Hp, Hl, emitted_app.
    rewrite js_plus1_safe by exact Hsafe. cbn [js_strict_ne].
    case_bool_decide as Hsn.
    + rewrite Hsn, Z.eqb_refl. cbn. split; [|reflexivity]. split; [tauto | congruence].
    + apply Z.eqb_neq in Hsn. rewrite Hsn. cbn. split; [|reflexivity].
      apply Z.eqb_neq in Hsn. split; auto.
  - intros Hp Hl f6 f8 H5 Hty6 H6 Hty8 H8. cbn [forEach]. unfold bind.
    rewrite onFragLoaded_main by assumption.
    rewrite onFragLoaded_main by assumption.
    rewrite onFragLoaded_main by assumption.
    unfold ret. cbn [fst snd this trace _lastSn set_lastSn _cea608Parser].
    rewrite Hp, Hl, H5, H6, H8.
    change (js_strict_ne 5 (js_plus1 (Some (-1)%Z))) with true.
    change (js_strict_ne 6 (js_plus1 (Some 5%Z))) with false.
    change (js_strict_ne 8 (js_plus1 (Some 6%Z))) with true.
    rewrite <- !app_assoc, emitted_app. cbn. auto.
Qed.
End ClaimFacts.

Section ProcessedFacts.
Variable parse : list Z → Z → VttCCs → Z → VttCCs * ParseResult.
Variable addCue_throws : Cue → bool.


Lemma parseCallback_run tts frag parsed (s : Sys) r track :
  track_of (world s) (tts !! trackId frag) = Some (r, track) →
  parseCallback addCue_throws tts frag parsed s =
  (Some tt,
   mkSys (this s)
     (mkWorld
        (<[r := set_cues (cues track ++ cues_added (cues track) parsed) track]>
           (w_tracks (world s)))
        (w_media (world s)))
     (trace s ++ map (TextTrack_addCue r) (cues_added (cues track) parsed)
        ++ [trigger_SUBTITLE_FRAG_PROCESSED true frag])).
Proof.
  intros Hd. unfold track_of in Hd.
  destruct (tts !! trackId frag) as [r'|] eqn:Hr; [|discriminate].
  destruct (w_tracks (world s) !! r') as [track'|] eqn:Ht; [|discriminate].
  injection Hd as -> ->.
  unfold parseCallback. rewrite Hr. unfold bind at 1.
  erewrite forEach_addParsedCue by exact Ht.
  unfold emit. cbn [this world trace]. now rewrite <- app_assoc.
Qed.

Lemma parseCallback_no_track tts frag parsed (s : Sys) :
  track_of (world s) (tts !! trackId frag) = None →
  parseCallback addCue_throws tts frag parsed s =
  match parsed with
  | [] => (Some tt,
           mkSys (this s) (world s)
             (trace s ++ [trigger_SUBTITLE_FRAG_PROCESSED true frag]))
  | _ => (None, s)
  end.
Proof.
  intros Hd. unfold parseCallback. unfold bind at 1.
  rewrite forEach_addParsedCue_no_track by assumption.
  now destruct parsed.
Qed.

End ProcessedFacts.

(** ** The byte pairs the extraction hands over *)

Module Cea608More.
Import Cea608 Cea608Facts.
Local Open Scope Z_scope.

Lemma js_and_bounds (n : Z) (v : option Z) :
  0 <= n → 0 <= js_and (Z.ones n) v <= Z.ones n.
Proof.
  intros Hn. destruct v as [b|]; cbn [js_and].
  - rewrite Z.land_comm, Z.land_ones by assumption.
    pose proof (Z.mod_pos_bound b (2 ^ n) ltac:(apply Z.pow_pos_nonneg; lia)).
    rewrite Z.ones_equiv. lia.
  - rewrite Z.ones_equiv. pose proof (Z.pow_pos_nonneg 2 n ltac:(lia) Hn). lia.
Qed.

Lemma cc_count_le_31 (byteArray : list Z) : (cc_count byteArray ≤ 31)%nat.
Proof.
  unfold cc_count. pose proof (js_and_bounds 5 (byteArray !! 0%nat) ltac:(lia)) as H.
  change (Z.ones 5) with 31 in H. lia.
Qed.

Lemma selected_pair_shape (t : option Z * option Z * option Z) :
  selected t = true →
  0 <= fst (masked_pair t) <= 127 ∧ 0 <= snd (masked_pair t) <= 127 ∧
  masked_pair t ≠ (0, 0).
Proof.
  destruct t as [[m b1] b2]. unfold selected, is_padding. cbn [masked_pair fst snd].
  intros H. apply andb_true_iff in H as [_ H]. apply negb_true_iff in H.
  pose proof (js_and_bounds 7 b1 ltac:(lia)) as H1.
  pose proof (js_and_bounds 7 b2 ltac:(lia)) as H2.
  change (Z.ones 7) with 127 in H1, H2.
  split; [exact H1|]. split; [exact H2|].
  intros [= E1 E2]. rewrite E1, E2 in H. discriminate.
Qed.

(** X1.  Whatever the byte array, the bytes handed to the decoder are a
    sequence of pairs: at most as many pairs as the count in the first
    byte, which is at most 31; both bytes of a pair lie in 0..127, and
    no pair is (0, 0). *)
Theorem extractCea608Data_shape (byteArray : list Z) :
  ∃ pairs : list (Z * Z),
    _extractCea608Data byteArray = flatten_pairs pairs ∧
    (length pairs ≤ cc_count byteArray ∧ cc_count byteArray ≤ 31)%nat ∧
    Forall (λ p, 0 <= fst p <= 127 ∧ 0 <= snd p <= 127 ∧ p ≠ (0, 0)) pairs.
Proof.
  exists (selected_pairs byteArray). split; [|split; [split|]].
  - unfold _extractCea608Data, extract_run. rewrite extract_loop_bytes.
    cbn [actualCCBytes position app]. unfold selected_pairs, triplets, offsets.
    now rewrite map_map.
  - unfold selected_pairs, triplets. rewrite length_map.
    etransitivity; [apply length_filter|]. now rewrite length_map, length_seq.
  - apply cc_count_le_31.
  - unfold selected_pairs. apply Forall_forall. intros p Hp.
    apply list_elem_of_fmap in Hp as (t & -> & Ht).
    apply list_elem_of_filter in Ht as [Hsel _]. now apply selected_pair_shape.
Qed.

Lemma cc_count_agree (a b : list Z) : a !! 0%nat = b !! 0%nat → cc_count a = cc_count b.
Proof. unfold cc_count. now intros ->. Qed.

(** X2.  The extraction depends only on byte 0 and on the bytes of the
    triplets that the count announces: byte 1 and every byte from index
    2 + 3 * count on are never looked at. *)
Theorem extractCea608Data_reads_only (a b : list Z) :
  (∀ i, i ≠ 1 → i < 2 + 3 * cc_count a → a !! i = b !! i)%nat →
  _extractCea608Data a = _extractCea608Data b.
Proof.
  intros H. assert (Hc : cc_count a = cc_count b) by (apply cc_count_agree, H; lia).
  unfold _extractCea608Data, extract_run. rewrite !extract_loop_bytes.
  cbn [actualCCBytes position app]. rewrite <- Hc. do 3 f_equal.
  unfold offsets. rewrite !map_map. apply map_ext_in. intros j Hj. apply in_seq in Hj.
  unfold triplet_from. rewrite !H by lia. reflexivity.
Qed.

Lemma extractCea608Data_reads_only_witness :
  _extractCea608Data [0xC1; 0xFF; 0xFC; 0x94; 0x2C] =
  _extractCea608Data [0xC1; 0x00; 0xFC; 0x94; 0x2C; 0xFF; 0xFF].
Proof.
  apply extractCea608Data_reads_only.
  intros i Hi Hlt. vm_compute in Hlt.
  destruct i as [|[|[|[|[|i]]]]]; try reflexivity; [congruence | lia].
Defined.
End Cea608More.

(** ** The ranges addCues keeps *)



Lemma Qdiv_zero (x y : Q) : y == 0 → x / y == 0.
Proof. intros H. unfold Qdiv. rewrite H. apply Qmult_0_r. Qed.

Lemma Qminus_nonneg (a b : Q) : 0 <= a - b ↔ b <= a.
Proof. unfold Qminus. symmetry. apply Qle_minus_iff. Qed.

(** X3.  The overlap of two ranges is not negative exactly when both
    ranges run forwards and each starts no later than the other ends;
    ranges that only touch overlap by 0. *)
Theorem intersection_nonneg_iff (x1 x2 y1 y2 : Q) :
  0 <= intersection x1 x2 y1 y2 ↔ x1 <= x2 ∧ x1 <= y2 ∧ y1 <= x2 ∧ y1 <= y2.
Proof.
  unfold intersection. rewrite Qminus_nonneg, Q.max_lub_iff, !Q.min_glb_iff. tauto.
Qed.

Section Resolver.
Variables s e : Q.

Lemma merge_range_covers (r : CueRange) : covers (merge_range r s e) s e.
Proof. split; cbn; [apply Q.le_min_r | apply Q.le_max_r]. Qed.

Lemma merge_range_extends (r : CueRange) : extends r (merge_range r s e).
Proof. split; cbn; [apply Q.le_min_l | apply Q.le_max_l]. Qed.

Lemma merge_if_overlaps_extends (r : CueRange) : extends r (merge_if_overlaps s e r).
Proof.
  unfold merge_if_overlaps. destruct (overlaps s e r); [apply merge_range_extends|].
  split; apply Qle_refl.
Qed.




Lemma short_cue_never_stops (r : CueRange) : e <= s → stops_scan s e r = false.
Proof.
  intros Hle. apply stops_scan_false. intros [Ho Hr].
  pose proof (overlap_le_duration r s e) as Hd.
  assert (Hz : e - s == 0).
  { lra. }
  unfold overlap_ratio in Hr. rewrite (Qdiv_zero _ _ Hz) in Hr. discriminate.
Qed.

Lemma reversed_cue_never_overlaps (r : CueRange) : e < s → overlaps s e r = false.
Proof.
  intros Hlt. unfold overlaps. destruct (Qle_bool 0 (overlap_of r s e)) eqn:E; [|reflexivity].
  apply Qle_bool_iff in E. unfold overlap_of, intersection in E.
  rewrite Qminus_nonneg, Q.max_lub_iff, !Q.min_glb_iff in E.
  exfalso. apply (Qlt_not_le _ _ Hlt). tauto.
Qed.

(** The two ways [addCues] ends. *)
Lemma addCues_cases channel screen (sys : Sys) :
  (∃ p1 rk p2,
     _cueRanges (this sys) = p1 ++ rk :: p2 ∧
     stops_scan s e rk = true ∧
     Forall (λ r, stops_scan s e r = false) p2 ∧
     addCues channel s e screen sys =
     (Some tt,
      mkSys
        (set_cueRanges (p1 ++ merge_range rk s e :: map (merge_if_overlaps s e) p2)
           (this sys))
        (world sys) (trace sys))) ∨
  (Forall (λ r, stops_scan s e r = false) (_cueRanges (this sys)) ∧
   addCues channel s e screen sys =
   (Some tt,
    mkSys
      (set_cueRanges
         (map (merge_if_overlaps s e) (_cueRanges (this sys)) ++
          (if existsb (overlaps s e) (_cueRanges (this sys)) then [] else [(s, e)]))
         (this sys))
      (world sys)
      (trace sys ++ [Cues_newCue (channel_track channel (this sys)) s e screen]))).
Proof.
  destruct (existsb (stops_scan s e) (_cueRanges (this sys))) eqn:Hex.
  - left. apply existsb_exists in Hex as (r & Hin & Hr).
    apply (proj2 (list_elem_of_In _ _)) in Hin. apply list_elem_of_lookup in Hin as [i Hi].
    destruct (last_stop_split s e _ i r Hi Hr) as (p1 & rk & p2 & Heq & _ & Hk & Hall).
    exists p1, rk, p2. repeat split; try assumption.
    unfold addCues, bind, get_this. rewrite Heq.
    pose proof (addCues_loop_returned s e p1 p2 rk [] false Hk Hall) as Hloop.
    rewrite !app_nil_r in Hloop. rewrite Hloop. reflexivity.
  - right.
    assert (Hall : Forall (λ r, stops_scan s e r = false) (_cueRanges (this sys))).
    { apply Forall_forall. intros r Hin. apply list_elem_of_In in Hin.
      destruct (stops_scan s e r) eqn:Hr; [|reflexivity].
      assert (existsb (stops_scan s e) (_cueRanges (this sys)) = true)
        by (apply existsb_exists; eauto).
      congruence. }
    split; [exact Hall|].
    unfold addCues, bind, get_this.
    pose proof (addCues_loop_done s e (_cueRanges (this sys)) [] false Hall) as Hloop.
    rewrite !app_nil_r in Hloop. rewrite Hloop. cbn [orb].
    destruct (existsb (overlaps s e) (_cueRanges (this sys))); rewrite ?app_nil_r; reflexivity.
Qed.
End Resolver.

(** X4.  A cue that ends no later than it starts is never dropped:
    [addCues] returns and hands it to the cue handler; when it ends
    before it starts, no stored range is merged and the cue's range is
    appended as it is. *)
Theorem addCues_short_cue_forwarded channel (s e : Q) screen (sys : Sys) :
  e <= s →
  fst (addCues channel s e screen sys) = Some tt ∧
  trace (snd (addCues channel s e screen sys)) =
    trace sys ++ [Cues_newCue (channel_track channel (this sys)) s e screen] ∧
  (e < s →
   _cueRanges (this (snd (addCues channel s e screen sys))) =
     _cueRanges (this sys) ++ [(s, e)]).
Proof.
  intros Hle.
  destruct (addCues_cases s e channel screen sys)
    as [(p1 & rk & p2 & _ & Hk & _) | [_ Hrun]].
  { rewrite short_cue_never_stops in Hk by assumption. discriminate. }
  rewrite Hrun. cbn [fst snd trace this _cueRanges set_cueRanges].
  split; [reflexivity|]. split; [reflexivity|]. intros Hlt.
  assert (Hno : ∀ l : list CueRange,
            map (merge_if_overlaps s e) l = l ∧ existsb (overlaps s e) l = false).
  { induction l as [|r l [IH1 IH2]]; [now split|]. cbn [map existsb].
    unfold merge_if_overlaps at 1. rewrite reversed_cue_never_overlaps by assumption.
    rewrite IH1, IH2. now split. }
  destruct (Hno (_cueRanges (this sys))) as [-> ->]. reflexivity.
Qed.


(** X5.  After [addCues], whether the cue was dropped or handed on, some
    stored range covers the cue's range. *)
Theorem addCues_covers channel (s e : Q) screen (sys : Sys) :
  Exists (λ r, covers r s e)
    (_cueRanges (this (snd (addCues channel s e screen sys)))).
Proof.
  destruct (addCues_cases s e channel screen sys)
    as [(p1 & rk & p2 & _ & _ & _ & Hrun) | [_ Hrun]];
    rewrite Hrun; cbn [snd this _cueRanges set_cueRanges].
  - apply Exists_app. right. apply Exists_cons_hd, merge_range_covers.
  - destruct (existsb (overlaps s e) (_cueRanges (this sys))) eqn:Hex.
    + apply existsb_exists in Hex as (r & Hin & Hr). rewrite app_nil_r.
      apply Exists_exists. exists (merge_range r s e). split.
      * apply list_elem_of_fmap. exists r. split; [|now apply list_elem_of_In].
        unfold merge_if_overlaps. now rewrite Hr.
      * apply merge_range_covers.
    + apply Exists_app. right. apply Exists_cons_hd. split; apply Qle_refl.
Qed.

Lemma extends_lookup (l l' : list CueRange) i r :
  Forall2 extends l l' → l !! i = Some r →
  ∃ r', l' !! i = Some r' ∧ extends r r'.
Proof. intros H Hi. eapply Forall2_lookup_l in H as (r' & ? & ?); eauto. Qed.

Lemma Forall2_extends_map (s e : Q) (l : list CueRange) :
  Forall2 extends l (map (merge_if_overlaps s e) l).
Proof.
  induction l as [|r l IH]; cbn [map]; constructor; [|exact IH].
  apply merge_if_overlaps_extends.
Qed.

Lemma Forall2_extends_refl (l : list CueRange) : Forall2 extends l l.
Proof. induction l; constructor; [split; apply Qle_refl | assumption]. Qed.

(** X6.  [addCues] never removes or shrinks a range: the store grows by
    at most one range, and every range it had is still at its index,
    with a start no later and an end no earlier than before. *)
Theorem addCues_ranges_extend channel (s e : Q) screen (sys : Sys) :
  let ranges := _cueRanges (this sys) in
  let ranges' := _cueRanges (this (snd (addCues channel s e screen sys))) in
  (length ranges ≤ length ranges' ≤ S (length ranges))%nat ∧
  ∀ i r, ranges !! i = Some r →
    ∃ r', ranges' !! i = Some r' ∧ fst r' <= fst r ∧ snd r <= snd r'.
Proof.
  cbv zeta.
  destruct (addCues_cases s e channel screen sys)
    as [(p1 & rk & p2 & Heq & _ & _ & Hrun) | [_ Hrun]];
    rewrite Hrun; cbn [snd this _cueRanges set_cueRanges].
  - rewrite Heq. split.
    + rewrite !length_app. cbn [length]. rewrite length_map. lia.
    + intros i r Hi. eapply extends_lookup; [|exact Hi].
      apply Forall2_app; [apply Forall2_extends_refl|].
      constructor; [apply merge_range_extends | apply Forall2_extends_map].
  - split.
    + rewrite length_app, length_map.
      destruct (existsb _ _); cbn [length]; lia.
    + intros i r Hi.
      destruct (extends_lookup _ _ i r (Forall2_extends_map s e _) Hi) as (r' & Hr' & He).
      exists r'. split; [|exact He]. rewrite lookup_app_l; [exact Hr'|].
      now apply lookup_lt_Some in Hr'.
Qed.

(** X7.  When the cue runs forwards and every stored range does, then
    every stored range does after [addCues]. *)
Theorem addCues_well_formed channel (s e : Q) screen (sys : Sys) :
  s <= e →
  Forall well_formed (_cueRanges (this sys)) →
  Forall well_formed (_cueRanges (this (snd (addCues channel s e screen sys)))).
Proof.
  intros Hse Hwf.
  assert (Hm : ∀ r, well_formed r → well_formed (merge_range r s e)).
  { intros r Hr. unfold well_formed, merge_range in *. cbn [fst snd].
    eapply Qle_trans; [apply Q.le_min_l|]. eapply Qle_trans; [exact Hr|]. apply Q.le_max_l. }
  assert (Hf : ∀ l, Forall well_formed l → Forall well_formed (map (merge_if_overlaps s e) l)).
  { intros l Hl. apply Forall_fmap. eapply Forall_impl; [exact Hl|]. intros r Hr. cbn.
    unfold merge_if_overlaps. destruct (overlaps s e r); auto. }
  destruct (addCues_cases s e channel screen sys)
    as [(p1 & rk & p2 & Heq & _ & _ & Hrun) | [_ Hrun]];
    rewrite Hrun; cbn [snd this _cueRanges set_cueRanges].
  - rewrite Heq in Hwf. apply Forall_app in Hwf as [H1 H2].
    apply Forall_cons in H2 as [Hk H2].
    apply Forall_app. split; [exact H1|]. apply Forall_cons. split; auto.
  - apply Forall_app. split; [auto|].
    destruct (existsb _ _); [constructor|]. apply Forall_singleton. exact Hse.
Qed.


Section Resubmit.
Variables s e : Q.
Hypothesis positive : s < e.





End Resubmit.

(** ** More on the handlers *)

Lemma same_initPTS_refl s : same_initPTS s s.
Proof. reflexivity. Qed.

Lemma same_initPTS_trans s1 s2 s3 :
  same_initPTS s1 s2 → same_initPTS s2 s3 → same_initPTS s1 s3.
Proof. unfold same_initPTS. congruence. Qed.

Section More.
Variable parse : list Z → Z → VttCCs → Z → VttCCs * ParseResult.
Variable addCue_throws : Cue → bool.

Lemma onFragLoaded_same_initPTS data :
  keeps same_initPTS (onFragLoaded parse addCue_throws data).
Proof. intros s. now destruct (onFragLoaded_grows parse addCue_throws data s). Qed.

Lemma onInitPtsFound_initPTS initPTS (s : Sys) :
  _initPTS (this (snd (onInitPtsFound parse addCue_throws initPTS s))) =
  Some (default initPTS (_initPTS (this s))).
Proof.
  unfold onInitPtsFound. unfold bind at 1, get_this at 1. cbn beta iota.
  assert (Hdrain : ∀ s1 : Sys,
    _initPTS (this (snd
      ((do t <- get_this;
        if negb (length (_unparsedVttFrags t) =? 0)%nat
        then forEach (_unparsedVttFrags t) (onFragLoaded parse addCue_throws) ;;
             modify_this (set_unparsedVttFrags [])
        else ret tt) s1))) = _initPTS (this s1)).
  { intros s1.
    assert (Hk : keeps same_initPTS
      (do t <- get_this;
       if negb (length (_unparsedVttFrags t) =? 0)%nat
       then forEach (_unparsedVttFrags t) (onFragLoaded parse addCue_throws) ;;
            modify_this (set_unparsedVttFrags [])
       else ret tt)).
    { repeat keeps_step same_initPTS_refl same_initPTS_trans.
      - apply onFragLoaded_same_initPTS.
      - intros s2. reflexivity. }
    apply Hk. }
  destruct (_initPTS (this s)) as [p|] eqn:Hi.
  - unfold bind at 1, ret at 1. cbn beta iota. rewrite Hdrain. exact Hi.
  - unfold bind at 1, modify_this at 1. cbn beta iota. rewrite Hdrain. reflexivity.
Qed.

(** X9.  What an event does to [_initPTS], whatever the handler's
    outcome: MANIFEST_LOADED unsets it, INIT_PTS_FOUND sets it when it
    is unset and keeps it otherwise, and no other event changes it. *)
Theorem initPTS_after_event ev (s : Sys) :
  _initPTS (this (snd (handle parse addCue_throws ev s))) =
  match ev with
  | MANIFEST_LOADED _ => None
  | INIT_PTS_FOUND initPTS => Some (default initPTS (_initPTS (this s)))
  | _ => _initPTS (this s)
  end.
Proof.
  destruct ev as [media| | |subtitles|data|initPTS]; cbn [handle].
  - reflexivity.
  - now destruct (onMediaDetaching_run s) as (_ & -> & _).
  - now destruct (onManifestLoading_run s) as (_ & (_ & -> & _) & _).
  - now destruct (onManifestLoaded_run subtitles s) as (_ & -> & _).
  - apply onFragLoaded_same_initPTS.
  - apply onInitPtsFound_initPTS.
Qed.

(** X10.  When a fragment is queued and no manifest has begun to load, so
    that [_vttCCs] is undefined, [onInitPtsFound] throws on the first
    queued fragment: the initial PTS is set, the queue is kept, and
    nothing is parsed or notified. *)
Theorem onInitPtsFound_without_vttCCs initPTS (s : Sys) d q :
  _vttCCs (this s) = None →
  _initPTS (this s) = None →
  _unparsedVttFrags (this s) = d :: q →
  queued_frag d →
  onInitPtsFound parse addCue_throws initPTS s =
  (None, mkSys (set_initPTS (Some initPTS) (this s)) (world s) (trace s)).
Proof.
  intros Hv Hi Hq [Hty Hp].
  unfold onInitPtsFound. unfold bind at 1, get_this at 1. cbn beta iota. rewrite Hi.
  unfold bind at 1, modify_this at 1. cbn beta iota.
  unfold bind at 1, get_this at 1. cbn beta iota.
  cbn [this set_initPTS _unparsedVttFrags]. rewrite Hq. cbn [length Nat.eqb negb forEach].
  unfold bind at 1. unfold bind at 1.
  rewrite (onFragLoaded_parse _ _ _ _ initPTS) by (assumption || reflexivity).
  rewrite parseVttFrag_undefined by exact Hv. reflexivity.
Qed.

Lemma main_frags_trace (l : list FragLoadedData) : ∀ s : Sys,
  Forall (λ d, type (frag d) = "main"%string) l →
  fst (forEach l (onFragLoaded parse addCue_throws) s) = Some tt ∧
  trace (snd (forEach l (onFragLoaded parse addCue_throws) s)) =
    trace s ++
    replicate (if _cea608Parser (this s)
               then resets_due (_lastSn (this s)) (map (λ d, sn (frag d)) l) else 0)
      Cea608Parser_reset ∧
  _lastSn (this (snd (forEach l (onFragLoaded parse addCue_throws) s))) =
    match last l with
    | Some d => Some (sn (frag d))
    | None => _lastSn (this s)
    end.
Proof.
  induction l as [|d l IH]; intros s Hall.
  - cbn [forEach map resets_due last]. unfold ret. cbn [fst snd].
    destruct (_cea608Parser (this s)); cbn [replicate]; rewrite app_nil_r; auto.
  - apply Forall_cons in Hall as [Hd Hall]. cbn [forEach]. unfold bind.
    rewrite onFragLoaded_main by assumption.
    match goal with |- context [forEach l _ ?s0] => destruct (IH s0 Hall) as (H1 & H2 & H3) end.
    split; [exact H1|]. split.
    + rewrite H2. cbn [this trace _cea608Parser set_lastSn _lastSn map resets_due].
      rewrite <- app_assoc. f_equal.
      destruct (_cea608Parser (this s)), (js_strict_ne _ _); reflexivity.
    + rewrite H3. cbn [this _lastSn set_lastSn]. destruct l as [|d' l']; [reflexivity|].
      change (last (d :: d' :: l')) with (last (d' :: l')).
      destruct (last (d' :: l')) eqn:E; [reflexivity|]. apply last_None in E. discriminate.
Qed.
End More.

Lemma resets_replicate n : Cea608Parser_resets (replicate n Cea608Parser_reset) = n.
Proof.
  unfold Cea608Parser_resets. induction n as [|n IH]; [reflexivity|].
  cbn [replicate]. rewrite filter_cons_True by reflexivity. cbn [length]. now rewrite IH.
Qed.

Lemma resets_due_safe (sns : list Z) : ∀ lastSn,
  (∀ x, lastSn = Some x → safe_integer x) →
  Forall safe_integer sns →
  resets_due lastSn sns = gaps lastSn sns.
Proof.
  induction sns as [|a sns IH]; intros lastSn Hl Hs; [reflexivity|].
  apply Forall_cons in Hs as [Ha Hs]. cbn [resets_due gaps].
  rewrite (IH (Some a)); [|intros x [= <-]; exact Ha | exact Hs]. f_equal.
  destruct lastSn as [x|]; [|reflexivity].
  rewrite js_plus1_safe by now apply Hl. cbn [js_strict_ne].
  now destruct (a =? x + 1)%Z.
Qed.

Lemma gaps_contiguous (sns : list Z) : ∀ a,
  (∀ i x y, (a :: sns) !! i = Some x → (a :: sns) !! S i = Some y → y = (x + 1)%Z) →
  gaps (Some a) sns = 0%nat.
Proof.
  induction sns as [|b sns IH]; intros a H; [reflexivity|].
  pose proof (H 0%nat a b eq_refl eq_refl) as Hb. subst b.
  cbn [gaps]. rewrite Z.eqb_refl. cbn [Nat.add].
  apply IH. intros i x y Hx Hy. exact (H (S i) x y Hx Hy).
Qed.

Section MoreClaims.
Variable parse : list Z → Z → VttCCs → Z → VttCCs * ParseResult.
Variable addCue_throws : Cue → bool.

(** X11.  A run of main fragments, handled one after the other, always
    returns.  When the stored sequence number and the numbers of the run
    are safe integers, the decoder, if there is one, is reset once for
    every fragment whose number is not the number before plus one, the
    first being compared with the stored number, and with no stored
    number the first fragment always resets; without the decoder
    nothing is reset.  When the numbers of the run are consecutive, at
    most the first fragment causes a reset. *)
Theorem main_frags_resets (l : list FragLoadedData) (s : Sys) :
  Forall (λ d, type (frag d) = "main"%string) l →
  (∀ x, _lastSn (this s) = Some x → safe_integer x) →
  Forall (λ d, safe_integer (sn (frag d))) l →
  let s' := snd (forEach l (onFragLoaded parse addCue_throws) s) in
  let sns := map (λ d, sn (frag d)) l in
  fst (forEach l (onFragLoaded parse addCue_throws) s) = Some tt ∧
  Cea608Parser_resets (emitted s s') =
    (if _cea608Parser (this s) then gaps (_lastSn (this s)) sns else 0%nat) ∧
  ((∀ i x y, sns !! i = Some x → sns !! S i = Some y → y = (x + 1)%Z) →
   (Cea608Parser_resets (emitted s s') ≤ 1)%nat).
Proof.
  intros Hall Hlast Hsafe. cbv zeta.
  destruct (main_frags_trace parse addCue_throws l s Hall) as (H1 & H2 & _).
  assert (He : Cea608Parser_resets
                 (emitted s (snd (forEach l (onFragLoaded parse addCue_throws) s))) =
               if _cea608Parser (this s)
               then gaps (_lastSn (this s)) (map (λ d, sn (frag d)) l) else 0%nat).
  { unfold emitted. rewrite H2, drop_app_length, resets_replicate.
    destruct (_cea608Parser (this s)); [|reflexivity].
    apply resets_due_safe; [exact Hlast|]. now apply Forall_fmap. }
  split; [exact H1|]. split; [exact He|].
  intros Hc. rewrite He. destruct (_cea608Parser (this s)); [|lia].
  destruct (map (λ d, sn (frag d)) l) as [|a sns]; [cbn; lia|].
  cbn [gaps]. rewrite (gaps_contiguous sns a Hc).
  destruct (_lastSn (this s)) as [x|]; [destruct (a =? x + 1)%Z|]; lia.
Qed.
End MoreClaims.

Lemma removeCues_loop_nil (cs : list Cue) : removeCues_loop cs = [].
Proof. induction cs; [reflexivity | assumption]. Qed.


Lemma clear_cues_twice (t : TextTrack) : clear_cues (clear_cues t) = clear_cues t.
Proof. reflexivity. Qed.



Lemma appends_refl s : appends s s.
Proof. split; [reflexivity|]. exists []. now rewrite app_nil_r. Qed.

Lemma appends_trans s1 s2 s3 : appends s1 s2 → appends s2 s3 → appends s1 s3.
Proof.
  intros [A1 [r1 A2]] [B1 [r2 B2]]. split; [congruence|].
  exists (r1 ++ r2). now rewrite B2, A2, app_assoc.
Qed.






Section MoreHandlers.
Variable parse : list Z → Z → VttCCs → Z → VttCCs * ParseResult.
Variable addCue_throws : Cue → bool.

Lemma parseCallback_appends tts frag parsed :
  keeps appends (parseCallback addCue_throws tts frag parsed).
Proof.
  intros s. destruct (track_of (world s) (tts !! trackId frag)) as [[r track]|] eqn:Hd.
  - rewrite (parseCallback_run _ _ _ _ _ _ _ Hd). split; [reflexivity|]. cbn [snd trace]. eauto.
  - rewrite parseCallback_no_track by assumption.
    destruct parsed; [|apply appends_refl]. split; [reflexivity|]. cbn [snd trace]. eauto.
Qed.

(** X13.  For a subtitle fragment with a payload, handled when the initial
    PTS and the continuity map exist: the first effect is the call of
    the parser, and the map it is given has an entry at the fragment's
    [cc]; the entries the map had are kept, a missing entry is created
    with the fragment's start, the previous [_prevCC] and [new = true],
    the offsets are kept, and [_prevCC] becomes the fragment's [cc]
    exactly when the entry was created. *)
Theorem continuity_map_for_parser (s : Sys) data initPTS old :
  type (frag data) = "subtitle"%string →
  payload data ≠ [] →
  _initPTS (this s) = Some initPTS →
  _vttCCs (this s) = Some old →
  let s' := snd (onFragLoaded parse addCue_throws data s) in
  ∃ vttCCs rest,
    emitted s s' =
      WebVTTParser_parse (payload data) initPTS vttCCs (cc (frag data)) :: rest ∧
    is_Some (cc_entries vttCCs !! cc (frag data)) ∧
    (∀ k x, cc_entries old !! k = Some x → cc_entries vttCCs !! k = Some x) ∧
    (cc_entries old !! cc (frag data) = None →
     cc_entries vttCCs !! cc (frag data) =
       Some (mkVttCC (start (frag data)) (_prevCC (this s)) true)) ∧
    (∀ k, k ≠ cc (frag data) → cc_entries vttCCs !! k = cc_entries old !! k) ∧
    ccOffset vttCCs = ccOffset old ∧
    presentationOffset vttCCs = presentationOffset old ∧
    _prevCC (this s') =
      match cc_entries old !! cc (frag data) with
      | Some _ => _prevCC (this s)
      | None => Some (cc (frag data))
      end.
Proof.
  intros Hty Hp Hi Hv. cbv zeta.
  rewrite (onFragLoaded_parse _ _ _ _ initPTS) by assumption.
  rewrite (parseVttFrag_run _ _ _ _ _ _ _ Hv). cbv zeta.
  set (v1 := vttCCs_with (frag data) (_prevCC (this s)) old).
  match goal with |- context [mkSys ?t ?w ?tr] => set (s1 := mkSys t w tr) end.
  assert (Happ : appends s1
            (snd (match snd (parse (payload data) initPTS v1 (cc (frag data))) with
                  | ParseCues parsed =>
                      parseCallback addCue_throws (_textTracks (this s)) (frag data) parsed s1
                  | ParseError e => parseErrorCallback (frag data) e s1
                  end))).
  { destruct (snd (parse _ _ _ _)).
    - apply parseCallback_appends.
    - rewrite parseErrorCallback_run. split; [reflexivity|]. cbn [snd trace]. eauto. }
  destruct Happ as [Hthis [rest Htrace]].
  exists v1, rest. split.
  { unfold emitted. rewrite Htrace. unfold s1. cbn [trace].
    now rewrite <- app_assoc, drop_app_length. }
  rewrite Hthis. unfold s1, this_after_parse, v1, vttCCs_with. cbn [this].
  destruct (cc_entries old !! cc (frag data)) as [x|] eqn:Hcc; cbn.
  - repeat split; eauto. congruence.
  - rewrite lookup_insert_eq. repeat split; eauto.
    + intros k x Hk. rewrite lookup_insert_ne; [exact Hk | congruence].
    + intros k Hk. now rewrite lookup_insert_ne.
Qed.

End MoreHandlers.

Lemma tracks_stay_refl s : tracks_stay s s.
Proof. split; [reflexivity|]. intros r t H. eauto. Qed.

Lemma tracks_stay_trans s1 s2 s3 : tracks_stay s1 s2 → tracks_stay s2 s3 → tracks_stay s1 s3.
Proof.
  intros [A1 A2] [B1 B2]. split; [congruence|]. intros r t H.
  destruct (A2 r t H) as (t' & H' & E1 & E2 & E3).
  destruct (B2 r t' H') as (t'' & H'' & F1 & F2 & F3).
  exists t''. repeat split; congruence.
Qed.

Lemma track_for_stays (s s' : Sys) mt r :
  tracks_stay s s' → track_for (world s) mt r → track_for (world s') mt r.
Proof.
  intros [_ H] (t & Ht & E1 & E2 & E3). destruct (H r t Ht) as (t' & Ht' & F1 & F2 & F3).
  exists t'. repeat split; congruence.
Qed.

Lemma reuse_not_captions (t : TextTrack) (mt : ManifestTrack) :
  reuseVttTextTrack t mt = true →
  label t = name mt ∧ tt_textTrack1 t = false ∧ tt_textTrack2 t = false.
Proof.
  unfold reuseVttTextTrack. intros H. apply andb_true_iff in H as [H1 H2].
  apply String.eqb_eq in H1. apply negb_true_iff, orb_false_iff in H2. tauto.
Qed.

(** One iteration of the loop of [onManifestLoaded], with a media element. *)
Lemma setupTextTrack_with_media index mt (s : Sys) m :
  _media (this s) = Some m →
  ∃ r w',
    setupTextTrack index mt s =
      (Some tt, mkSys (set_textTracks (_textTracks (this s) ++ [r]) (this s)) w' (trace s)) ∧
    track_for w' mt r ∧
    tracks_stay s (mkSys (set_textTracks (_textTracks (this s) ++ [r]) (this s)) w' (trace s)).
Proof.
  intros Hm. unfold setupTextTrack, inUseTracks_now, media_textTracks, createTextTrack,
    addTextTrack. run. rewrite Hm. run.
  set (inUse := default [] (w_media (world s) !! m)).
  set (reused := if (index <? length inUse)%nat then _ else _).
  destruct reused as [r|] eqn:Hreused; run.
  - assert (Hre : ∃ t, w_tracks (world s) !! r = Some t ∧ reuseVttTextTrack t mt = true).
    { unfold reused in Hreused. destruct (index <? length inUse)%nat; [|discriminate].
      destruct (inUse !! index) as [r'|]; [|discriminate].
      destruct (w_tracks (world s) !! r') as [t|] eqn:Ht; [|discriminate].
      destruct (reuseVttTextTrack t mt) eqn:Hr; [|discriminate].
      injection Hreused as <-. eauto. }
    destruct Hre as (t & Ht & Hr). apply reuse_not_captions in Hr as (E1 & E2 & E3).
    eexists r, _. split; [reflexivity|]. split.
    + eexists. cbn [w_tracks]. rewrite list_lookup_alter_eq, Ht. split; [reflexivity|].
      now destruct t.
    + split; [reflexivity|]. intros r0 t0 H0. cbn [world w_tracks].
      destruct (decide (r = r0)) as [<-|Hne].
      * rewrite list_lookup_alter_eq, H0. eexists. split; [reflexivity|]. now destruct t0.
      * rewrite list_lookup_alter_ne by assumption. eauto.
  - rewrite Hm. run.
    eexists (length (w_tracks (world s))), _. split; [reflexivity|]. split.
    + eexists. cbn [w_tracks]. rewrite list_lookup_alter_eq, lookup_app_r by lia.
      rewrite Nat.sub_diag. cbn. split; [reflexivity|]. now destruct (default_ mt).
    + split; [reflexivity|]. intros r0 t0 H0. cbn [world w_tracks].
      assert (r0 < length (w_tracks (world s)))%nat by now apply lookup_lt_Some in H0.
      rewrite list_lookup_alter_ne by lia. rewrite lookup_app_l by assumption. eauto.
Qed.

Lemma setupTextTracks_with_media (l : list ManifestTrack) : ∀ index (s : Sys) m,
  _media (this s) = Some m →
  ∃ rs s',
    forEach_from index l setupTextTrack s = (Some tt, s') ∧
    this s' = set_textTracks (_textTracks (this s) ++ rs) (this s) ∧
    Forall2 (track_for (world s')) l rs ∧
    tracks_stay s s'.
Proof.
  induction l as [|mt l IH]; intros index s m Hm.
  - exists [], s. rewrite app_nil_r. repeat split; auto using tracks_stay_refl.
    + now destruct (this s).
    + intros r t H. eauto.
  - cbn [forEach_from]. unfold bind.
    destruct (setupTextTrack_with_media index mt s m Hm) as (r & w' & -> & Hfor & Hstay).
    match goal with |- context [forEach_from _ l _ ?s0] =>
      destruct (IH (S index) s0 m) as (rs & s' & Hrun & Htt & Hall & Hstay') end.
    { destruct Hstay as [-> _]. exact Hm. }
    exists (r :: rs), s'. split; [exact Hrun|]. split; [|split].
    + rewrite Htt. cbn [this _textTracks set_textTracks]. now rewrite <- app_assoc.
    + constructor; [|exact Hall]. eapply track_for_stays; [exact Hstay'|exact Hfor].
    + eapply tracks_stay_trans; eassumption.
Qed.

(** X15.  With WebVTT enabled and a media element attached,
    [onManifestLoaded] returns, and [_textTracks] holds one text track
    per subtitle track of the manifest, in the manifest's order: each
    exists, carries the manifest track's name as label and has no
    CEA-608 mark, whether it was reused or created. *)
Theorem onManifestLoaded_with_media subtitles (s : Sys) m :
  enableWebVTT (_config (this s)) = true →
  _media (this s) = Some m →
  let s' := snd (onManifestLoaded subtitles s) in
  fst (onManifestLoaded subtitles s) = Some tt ∧
  _tracks (this s') = default [] subtitles ∧
  length (_textTracks (this s')) = length (default [] subtitles) ∧
  ∀ i mt, default [] subtitles !! i = Some mt →
    ∃ r t, _textTracks (this s') !! i = Some r ∧
           w_tracks (world s') !! r = Some t ∧
           label t = name mt ∧ tt_textTrack1 t = false ∧ tt_textTrack2 t = false.
Proof.
  intros Hweb Hm. cbv zeta. unfold onManifestLoaded, or_empty. run. rewrite Hweb. run.
  match goal with |- context [forEach_from 0 ?l _ ?s0] =>
    destruct (setupTextTracks_with_media l 0 s0 m Hm) as (rs & s' & -> & Htt & Hall & _) end.
  cbn [fst snd]. rewrite Htt. cbn [this _textTracks _tracks set_textTracks app].
  split; [reflexivity|]. split; [reflexivity|]. split.
  - symmetry. eapply Forall2_length, Hall.
  - intros i mt Hi. destruct (Forall2_lookup_l _ _ _ _ _ Hall Hi) as (r & Hr & t & Ht & E).
    exists r, t. auto.
Qed.


(** X16.  Without a media element [onManifestLoaded] throws exactly when
    WebVTT is enabled and the manifest has a subtitle track; in every
    case the DOM and the trace are unchanged and [_textTracks],
    [_initPTS] and [_cueRanges] have been reset. *)
Theorem onManifestLoaded_without_media subtitles (s : Sys) :
  _media (this s) = None →
  let s' := snd (onManifestLoaded subtitles s) in
  (fst (onManifestLoaded subtitles s) = None ↔
   enableWebVTT (_config (this s)) = true ∧ default [] subtitles ≠ []) ∧
  world s' = world s ∧ trace s' = trace s ∧
  _textTracks (this s') = [] ∧ _initPTS (this s') = None ∧ _cueRanges (this s') = [].
Proof.
  intros Hm. cbv zeta. unfold onManifestLoaded, or_empty. run.
  destruct (enableWebVTT (_config (this s))); run.
  2:{ split; [|auto]. split; [discriminate | intros [? _]; discriminate]. }
  destruct (default [] subtitles) as [|mt l].
  { cbn. split; [|auto]. split; [discriminate | intros [_ ?]; congruence]. }
  cbn [forEach_from]. unfold bind at 1.
  unfold setupTextTrack, inUseTracks_now, createTextTrack. run. rewrite Hm. run.
  cbn [length Nat.ltb Nat.leb]. run. rewrite Hm. run.
  split; [|auto]. split; [intros _; split; [reflexivity | discriminate] | reflexivity].
Qed.

(** ** The caption tracks *)

Lemma same_caption_tracks_refl s : same_caption_tracks s s.
Proof. now repeat split. Qed.

Lemma same_caption_tracks_trans s1 s2 s3 :
  same_caption_tracks s1 s2 → same_caption_tracks s2 s3 → same_caption_tracks s1 s3.
Proof. intros (A1 & A2 & A3 & A4) (B1 & B2 & B3 & B4). repeat split; congruence. Qed.

Lemma same_decoder_refl s : same_decoder s s.
Proof. now split. Qed.

Lemma same_decoder_trans s1 s2 s3 : same_decoder s1 s2 → same_decoder s2 s3 → same_decoder s1 s3.
Proof. intros [A1 A2] [B1 B2]. split; congruence. Qed.

Lemma tracks_bound_refl s : tracks_bound s s.
Proof. now repeat split. Qed.

Lemma tracks_bound_trans s1 s2 s3 : tracks_bound s1 s2 → tracks_bound s2 s3 → tracks_bound s1 s3.
Proof.
  intros (A1 & A2 & A3 & A4 & A5) (B1 & B2 & B3 & B4 & B5).
  repeat split; try congruence. auto.
Qed.

(** Steps through a handler down to its assignments and calls, none of
    which writes a track field of [this], or the decoder. *)
Ltac caption_tracks_kept :=
  repeat keeps_step same_caption_tracks_refl same_caption_tracks_trans;
  try (intros ?; repeat split; reflexivity).

Ltac decoder_kept :=
  repeat keeps_step same_decoder_refl same_decoder_trans;
  try (intros ?; split; reflexivity).

Lemma default_Some {A} (d x : A) : default d (Some x) = x.
Proof. reflexivity. Qed.

Lemma find_first {A} (p : A → bool) (l : list A) (x : A) :
  find p l = Some x →
  ∃ i, l !! i = Some x ∧ p x = true ∧
       ∀ j y, (j < i)%nat → l !! j = Some y → p y = false.
Proof.
  induction l as [|a l IH]; [discriminate|]. cbn [find].
  destruct (p a) eqn:Ha.
  - intros [= <-]. exists 0%nat. repeat split; [assumption|]. intros j y Hj. lia.
  - intros H. destruct (IH H) as (i & Hi & Hp & Hbefore). exists (S i).
    repeat split; try assumption.
    intros [|j] y Hj Hy; [cbn in Hy; congruence|]. apply (Hbefore j); [lia | exact Hy].
Qed.

Lemma find_nothing {A} (p : A → bool) (l : list A) :
  find p l = None → ∀ x, x ∈ l → p x = false.
Proof.
  intros H x Hx. apply list_elem_of_In in Hx. exact (find_none p l H x Hx).
Qed.

Lemma find_same {A} (p q : A → bool) (l : list A) :
  (∀ x, x ∈ l → p x = q x) → find p l = find q l.
Proof.
  induction l as [|a l IH]; intros H; [reflexivity|]. cbn [find].
  rewrite <- (H a) by left. rewrite IH; [reflexivity|]. intros x Hx. apply H. now right.
Qed.

Lemma getExistingTrack_run channel (s : Sys) :
  getExistingTrack channel s =
  (Some (find (marked channel (world s)) (held_textTracks s)), s).
Proof.
  unfold getExistingTrack, media_textTracks, held_textTracks. run.
  destruct (_media (this s)); reflexivity.
Qed.

Lemma alter_last {A} (f : A → A) (l : list A) (x : A) :
  alter f (length l) (l ++ [x]) = l ++ [f x].
Proof.
  induction l as [|a l IH]; [reflexivity|]. cbn [length app].
  change (alter f (S (length l)) (a :: (l ++ [x]))) with (a :: alter f (length l) (l ++ [x])).
  now rewrite IH.
Qed.

Lemma marked_clear_cues channel (w : World) r r' :
  marked channel (mkWorld (alter clear_cues r (w_tracks w)) (w_media w)) r' =
  marked channel w r'.
Proof.
  unfold marked. cbn [w_tracks]. destruct (decide (r = r')) as [<-|Hne].
  - rewrite list_lookup_alter_eq. destruct (w_tracks w !! r) as [t|]; [|reflexivity].
    now destruct channel.
  - now rewrite list_lookup_alter_ne.
Qed.

Lemma clearCurrentCues_run r (s : Sys) :
  clearCurrentCues (Some r) s =
  (Some tt,
   mkSys (this s) (mkWorld (alter clear_cues r (w_tracks (world s))) (w_media (world s)))
     (trace s)).
Proof.
  unfold clearCurrentCues, modify_world.
  assert (H : alter (λ t, set_cues (removeCues_loop (cues t)) t) r (w_tracks (world s)) =
              alter clear_cues r (w_tracks (world s))).
  { apply list_alter_ext; [|reflexivity]. intros t _. unfold clear_cues.
    now rewrite removeCues_loop_nil. }
  now rewrite H.
Qed.

Lemma addCues_run_this channel (s e : Q) screen (sys : Sys) :
  ∃ ranges tr,
    snd (addCues channel s e screen sys) =
    mkSys (set_cueRanges ranges (this sys)) (world sys) tr.
Proof.
  unfold addCues. run. destruct (addCues_loop _ _ _ _ _) as [[ranges|ranges merged]|]; run.
  - eauto.
  - eauto.
  - exists (_cueRanges (this sys)), (trace sys). destruct sys as [t w tr]. now destruct t.
Qed.

Lemma addCues_tracks_bound channel (s e : Q) screen (sys : Sys) :
  tracks_bound sys (snd (addCues channel s e screen sys)).
Proof.
  destruct (addCues_run_this channel s e screen sys) as (ranges & tr & ->).
  repeat split. intros [] r H; exact H.
Qed.

Lemma set_channel_track_bound channel r (s : Sys) w tr :
  channel_track channel (this s) = None →
  tracks_bound s (mkSys (set_channel_track channel (Some r) (this s)) w tr).
Proof.
  intros Hn. repeat split; try now destruct channel.
  intros ch r' H. destruct channel, ch; cbn in *; congruence.
Qed.

Lemma channel_track_set channel r (t : TimelineController) :
  channel_track channel (set_channel_track channel (Some r) t) = Some r.
Proof. now destruct channel. Qed.

Section CaptionFacts.
Variable parse : list Z → Z → VttCCs → Z → VttCCs * ParseResult.
Variable addCue_throws : Cue → bool.
Variable captions : CaptionsConfig.
Variable self_media : option MediaRef.

Lemma newCue_create channel (st en : Q) screen (s : Sys) m :
  _media (this s) = Some m →
  channel_track channel (this s) = None →
  find (marked channel (world s)) (held_textTracks s) = None →
  newCue captions self_media channel st en screen s =
  addCues channel st en screen
    (mkSys (set_channel_track channel (Some (length (w_tracks (world s)))) (this s))
       (mkWorld (w_tracks (world s) ++ [new_track captions channel])
          (<[m := default [] (w_media (world s) !! m) ++ [length (w_tracks (world s))]]>
             (w_media (world s))))
       (trace s)).
Proof.
  intros Hm Hb Hf. unfold newCue. unfold bind at 1, get_this at 1. cbn beta iota.
  rewrite Hb. unfold bind at 1. unfold bind at 1. rewrite getExistingTrack_run, Hf.
  cbn beta iota. unfold createTextTrack, addTextTrack. run. rewrite Hm. run.
  cbn [w_tracks w_media]. now rewrite alter_last.
Qed.

Lemma newCue_reuse channel (st en : Q) screen (s : Sys) r :
  channel_track channel (this s) = None →
  find (marked channel (world s)) (held_textTracks s) = Some r →
  newCue captions self_media channel st en screen s =
  match self_media with
  | Some _ =>
      addCues channel st en screen
        (mkSys (set_channel_track channel (Some r) (this s))
           (mkWorld (alter clear_cues r (w_tracks (world s))) (w_media (world s)))
           (trace s))
  | None =>
      (None,
       mkSys (set_channel_track channel (Some r) (this s))
         (mkWorld (alter clear_cues r (w_tracks (world s))) (w_media (world s)))
         (trace s))
  end.
Proof.
  intros Hb Hf. unfold newCue. unfold bind at 1, get_this at 1. cbn beta iota.
  rewrite Hb. unfold bind at 1. unfold bind at 1. rewrite getExistingTrack_run, Hf.
  cbn beta iota. unfold bind at 1, modify_this at 1. cbn beta iota.
  unfold bind at 1. rewrite clearCurrentCues_run. cbn [this world trace].
  unfold sendAddTrackEvent. now destruct self_media.
Qed.

Lemma newCue_pass channel (st en : Q) screen (s : Sys) :
  channel_track channel (this s) ≠ None ∨ _media (this s) = None →
  newCue captions self_media channel st en screen s = addCues channel st en screen s.
Proof.
  intros H. unfold newCue. unfold bind at 1, get_this at 1. cbn beta iota.
  destruct (channel_track channel (this s)) as [r|] eqn:Hb; [reflexivity|].
  destruct H as [H|Hm]; [congruence|].
  unfold bind at 1. unfold bind at 1. rewrite getExistingTrack_run.
  unfold held_textTracks. rewrite Hm. cbn [find]. cbn beta iota.
  unfold createTextTrack. run. rewrite Hm. reflexivity.
Qed.

Lemma handle_caption_tracks ev : keeps same_caption_tracks (handle parse addCue_throws ev).
Proof.
  destruct ev as [media| | |subtitles|data|initPTS]; cbn [handle].
  - unfold onMediaAttaching. caption_tracks_kept.
  - unfold onMediaDetaching, clearCurrentCues. caption_tracks_kept.
  - unfold onManifestLoading, media_textTracks, clearCurrentCues. caption_tracks_kept.
  - unfold onManifestLoaded, setupTextTrack, inUseTracks_now, media_textTracks,
      createTextTrack, addTextTrack. caption_tracks_kept.
  - unfold onFragLoaded, parseVttFrag, parseCallback, parseErrorCallback, addParsedCue,
      track_addCue. caption_tracks_kept.
  - unfold onInitPtsFound, onFragLoaded, parseVttFrag, parseCallback, parseErrorCallback,
      addParsedCue, track_addCue. caption_tracks_kept.
Qed.

Lemma handle_decoder ev : keeps same_decoder (handle parse addCue_throws ev).
Proof.
  destruct ev as [media| | |subtitles|data|initPTS]; cbn [handle].
  - unfold onMediaAttaching. decoder_kept.
  - unfold onMediaDetaching, clearCurrentCues. decoder_kept.
  - unfold onManifestLoading, media_textTracks, clearCurrentCues. decoder_kept.
  - unfold onManifestLoaded, setupTextTrack, inUseTracks_now, media_textTracks,
      createTextTrack, addTextTrack. decoder_kept.
  - unfold onFragLoaded, parseVttFrag, parseCallback, parseErrorCallback, addParsedCue,
      track_addCue. decoder_kept.
  - unfold onInitPtsFound, onFragLoaded, parseVttFrag, parseCallback, parseErrorCallback,
      addParsedCue, track_addCue. decoder_kept.
Qed.

Lemma handle_tracks_bound ev (s : Sys) :
  tracks_bound s (snd (handle parse addCue_throws ev s)).
Proof.
  destruct (handle_caption_tracks ev s) as (A1 & A2 & A3 & A4).
  destruct (handle_decoder ev s) as (B1 & B2).
  repeat split; try assumption. intros [] r; cbn [channel_track]; congruence.
Qed.

Lemma newCue_tracks_bound channel (st en : Q) screen (s : Sys) :
  tracks_bound s (snd (newCue captions self_media channel st en screen s)).
Proof.
  destruct (channel_track channel (this s)) as [r0|] eqn:Hb.
  { rewrite newCue_pass by (left; congruence). apply addCues_tracks_bound. }
  destruct (_media (this s)) as [m|] eqn:Hm.
  2:{ rewrite newCue_pass by now right. apply addCues_tracks_bound. }
  destruct (find (marked channel (world s)) (held_textTracks s)) as [r|] eqn:Hf.
  - rewrite (newCue_reuse _ _ _ _ _ r) by assumption. destruct self_media.
    + eapply tracks_bound_trans; [|apply addCues_tracks_bound].
      now apply set_channel_track_bound.
    + now apply set_channel_track_bound.
  - rewrite (newCue_create _ _ _ _ _ m) by assumption.
    eapply tracks_bound_trans; [|apply addCues_tracks_bound].
    now apply set_channel_track_bound.
Qed.

Lemma handle_captions_tracks_bound ev (s : Sys) :
  tracks_bound s (snd (handle_captions captions self_media ev s)).
Proof.
  destruct ev as [currentLevel|samples|channel st en screen]; cbn [handle_captions].
  - unfold onLevelSwitching. destruct currentLevel; run; [|apply tracks_bound_refl].
    repeat split. intros [] r H; exact H.
  - apply (onFragParsingUserdata_keeps tracks_bound);
      [apply tracks_bound_refl | apply tracks_bound_trans | |].
    + intros ? ? s0. repeat split. intros [] r H; exact H.
    + intros channel st en screen s0. apply newCue_tracks_bound.
  - apply newCue_tracks_bound.
Qed.

Lemma reachable_all_invariant (s : Sys) :
  reachable_all parse addCue_throws captions self_media s →
  _textTrack1 (this s) = None ∧ _textTrack2 (this s) = None ∧
  _cea608Parser (this s) = enableCEA708Captions (_config (this s)).
Proof.
  induction 1 as [config w | s ev _ (IH1 & IH2 & IH3) | s ev _ (IH1 & IH2 & IH3)].
  - now repeat split.
  - destruct (handle_tracks_bound ev s) as (_ & H1 & H2 & H3 & H4).
    repeat split; congruence.
  - destruct (handle_captions_tracks_bound ev s) as (_ & H1 & H2 & H3 & H4).
    repeat split; congruence.
Qed.

Lemma reachable_reachable_all (s : Sys) :
  reachable parse addCue_throws s → reachable_all parse addCue_throws captions self_media s.
Proof.
  induction 1 as [config w | s ev s' _ IH Hev]; [constructor|].
  replace s' with (snd (handle parse addCue_throws ev s)) by now rewrite Hev.
  now constructor.
Qed.

(** X18.  [getExistingTrack] changes nothing and never throws; its value
    is the first text track of the held media element that carries the
    channel's mark, and [null] exactly when none of them does. *)
Theorem getExistingTrack_first channel (s : Sys) :
  ∃ found,
    getExistingTrack channel s = (Some found, s) ∧
    match found with
    | Some r =>
        ∃ i, held_textTracks s !! i = Some r ∧
             marked channel (world s) r = true ∧
             ∀ j r', (j < i)%nat → held_textTracks s !! j = Some r' →
                     marked channel (world s) r' = false
    | None => ∀ r, r ∈ held_textTracks s → marked channel (world s) r = false
    end.
Proof.
  eexists. split; [apply getExistingTrack_run|].
  destruct (find _ _) as [r|] eqn:Hf.
  - now apply find_first.
  - now apply find_nothing.
Qed.

(** X19.  The first cue of a channel, with a media element attached and no
    text track of it marked for the channel: a track of kind [captions]
    with the channel's label, the language code of channel 1, mode
    [hidden] and no cue is appended to the tracks of the media element,
    marked for the channel and bound to it, and the cue is passed to
    [addCues] in that state. *)
Theorem newCue_creates_track channel (st en : Q) screen (s : Sys) m :
  _media (this s) = Some m →
  channel_track channel (this s) = None →
  fst (getExistingTrack channel s) = Some None →
  newCue captions self_media channel st en screen s =
  addCues channel st en screen
    (mkSys (set_channel_track channel (Some (length (w_tracks (world s)))) (this s))
       (mkWorld (w_tracks (world s) ++ [new_track captions channel])
          (<[m := default [] (w_media (world s) !! m) ++ [length (w_tracks (world s))]]>
             (w_media (world s))))
       (trace s)).
Proof.
  intros Hm Hb Hg. rewrite getExistingTrack_run in Hg. cbn [fst] in Hg.
  apply newCue_create; congruence.
Qed.


(** X21.  A cue for a channel that has a track, or for a controller
    without media element, goes to [addCues] as it is: no track is
    looked up, created or cleared. *)
Theorem newCue_passes_on channel (st en : Q) screen (s : Sys) :
  channel_track channel (this s) ≠ None ∨ _media (this s) = None →
  newCue captions self_media channel st en screen s = addCues channel st en screen s.
Proof. apply newCue_pass. Qed.

(** X22.  After the first cue of a channel with a media element attached,
    the channel has a track, and [getExistingTrack] finds this very
    track in any controller that holds the same media element in the
    same DOM. *)
Theorem caption_track_found_again channel (st en : Q) screen (s : Sys) m :
  _media (this s) = Some m →
  channel_track channel (this s) = None →
  let s' := snd (newCue captions self_media channel st en screen s) in
  ∃ r,
    channel_track channel (this s') = Some r ∧
    ∀ s2 : Sys, world s2 = world s' → _media (this s2) = Some m →
      getExistingTrack channel s2 = (Some (Some r), s2).
Proof.
  intros Hm Hb. cbv zeta.
  assert (Hheld : held_textTracks s = default [] (w_media (world s) !! m)).
  { unfold held_textTracks. now rewrite Hm. }
  destruct (find (marked channel (world s)) (held_textTracks s)) as [r|] eqn:Hf.
  - exists r.
    assert (Hs1 : ∀ s1 : Sys,
              channel_track channel (this s1) = Some r →
              world s1 = mkWorld (alter clear_cues r (w_tracks (world s)))
                           (w_media (world s)) →
              channel_track channel (this s1) = Some r ∧
              ∀ s2 : Sys, world s2 = world s1 → _media (this s2) = Some m →
                getExistingTrack channel s2 = (Some (Some r), s2)).
    { intros s1 Ht Hw. split; [exact Ht|].
      intros s2 Hw2 Hm2. rewrite getExistingTrack_run. do 2 f_equal.
      unfold held_textTracks. rewrite Hm2, Hw2, Hw. cbn [w_media].
      rewrite <- Hheld, <- Hf. apply find_same. intros x _. apply marked_clear_cues. }
    rewrite (newCue_reuse _ _ _ _ _ r) by assumption. destruct self_media.
    + match goal with |- context [addCues ?c ?a ?b ?scr ?s0] =>
        destruct (addCues_run_this c a b scr s0) as (ranges & tr & ->) end.
      apply Hs1; [now destruct channel | reflexivity].
    + apply Hs1; [apply channel_track_set | reflexivity].
  - exists (length (w_tracks (world s))).
    rewrite (newCue_create _ _ _ _ _ m) by assumption.
    match goal with |- context [addCues ?c ?a ?b ?scr ?s0] =>
      destruct (addCues_run_this c a b scr s0) as (ranges & tr & ->) end.
    cbn [this world]. split; [now destruct channel|].
    intros s2 Hw2 Hm2. rewrite getExistingTrack_run. do 2 f_equal.
    unfold held_textTracks. rewrite Hm2, Hw2. cbn [w_media]. rewrite lookup_insert_eq.
    rewrite default_Some, <- Hheld.
    pose proof (find_nothing _ _ Hf) as Hnone. clear Hf Hheld.
    induction (held_textTracks s) as [|x l IH].
    + rewrite app_nil_l. cbn [find]. unfold marked. cbn [w_tracks].
      rewrite lookup_app_r, Nat.sub_diag by lia. cbn. now destruct channel.
    + rewrite <- app_comm_cons. cbn [find].
      destruct (marked channel
                  (mkWorld (w_tracks (world s) ++ [new_track captions channel])
                     (<[m := _]> (w_media (world s)))) x) eqn:Hx.
      * f_equal. unfold marked in Hx. cbn [w_tracks] in Hx.
        destruct (decide (x < length (w_tracks (world s)))%nat) as [Hlt|Hge].
        -- rewrite lookup_app_l in Hx by assumption.
           pose proof (Hnone x ltac:(left)) as Hx'. unfold marked in Hx'. congruence.
        -- destruct (decide (x = length (w_tracks (world s)))) as [->|Hne]; [reflexivity|].
           rewrite lookup_ge_None_2 in Hx; [discriminate|].
           rewrite length_app. cbn [length]. lia.
      * apply IH. intros y Hy. apply Hnone. now right.
Qed.

(** X23.  A channel that has a track keeps this track through every event
    and every cue, whatever the handler's outcome. *)
Theorem channel_track_permanent (s : Sys) channel r :
  channel_track channel (this s) = Some r →
  (∀ ev, channel_track channel (this (snd (handle parse addCue_throws ev s))) = Some r) ∧
  (∀ ev, channel_track channel (this (snd (handle_captions captions self_media ev s))) = Some r).
Proof.
  intros Hb. split; intros ev.
  - now apply handle_tracks_bound.
  - now apply handle_captions_tracks_bound.
Qed.

(** X17.  In every state the controller can reach, [onMediaDetaching]
    returns and changes nothing: the fields [_textTrack1] and
    [_textTrack2] it clears are never assigned. *)
Theorem onMediaDetaching_changes_nothing (s : Sys) :
  reachable_all parse addCue_throws captions self_media s →
  onMediaDetaching s = (Some tt, s).
Proof.
  intros Hr. destruct (reachable_all_invariant s Hr) as (H1 & H2 & _).
  unfold onMediaDetaching. run. rewrite H1, H2. reflexivity.
Qed.

Lemma bind_ext {A B} (m m' : M A) (k k' : A → M B) (s : Sys) :
  m s = m' s →
  (∀ a s', m s = (Some a, s') → k a s' = k' a s') →
  bind m k s = bind m' k' s.
Proof.
  intros Hm Hk. unfold bind. rewrite <- Hm.
  destruct (m s) as [[a|] s']; [|reflexivity]. now apply Hk.
Qed.

Lemma no_addData_refl s : no_addData s s.
Proof. exists []. now rewrite app_nil_r. Qed.

Lemma no_addData_trans s1 s2 s3 : no_addData s1 s2 → no_addData s2 s3 → no_addData s1 s3.
Proof.
  intros (r1 & E1 & H1) (r2 & E2 & H2). exists (r1 ++ r2). split.
  - now rewrite E2, E1, app_assoc.
  - unfold addData_calls in *. now rewrite flat_map_app, H1, H2.
Qed.

Lemma no_addData_same s t w : no_addData s (mkSys t w (trace s)).
Proof. exists []. cbn [trace]. now rewrite app_nil_r. Qed.

(** The callbacks make no call to [addData]. *)
Lemma newCue_no_addData channel (st en : Q) screen :
  keeps no_addData (newCue captions self_media channel st en screen).
Proof.
  unfold newCue, getExistingTrack, media_textTracks, createTextTrack, addTextTrack,
    clearCurrentCues, sendAddTrackEvent, addCues.
  repeat keeps_step no_addData_refl no_addData_trans;
    try (intros s0; apply no_addData_same).
  all: intros s0; unfold emit; cbn [snd]; eexists [_]; split; reflexivity.
Qed.

(** One call of [addData]: the call goes to the trace, and what the
    callbacks add holds no further call. *)
Lemma addData_run pts0 ccdatas calls (s : Sys) :
  ∃ rest,
    trace (snd (addData captions self_media pts0 ccdatas calls s)) =
      trace s ++ Cea608Parser_addData pts0 ccdatas :: rest ∧
    addData_calls rest = [].
Proof.
  unfold addData. unfold bind at 1, emit at 1. cbn beta iota.
  destruct (keeps_forEach no_addData no_addData_refl no_addData_trans
              (λ c, newCue captions self_media (call_channel c) (call_startTime c)
                      (call_endTime c) (call_screen c)) calls
              (λ c, newCue_no_addData _ _ _ _)
              (mkSys (this s) (world s) (trace s ++ [Cea608Parser_addData pts0 ccdatas])))
    as (rest & E & H).
  exists rest. split; [|exact H]. rewrite E. cbn [trace]. now rewrite <- app_assoc.
Qed.

Lemma addData_tracks_bound pts0 ccdatas calls :
  keeps tracks_bound (addData captions self_media pts0 ccdatas calls).
Proof.
  unfold addData. repeat keeps_step tracks_bound_refl tracks_bound_trans.
  - intros s0. repeat split. intros [] r H; exact H.
  - intros s0. apply newCue_tracks_bound.
Qed.

(** With the decoder there, the loop of the handler is the sequence of
    its calls of [addData]. *)
Lemma feed_decoder (samples : list Sample) : ∀ s : Sys,
  _cea608Parser (this s) = true →
  forEach samples (λ sample,
    let ccdatas := Cea608._extractCea608Data (bytes sample) in
    do t <- get_this;
    if _cea608Parser t
    then addData captions self_media (pts sample) ccdatas (decoded sample)
    else throw) s =
  forEach samples (λ sample,
    addData captions self_media (pts sample) (Cea608._extractCea608Data (bytes sample))
      (decoded sample)) s.
Proof.
  induction samples as [|sample rest IH]; intros s Hp; [reflexivity|].
  cbn [forEach]. apply bind_ext.
  - cbv zeta. unfold bind at 1, get_this at 1. cbn beta iota. now rewrite Hp.
  - intros [] s' Hs'. apply IH.
    pose proof (addData_tracks_bound (pts sample) (Cea608._extractCea608Data (bytes sample))
                  (decoded sample) s) as (_ & _ & _ & Hk & _).
    cbv zeta in Hs'. unfold bind at 1, get_this at 1 in Hs'. cbn beta iota in Hs'.
    rewrite Hp in Hs'. rewrite Hs' in Hk. cbn [snd] in Hk. congruence.
Qed.

(** The calls of [addData] that the sequence makes are those of the
    first samples, of all of them when it returns. *)
Lemma feed_calls (samples : list Sample) : ∀ s : Sys,
  let out := forEach samples (λ sample,
               addData captions self_media (pts sample)
                 (Cea608._extractCea608Data (bytes sample)) (decoded sample)) s in
  ∃ rest n,
    trace (snd out) = trace s ++ rest ∧
    addData_calls rest = take n (map fed samples) ∧
    (fst out = Some tt → addData_calls rest = map fed samples).
Proof.
  induction samples as [|sample l IH]; intros s; cbv zeta.
  - exists [], 0%nat. cbn. rewrite app_nil_r. auto.
  - cbn [forEach]. unfold bind.
    destruct (addData_run (pts sample) (Cea608._extractCea608Data (bytes sample))
                (decoded sample) s) as (r1 & E1 & H1).
    destruct (addData _ _ _ _ _ s) as [[[]|] s'] eqn:Ha; cbn [snd fst] in *.
    + destruct (IH s') as (r2 & n & E2 & H2 & H3).
      exists (Cea608Parser_addData (pts sample) (Cea608._extractCea608Data (bytes sample))
                :: r1 ++ r2), (S n).
      split; [|split].
      * rewrite E2, E1, <- app_assoc. reflexivity.
      * unfold addData_calls in *. cbn [flat_map addData_call map take app].
        rewrite flat_map_app, H1, H2. reflexivity.
      * intros Hret. unfold addData_calls in *. cbn [flat_map addData_call map app].
        rewrite flat_map_app, H1, (H3 Hret). reflexivity.
    + exists (Cea608Parser_addData (pts sample) (Cea608._extractCea608Data (bytes sample))
                :: r1), 1%nat.
      split; [exact E1|]. split; [|discriminate].
      unfold addData_calls in *. cbn [flat_map addData_call map take app].
      rewrite H1. now rewrite take_0.
Qed.

(** Without callbacks the sequence adds its calls to the trace and
    returns. *)
Lemma feed_alone (samples : list Sample) : ∀ s : Sys,
  Forall (λ sample, decoded sample = []) samples →
  forEach samples (λ sample,
    addData captions self_media (pts sample) (Cea608._extractCea608Data (bytes sample))
      (decoded sample)) s =
  (Some tt,
   mkSys (this s) (world s)
     (trace s ++ map (λ sample, Cea608Parser_addData (pts sample)
                                  (Cea608._extractCea608Data (bytes sample))) samples)).
Proof.
  induction samples as [|sample l IH]; intros s Hall.
  - cbn. rewrite app_nil_r. now destruct s.
  - apply Forall_cons_1 in Hall as [Hd Hl]. cbn [forEach map]. unfold bind at 1.
    unfold addData. rewrite Hd. cbn [forEach]. run. rewrite (IH _ Hl). cbn [this world trace].
    now rewrite <- app_assoc.
Qed.

(** X24.  In every state the controller can reach, after a level switch:
    when the level's [closedCaptions] is [NONE] or captions are not
    enabled in the configuration, [onFragParsingUserdata] returns, calls
    nothing and changes nothing; otherwise the decoder exists and the
    handler is the sequence of its calls of [addData], one per sample
    with the byte pairs extracted from it, each with the callbacks the
    decoder makes inside it.  The calls of [addData] it has made are
    those for the first samples, in order, and for all samples when it
    returns; when the decoder calls nothing back, it returns and has
    changed the trace only. *)
Theorem captions_gate (s : Sys) closedCaptions samples :
  reachable_all parse addCue_throws captions self_media s →
  let s1 := snd (onLevelSwitching (Some closedCaptions) s) in
  let out := onFragParsingUserdata captions self_media samples s1 in
  fst (onLevelSwitching (Some closedCaptions) s) = Some tt ∧
  if bool_decide (closedCaptions = Some "NONE"%string)
     || negb (enableCEA708Captions (_config (this s)))
  then out = (Some tt, s1)
  else
    out = forEach samples (λ sample,
            addData captions self_media (pts sample)
              (Cea608._extractCea608Data (bytes sample)) (decoded sample)) s1 ∧
    (∃ n, addData_calls (emitted s1 (snd out)) = take n (map fed samples)) ∧
    (fst out = Some tt → addData_calls (emitted s1 (snd out)) = map fed samples) ∧
    (Forall (λ sample, decoded sample = []) samples →
     out = (Some tt,
            mkSys (this s1) (world s1)
              (trace s1 ++ map (λ sample, Cea608Parser_addData (pts sample)
                                            (Cea608._extractCea608Data (bytes sample)))
                             samples))).
Proof.
  intros Hr. destruct (reachable_all_invariant s Hr) as (_ & _ & Hp). cbv zeta.
  split; [reflexivity|].
  assert (Hgate : _enabled (this (snd (onLevelSwitching (Some closedCaptions) s)))
                  && enableCEA708Captions
                       (_config (this (snd (onLevelSwitching (Some closedCaptions) s)))) =
                  negb (bool_decide (closedCaptions = Some "NONE"%string)
                        || negb (enableCEA708Captions (_config (this s))))).
  { unfold onLevelSwitching. run. cbn [set_enabled _enabled _config].
    destruct closedCaptions as [v|].
    - destruct (String.eqb_spec v "NONE") as [->|Hne].
      + now rewrite bool_decide_eq_true_2 by reflexivity.
      + rewrite bool_decide_eq_false_2 by congruence. cbn [negb andb orb].
        now destruct (enableCEA708Captions _).
    - rewrite bool_decide_eq_false_2 by discriminate. cbn [negb andb orb].
      now destruct (enableCEA708Captions _). }
  assert (Hdec : _cea608Parser (this (snd (onLevelSwitching (Some closedCaptions) s))) =
                 enableCEA708Captions (_config (this s))).
  { unfold onLevelSwitching. run. cbn [set_enabled _cea608Parser]. exact Hp. }
  set (s1 := snd (onLevelSwitching (Some closedCaptions) s)) in *.
  assert (Hrun : onFragParsingUserdata captions self_media samples s1 =
                 if bool_decide (closedCaptions = Some "NONE"%string)
                    || negb (enableCEA708Captions (_config (this s)))
                 then (Some tt, s1)
                 else forEach samples (λ sample,
                        addData captions self_media (pts sample)
                          (Cea608._extractCea608Data (bytes sample)) (decoded sample)) s1).
  { unfold onFragParsingUserdata. unfold bind at 1, get_this at 1. cbn beta iota.
    rewrite Hgate.
    destruct (bool_decide _ || negb _) eqn:Hg; cbn [negb]; [reflexivity|].
    apply feed_decoder. rewrite Hdec.
    apply orb_false_iff in Hg as [_ Hg]. now apply negb_false_iff in Hg. }
  rewrite Hrun. destruct (bool_decide _ || negb _); [reflexivity|].
  split; [reflexivity|].
  destruct (feed_calls samples s1) as (rest & n & E & Hn & Hall). cbv zeta in E, Hall.
  assert (Hem : emitted s1
                  (snd (forEach samples (λ sample,
                          addData captions self_media (pts sample)
                            (Cea608._extractCea608Data (bytes sample)) (decoded sample)) s1))
                = rest).
  { unfold emitted. rewrite E. apply drop_app_length. }
  rewrite Hem. split; [eauto|]. split; [exact Hall|].
  apply feed_alone.
Qed.
End CaptionFacts.

(** ** Caption tracks and subtitle tracks *)

Lemma marks_stay_refl s : marks_stay s s.
Proof. intros r t H. eauto. Qed.

Lemma marks_stay_trans s1 s2 s3 : marks_stay s1 s2 → marks_stay s2 s3 → marks_stay s1 s3.
Proof.
  intros A B r t H. destruct (A r t H) as (t' & H' & E1 & E2).
  destruct (B r t' H') as (t'' & H'' & F1 & F2). exists t''. repeat split; congruence.
Qed.

Lemma same_textTracks_refl s : same_textTracks s s.
Proof. reflexivity. Qed.

Lemma same_textTracks_trans s1 s2 s3 :
  same_textTracks s1 s2 → same_textTracks s2 s3 → same_textTracks s1 s3.
Proof. unfold same_textTracks. congruence. Qed.

Lemma marks_stay_this f : keeps marks_stay (modify_this f).
Proof. intros s r t H. cbn. eauto. Qed.

Lemma marks_stay_emit e : keeps marks_stay (emit e).
Proof. intros s r t H. cbn. eauto. Qed.

Lemma marks_stay_alter (f : TextTrack → TextTrack) r :
  (∀ t, tt_textTrack1 (f t) = tt_textTrack1 t ∧ tt_textTrack2 (f t) = tt_textTrack2 t) →
  keeps marks_stay
    (modify_world (λ w, mkWorld (alter f r (w_tracks w)) (w_media w))).
Proof.
  intros Hf s r0 t0 H0. cbn [modify_world snd world w_tracks].
  destruct (decide (r = r0)) as [<-|Hne].
  - rewrite list_lookup_alter_eq, H0. eexists. split; [reflexivity|]. apply Hf.
  - rewrite list_lookup_alter_ne by assumption. eauto.
Qed.

Lemma marks_stay_append (x : TextTrack) (fm : World → gmap MediaRef (list TrackRef)) :
  keeps marks_stay (modify_world (λ w, mkWorld (w_tracks w ++ [x]) (fm w))).
Proof.
  intros s r0 t0 H0. cbn [modify_world snd world w_tracks].
  rewrite lookup_app_l by (now apply lookup_lt_Some in H0). eauto.
Qed.

(** Steps through a handler down to its assignments and calls: those
    that change a track change its cues or its mode, and a new track is
    appended. *)
Ltac marks_kept :=
  repeat keeps_step marks_stay_refl marks_stay_trans;
  try (apply marks_stay_this || apply marks_stay_emit || apply marks_stay_append
       || (apply marks_stay_alter; intros []; split; reflexivity)).

Ltac textTracks_kept :=
  repeat keeps_step same_textTracks_refl same_textTracks_trans;
  try (intros ?; reflexivity).

Lemma marked_stays channel (s s' : Sys) r :
  marks_stay s s' → marked channel (world s) r = true → marked channel (world s') r = true.
Proof.
  intros H. unfold marked. destruct (w_tracks (world s) !! r) as [t|] eqn:Ht; [|discriminate].
  destruct (H r t Ht) as (t' & -> & E1 & E2). destruct channel; cbn; congruence.
Qed.

Lemma unmarked_stays (s s' : Sys) r :
  marks_stay s s' → unmarked (world s) r → unmarked (world s') r.
Proof.
  intros H (t & Ht & E1 & E2). destruct (H r t Ht) as (t' & Ht' & F1 & F2).
  exists t'. repeat split; congruence.
Qed.

Lemma unmarked_not_marked channel (w : World) r :
  unmarked w r → marked channel w r = false.
Proof. intros (t & Ht & E1 & E2). unfold marked. rewrite Ht. now destruct channel. Qed.

Lemma tracks_apart_stays (s s' : Sys) :
  tracks_apart s → marks_stay s s' →
  _textTracks (this s') = _textTracks (this s) →
  (∀ channel r, channel_track channel (this s') = Some r →
     channel_track channel (this s) = Some r ∨ marked channel (world s') r = true) →
  tracks_apart s'.
Proof.
  intros [I1 I2] Hm Ht Hc. split.
  - intros channel r Hb. destruct (Hc channel r Hb) as [Hold|Hnew]; [|exact Hnew].
    eapply marked_stays; [exact Hm | now apply I1].
  - rewrite Ht. eapply Forall_impl; [exact I2|]. intros r Hr. cbn.
    eapply unmarked_stays; eassumption.
Qed.

Lemma track_for_unmarked (w : World) (l : list ManifestTrack) (rs : list TrackRef) :
  Forall2 (track_for w) l rs → Forall (unmarked w) rs.
Proof.
  induction 1 as [|mt r l rs (t & Ht & _ & E1 & E2) _ IH]; constructor; [|exact IH].
  exists t. auto.
Qed.

Lemma onManifestLoaded_unmarked subtitles (s : Sys) :
  Forall (unmarked (world (snd (onManifestLoaded subtitles s))))
    (_textTracks (this (snd (onManifestLoaded subtitles s)))).
Proof.
  unfold onManifestLoaded, or_empty. run.
  destruct (enableWebVTT (_config (this s))); run; [|constructor].
  destruct (_media (this s)) as [m|] eqn:Hm.
  - match goal with |- context [forEach_from 0 ?l _ ?s0] =>
      destruct (setupTextTracks_with_media l 0 s0 m Hm) as (rs & s' & -> & Htt & Hall & _) end.
    cbn [snd]. rewrite Htt. cbn [this _textTracks set_textTracks app].
    eapply track_for_unmarked, Hall.
  - destruct (default [] subtitles) as [|mt l]; [constructor|].
    cbn [forEach_from]. unfold bind at 1.
    unfold setupTextTrack, inUseTracks_now, createTextTrack. run. rewrite Hm. run.
    cbn [length Nat.ltb Nat.leb]. run. rewrite Hm. run. constructor.
Qed.

Section ApartFacts.
Variable parse : list Z → Z → VttCCs → Z → VttCCs * ParseResult.
Variable addCue_throws : Cue → bool.
Variable captions : CaptionsConfig.
Variable self_media : option MediaRef.

Lemma handle_marks_stay ev : keeps marks_stay (handle parse addCue_throws ev).
Proof.
  destruct ev as [media| | |subtitles|data|initPTS]; cbn [handle].
  - unfold onMediaAttaching. marks_kept.
  - unfold onMediaDetaching, clearCurrentCues. marks_kept.
  - unfold onManifestLoading, media_textTracks, clearCurrentCues. marks_kept.
  - unfold onManifestLoaded, setupTextTrack, inUseTracks_now, media_textTracks,
      createTextTrack, addTextTrack. marks_kept.
  - unfold onFragLoaded, parseVttFrag, parseCallback, parseErrorCallback, addParsedCue,
      track_addCue. marks_kept.
  - unfold onInitPtsFound, onFragLoaded, parseVttFrag, parseCallback, parseErrorCallback,
      addParsedCue, track_addCue. marks_kept.
Qed.

Lemma handle_same_textTracks ev :
  (∀ subtitles, ev ≠ MANIFEST_LOADED subtitles) →
  keeps same_textTracks (handle parse addCue_throws ev).
Proof.
  intros Hev. destruct ev as [media| | |subtitles|data|initPTS]; cbn [handle].
  - unfold onMediaAttaching. textTracks_kept.
  - unfold onMediaDetaching, clearCurrentCues. textTracks_kept.
  - unfold onManifestLoading, media_textTracks, clearCurrentCues. textTracks_kept.
  - now destruct (Hev subtitles).
  - unfold onFragLoaded, parseVttFrag, parseCallback, parseErrorCallback, addParsedCue,
      track_addCue. textTracks_kept.
  - unfold onInitPtsFound, onFragLoaded, parseVttFrag, parseCallback, parseErrorCallback,
      addParsedCue, track_addCue. textTracks_kept.
Qed.

Lemma handle_tracks_apart ev (s : Sys) :
  tracks_apart s → tracks_apart (snd (handle parse addCue_throws ev s)).
Proof.
  intros Hs.
  assert (Hc : ∀ channel r,
            channel_track channel (this (snd (handle parse addCue_throws ev s))) = Some r →
            channel_track channel (this s) = Some r).
  { destruct (handle_caption_tracks parse addCue_throws ev s) as (A1 & A2 & _).
    intros [] r; cbn [channel_track]; congruence. }
  assert (Hev : (∃ subtitles, ev = MANIFEST_LOADED subtitles) ∨
                ∀ subtitles, ev ≠ MANIFEST_LOADED subtitles)
    by (destruct ev as [media| | |subtitles|data|initPTS]; eauto; right; discriminate).
  destruct Hev as [[subtitles ->]|Hev].
  - split.
    + intros channel r Hb. eapply marked_stays; [apply handle_marks_stay|].
      apply Hs, Hc, Hb.
    + apply onManifestLoaded_unmarked.
  - eapply tracks_apart_stays; [exact Hs | apply handle_marks_stay | |].
    + now apply handle_same_textTracks.
    + intros channel r Hb. left. now apply Hc.
Qed.

Lemma addCues_tracks_apart channel (st en : Q) screen (s : Sys) :
  tracks_apart s → tracks_apart (snd (addCues channel st en screen s)).
Proof.
  intros Hs. destruct (addCues_run_this channel st en screen s) as (ranges & tr & ->).
  eapply tracks_apart_stays; [exact Hs | intros r t H; cbn; eauto | reflexivity |].
  intros [] r H; left; exact H.
Qed.

Lemma newCue_tracks_apart channel (st en : Q) screen (s : Sys) :
  tracks_apart s → tracks_apart (snd (newCue captions self_media channel st en screen s)).
Proof.
  intros Hs.
  destruct (channel_track channel (this s)) as [r0|] eqn:Hb.
  { rewrite newCue_pass by (left; congruence). now apply addCues_tracks_apart. }
  destruct (_media (this s)) as [m|] eqn:Hm.
  2:{ rewrite newCue_pass by now right. now apply addCues_tracks_apart. }
  assert (Hset : ∀ r w tr,
            marks_stay s (mkSys (set_channel_track channel (Some r) (this s)) w tr) →
            marked channel w r = true →
            tracks_apart (mkSys (set_channel_track channel (Some r) (this s)) w tr)).
  { intros r w tr Hstay Hr. eapply tracks_apart_stays; [exact Hs | exact Hstay | |].
    - now destruct channel.
    - intros ch r' H. destruct channel, ch; cbn in *;
        solve [left; exact H | right; congruence]. }
  destruct (find (marked channel (world s)) (held_textTracks s)) as [r|] eqn:Hf.
  - assert (Hs1 : tracks_apart
              (mkSys (set_channel_track channel (Some r) (this s))
                 (mkWorld (alter clear_cues r (w_tracks (world s))) (w_media (world s)))
                 (trace s))).
    { apply Hset.
      - apply (marks_stay_alter clear_cues r); intros []; split; reflexivity.
      - rewrite marked_clear_cues. now destruct (find_first _ _ _ Hf) as (_ & _ & ? & _). }
    rewrite (newCue_reuse _ _ _ _ _ _ _ r) by assumption.
    destruct self_media; [now apply addCues_tracks_apart | exact Hs1].
  - rewrite (newCue_create _ _ _ _ _ _ _ m) by assumption.
    apply addCues_tracks_apart, Hset.
    + apply (marks_stay_append (mark_track channel _) (λ w, <[m := _]> (w_media w))).
    + unfold marked. cbn [w_tracks]. rewrite lookup_app_r, Nat.sub_diag by lia.
      now destruct channel.
Qed.

Lemma handle_captions_tracks_apart ev (s : Sys) :
  tracks_apart s → tracks_apart (snd (handle_captions captions self_media ev s)).
Proof.
  intros Hs. destruct ev as [currentLevel|samples|channel st en screen]; cbn [handle_captions].
  - unfold onLevelSwitching. destruct currentLevel; run; [|exact Hs].
    eapply tracks_apart_stays; [exact Hs | intros r t H; cbn; eauto | reflexivity |].
    intros [] r H; left; exact H.
  - revert Hs.
    apply (onFragParsingUserdata_keeps (λ s s', tracks_apart s → tracks_apart s'));
      [auto | auto | |].
    + intros ? ? s0 H. exact H.
    + intros channel st en screen s0. apply newCue_tracks_apart.
  - now apply newCue_tracks_apart.
Qed.

Lemma reachable_all_tracks_apart (s : Sys) :
  reachable_all parse addCue_throws captions self_media s → tracks_apart s.
Proof.
  induction 1 as [config w | s ev _ IH | s ev _ IH].
  - split; [intros [] r; discriminate | constructor].
  - now apply handle_tracks_apart.
  - now apply handle_captions_tracks_apart.
Qed.

(** X25.  In every state the controller can reach, the track of a caption
    channel exists and carries the channel's mark, the tracks of the
    subtitles exist and carry no mark, and so no track serves both a
    caption channel and the subtitles. *)
Theorem caption_tracks_apart_from_subtitles (s : Sys) :
  reachable_all parse addCue_throws captions self_media s →
  (∀ channel r, channel_track channel (this s) = Some r →
     marked channel (world s) r = true ∧ r ∉ _textTracks (this s)) ∧
  (∀ r, r ∈ _textTracks (this s) →
     ∃ t, w_tracks (world s) !! r = Some t ∧
          tt_textTrack1 t = false ∧ tt_textTrack2 t = false).
Proof.
  intros Hr. destruct (reachable_all_tracks_apart s Hr) as [I1 I2].
  split.
  - intros channel r Hb. split; [now apply I1|]. intros Hin.
    pose proof (proj1 (Forall_forall _ _) I2 r Hin) as Hu.
    apply (unmarked_not_marked channel) in Hu. rewrite (I1 channel r Hb) in Hu. discriminate.
  - intros r Hin. exact (proj1 (Forall_forall _ _) I2 r Hin).
Qed.
End ApartFacts.

(** ** Where the cues go *)

Lemma subtitle_effects_refl s : subtitle_effects s s.
Proof. split; [reflexivity|]. exists []. split; [now rewrite app_nil_r | constructor]. Qed.

Lemma subtitle_effects_trans s1 s2 s3 :
  subtitle_effects s1 s2 → subtitle_effects s2 s3 → subtitle_effects s1 s3.
Proof.
  intros [A1 (r1 & A2 & A3)] [B1 (r2 & B2 & B3)]. split; [congruence|].
  exists (r1 ++ r2). split; [now rewrite B2, A2, app_assoc|].
  apply Forall_app. split; [exact A3|]. now rewrite <- A1.
Qed.

Lemma subtitle_effects_this (f : TimelineController → TimelineController) (s : Sys) :
  _textTracks (f (this s)) = _textTracks (this s) →
  subtitle_effects s (snd (modify_this f s)).
Proof.
  intros H. split; [exact H|]. exists []. split; [now rewrite app_nil_r | constructor].
Qed.

Lemma same_trace_refl s : same_trace s s.
Proof. reflexivity. Qed.

Lemma same_trace_trans s1 s2 s3 : same_trace s1 s2 → same_trace s2 s3 → same_trace s1 s3.
Proof. unfold same_trace. congruence. Qed.

Ltac trace_kept :=
  repeat keeps_step same_trace_refl same_trace_trans;
  try (intros ?; reflexivity).

Lemma on_its_track_stays (s s' : Sys) (e : Effect) :
  marks_stay s s' → on_its_track (world s) e → on_its_track (world s') e.
Proof.
  intros H. destruct e as [|[r|] ? ? ?| |r ?| | |]; cbn [on_its_track]; auto.
  - intros Hm. apply orb_true_iff in Hm. apply orb_true_iff.
    destruct Hm as [Hm|Hm]; [left | right]; eapply marked_stays; eassumption.
  - now apply unmarked_stays.
Qed.

Lemma addCues_trace channel (st en : Q) screen (s : Sys) :
  ∃ rest,
    trace (snd (addCues channel st en screen s)) = trace s ++ rest ∧
    Forall (λ e, e = Cues_newCue (channel_track channel (this s)) st en screen) rest.
Proof.
  unfold addCues. run. destruct (addCues_loop _ _ _ _ _) as [[ranges|ranges merged]|]; run.
  - exists []. split; [now rewrite app_nil_r | constructor].
  - eexists. split; [reflexivity|]. now apply Forall_singleton.
  - exists []. split; [now rewrite app_nil_r | constructor].
Qed.

Section CueFacts.
Variable parse : list Z → Z → VttCCs → Z → VttCCs * ParseResult.
Variable addCue_throws : Cue → bool.
Variable captions : CaptionsConfig.
Variable self_media : option MediaRef.

Lemma onFragLoaded_subtitle_effects data :
  keeps subtitle_effects (onFragLoaded parse addCue_throws data).
Proof.
  intros s.
  destruct (decide (type (frag data) = "main"%string)) as [Hm|Hm].
  { rewrite onFragLoaded_main by assumption. split; [reflexivity|].
    eexists. split; [reflexivity|].
    destruct (js_strict_ne _ _); [destruct (_cea608Parser _)|]; repeat constructor. }
  destruct (decide (type (frag data) = "subtitle"%string)) as [Hs|Hs].
  2:{ rewrite onFragLoaded_other by assumption. apply subtitle_effects_refl. }
  destruct (payload data) as [|b p] eqn:Hp.
  { rewrite onFragLoaded_empty by assumption. split; [reflexivity|].
    eexists. split; [reflexivity|]. repeat constructor. }
  assert (Hne : payload data ≠ []) by (rewrite Hp; discriminate).
  destruct (_initPTS (this s)) as [initPTS|] eqn:Hi.
  2:{ rewrite onFragLoaded_enqueue by assumption. split; [reflexivity|].
      exists []. split; [now rewrite app_nil_r | constructor]. }
  rewrite (onFragLoaded_parse _ _ _ _ initPTS) by (assumption || congruence).
  destruct (_vttCCs (this s)) as [vttCCs|] eqn:Hv.
  2:{ rewrite parseVttFrag_undefined by assumption. apply subtitle_effects_refl. }
  rewrite (parseVttFrag_run _ _ _ _ _ _ _ Hv). cbv zeta.
  set (v1 := vttCCs_with (frag data) (_prevCC (this s)) vttCCs).
  set (t1 := this_after_parse _ _ _ _).
  assert (Ht1 : _textTracks t1 = _textTracks (this s)).
  { unfold t1, this_after_parse. now destruct (cc_entries vttCCs !! cc (frag data)). }
  destruct (snd (parse _ _ v1 _)) as [parsed|e].
  - destruct (track_of (world s) (_textTracks (this s) !! trackId (frag data)))
      as [[r track]|] eqn:Hd.
    + rewrite (parseCallback_run _ _ _ _ _ r track) by exact Hd.
      split; [exact Ht1|]. eexists. cbn [snd trace]. rewrite <- app_assoc.
      split; [reflexivity|].
      assert (Hr : r ∈ _textTracks (this s)).
      { unfold track_of in Hd.
        destruct (_textTracks (this s) !! trackId (frag data)) as [r'|] eqn:Hl; [|discriminate].
        destruct (w_tracks (world s) !! r'); [|discriminate]. injection Hd as <- _.
        eapply list_elem_of_lookup_2, Hl. }
      constructor; [exact I|]. apply Forall_app. split; [|repeat constructor].
      apply Forall_fmap, Forall_forall. intros c _. exact Hr.
    + rewrite parseCallback_no_track by exact Hd. destruct parsed.
      * split; [exact Ht1|]. eexists. cbn [snd trace]. rewrite <- app_assoc.
        split; [reflexivity|]. repeat constructor.
      * split; [exact Ht1|]. eexists. cbn [snd trace]. split; [reflexivity|].
        repeat constructor.
  - rewrite parseErrorCallback_run. split; [exact Ht1|]. eexists. cbn [snd trace].
    rewrite <- app_assoc. split; [reflexivity|]. repeat constructor.
Qed.

Lemma handle_effects ev (s : Sys) :
  ∃ rest,
    trace (snd (handle parse addCue_throws ev s)) = trace s ++ rest ∧
    Forall (from_subtitles (_textTracks (this s))) rest.
Proof.
  assert (Hsame : ∀ m : M unit, keeps same_trace m →
            ∃ rest, trace (snd (m s)) = trace s ++ rest ∧
                    Forall (from_subtitles (_textTracks (this s))) rest).
  { intros m Hm. exists []. split; [rewrite app_nil_r; apply Hm | constructor]. }
  destruct ev as [media| | |subtitles|data|initPTS]; cbn [handle].
  - apply Hsame. unfold onMediaAttaching. trace_kept.
  - apply Hsame. unfold onMediaDetaching, clearCurrentCues. trace_kept.
  - apply Hsame. unfold onManifestLoading, media_textTracks, clearCurrentCues. trace_kept.
  - apply Hsame. unfold onManifestLoaded, setupTextTrack, inUseTracks_now,
      media_textTracks, createTextTrack, addTextTrack. trace_kept.
  - apply onFragLoaded_subtitle_effects.
  - assert (Hk : keeps subtitle_effects (onInitPtsFound parse addCue_throws initPTS)).
    { unfold onInitPtsFound.
      repeat keeps_step subtitle_effects_refl subtitle_effects_trans;
        try apply onFragLoaded_subtitle_effects;
        intros s0; now apply subtitle_effects_this. }
    apply Hk.
Qed.

(** How [newCue] runs: it prepares the channel's track, which adds no
    effect and leaves every mark, and then either stops or runs
    [addCues]. *)
Lemma newCue_steps channel (st en : Q) screen (s : Sys) :
  ∃ s1 : Sys,
    marks_stay s s1 ∧ trace s1 = trace s ∧
    (snd (newCue captions self_media channel st en screen s) = s1 ∨
     snd (newCue captions self_media channel st en screen s) =
       snd (addCues channel st en screen s1)).
Proof.
  destruct (channel_track channel (this s)) as [r0|] eqn:Hb.
  { exists s. rewrite newCue_pass by (left; congruence).
    split; [apply marks_stay_refl|]. auto. }
  destruct (_media (this s)) as [m|] eqn:Hm.
  2:{ exists s. rewrite newCue_pass by now right. split; [apply marks_stay_refl|]. auto. }
  destruct (find (marked channel (world s)) (held_textTracks s)) as [r|] eqn:Hf.
  - rewrite (newCue_reuse _ _ _ _ _ _ _ r) by assumption.
    exists (mkSys (set_channel_track channel (Some r) (this s))
              (mkWorld (alter clear_cues r (w_tracks (world s))) (w_media (world s)))
              (trace s)).
    split; [|split; [reflexivity|]].
    + apply (marks_stay_alter clear_cues r); intros []; split; reflexivity.
    + destruct self_media; [right | left]; reflexivity.
  - rewrite (newCue_create _ _ _ _ _ _ _ m) by assumption.
    match goal with |- context [addCues _ _ _ _ ?s0] => exists s0 end.
    split; [|split; [reflexivity|]].
    + apply (marks_stay_append (mark_track channel _) (λ w, <[m := _]> (w_media w))).
    + right. reflexivity.
Qed.

Lemma addCues_marks_stay channel (st en : Q) screen (s : Sys) :
  marks_stay s (snd (addCues channel st en screen s)).
Proof.
  destruct (addCues_run_this channel st en screen s) as (ranges & tr & ->).
  intros r t H. cbn. eauto.
Qed.

(** A callback of the decoder keeps the cues on their tracks. *)
Lemma newCue_on_its_track channel (st en : Q) screen (s : Sys) :
  tracks_apart s ∧ Forall (on_its_track (world s)) (trace s) →
  tracks_apart (snd (newCue captions self_media channel st en screen s)) ∧
  Forall (on_its_track (world (snd (newCue captions self_media channel st en screen s))))
    (trace (snd (newCue captions self_media channel st en screen s))).
Proof.
  intros [Ha IH].
  pose proof (newCue_tracks_apart captions self_media channel st en screen s Ha) as Ha'.
  split; [exact Ha'|]. destruct Ha' as [I1 _].
  destruct (newCue_steps channel st en screen s)
    as (s1 & Hstay & Htr & [Hs'|Hs']); rewrite Hs' in *.
  - rewrite Htr. eapply Forall_impl; [exact IH|]. intros e He.
    eapply on_its_track_stays; eassumption.
  - destruct (addCues_trace channel st en screen s1) as (rest & -> & Hrest).
    rewrite Htr. apply Forall_app. split.
    + eapply Forall_impl; [exact IH|]. intros e He.
      eapply on_its_track_stays; [|exact He].
      eapply marks_stay_trans; [exact Hstay | apply addCues_marks_stay].
    + eapply Forall_impl; [exact Hrest|]. intros e ->. cbn [on_its_track].
      destruct (channel_track channel (this s1)) as [r|] eqn:Hb; [|exact I].
      assert (Hb' : channel_track channel
                      (this (snd (addCues channel st en screen s1))) =
                    Some r).
      { destruct (addCues_run_this channel st en screen s1)
          as (ranges & tr & ->). now destruct channel. }
      pose proof (I1 channel r Hb') as Hmk.
      destruct channel; rewrite Hmk; [reflexivity | apply orb_true_r].
Qed.

Lemma reachable_all_on_its_track (s : Sys) :
  reachable_all parse addCue_throws captions self_media s →
  Forall (on_its_track (world s)) (trace s).
Proof.
  induction 1 as [config w | s ev Hr IH | s ev Hr IH]; [constructor| |].
  - pose proof (reachable_all_tracks_apart _ _ _ _ _ Hr) as [_ I2].
    pose proof (handle_marks_stay parse addCue_throws ev s) as Hstay.
    destruct (handle_effects ev s) as (rest & -> & Hrest).
    apply Forall_app. split.
    + eapply Forall_impl; [exact IH|]. intros e He. eapply on_its_track_stays; eassumption.
    + eapply Forall_impl; [exact Hrest|]. intros e He.
      destruct e as [|[r|] ? ? ?| |r ?| | |]; cbn in *; try tauto.
      eapply unmarked_stays; [exact Hstay|].
      exact (proj1 (Forall_forall _ _) I2 r He).
  - pose proof (reachable_all_tracks_apart _ _ _ _ _ Hr) as Ha.
    destruct ev as [currentLevel|samples|channel st en screen]; cbn [handle_captions].
    + unfold onLevelSwitching. destruct currentLevel; exact IH.
    + refine (proj2 (onFragParsingUserdata_keeps
                (λ s s', tracks_apart s ∧ Forall (on_its_track (world s)) (trace s) →
                         tracks_apart s' ∧ Forall (on_its_track (world s')) (trace s'))
                captions self_media _ _ _ _ samples s (conj Ha IH))); [auto | auto | |].
      * intros ? ? s0 [Ha0 H0]. split; [exact Ha0|]. cbn [emit snd world trace].
        apply Forall_app. split; [exact H0|]. repeat constructor.
      * intros channel st en screen s0. apply newCue_on_its_track.
    + apply newCue_on_its_track. now split.
Qed.

(** X26.  In every state the controller can reach, every cue it added to a
    text track for a subtitle fragment went to a track that exists and
    carries no CEA-608 mark, and every cue it handed to the cue handler
    with a track names a track that carries such a mark. *)
Theorem cues_on_their_tracks (s : Sys) :
  reachable_all parse addCue_throws captions self_media s →
  (∀ r cue, TextTrack_addCue r cue ∈ trace s →
     ∃ t, w_tracks (world s) !! r = Some t ∧
          tt_textTrack1 t = false ∧ tt_textTrack2 t = false) ∧
  (∀ r startTime endTime screen,
     Cues_newCue (Some r) startTime endTime screen ∈ trace s →
     ∃ t, w_tracks (world s) !! r = Some t ∧
          (tt_textTrack1 t = true ∨ tt_textTrack2 t = true)).
Proof.
  intros Hr. pose proof (reachable_all_on_its_track s Hr) as H.
  split.
  - intros r cue Hin. exact (proj1 (Forall_forall _ _) H _ Hin).
  - intros r st en screen Hin. pose proof (proj1 (Forall_forall _ _) H _ Hin) as Hm.
    cbn [on_its_track] in Hm. unfold marked in Hm.
    destruct (w_tracks (world s) !! r) as [t|]; [|discriminate].
    exists t. split; [reflexivity|]. cbn [track_mark] in Hm.
    apply orb_true_iff in Hm. exact Hm.
Qed.
End CueFacts.

(** ** The properties at sample inputs *)

Lemma reachable_run_events parse addCue_throws (evs : list Event) : ∀ s,
  reachable parse addCue_throws s →
  all_return parse addCue_throws evs s = true →
  reachable parse addCue_throws (run_events parse addCue_throws evs s).
Proof.
  induction evs as [|ev evs IH]; intros s Hs Hall; [exact Hs|].
  cbn [all_return run_events] in *.
  destruct (handle parse addCue_throws ev s) as [[[]|] s'] eqn:Hev; [|discriminate].
  apply IH; [|exact Hall]. eapply reachable_step; eassumption.
Qed.

Lemma reachable_gate_closed : reachable sample_parse never_throws gate_closed.
Proof.
  apply reachable_run_events; [apply reachable_new | vm_compute; reflexivity].
Qed.

Lemma reachable_gate_open : reachable sample_parse never_throws gate_open.
Proof.
  apply reachable_run_events; [apply reachable_gate_closed | vm_compute; reflexivity].
Qed.

(** The examples of the overlap rule: [[8, 20]] after [[0, 10]] overlaps
    by 2 of its 12 seconds, is forwarded and extends the range to
    [[0, 20]]; [[9, 11]] then lies inside the range and is dropped. *)
Example overlap_examples :
  addCues textTrack1 8 20 [] store_0_10 =
    (Some tt,
     mkSys (set_cueRanges [(0, 20)] (this store_0_10)) (world store_0_10)
       [Cues_newCue None 8 20 []]) ∧
  addCues textTrack1 9 11 [] store_0_20 = (Some tt, store_0_20).
Proof. split; vm_compute; reflexivity. Qed.




(** C4, counterexample.  With a fragment in the queue, an entry in the
    continuity map and a stored cue range, [onMediaDetaching] returns
    with all three still there. *)
Lemma onMediaDetaching_clears_nothing :
  _unparsedVttFrags (this (snd (onMediaDetaching before_detach))) = [F3] ∧
  (_vttCCs (this (snd (onMediaDetaching before_detach))) ≫=
     λ vttCCs, cc_entries vttCCs !! 0%Z) = Some (mkVttCC 0 (Some (-1)%Z) true) ∧
  _cueRanges (this (snd (onMediaDetaching before_detach))) = [(0, 10)].
Proof. repeat split. Qed.

(** C5, counterexample.  [F1] and [F2] are in the queue when the
    manifest is loaded again; they are still there afterwards. *)
Lemma manifest_load_keeps_queue :
  _unparsedVttFrags
    (this (snd (onManifestLoaded (Some [english])
                  (snd (onManifestLoading gate_closed))))) = [F1; F2].
Proof. reflexivity. Qed.

(** C6, counterexample.  Without the caption decoder, the main fragment
    5 after the stored sequence number -1 is not contiguous, and no
    reset is signalled.  With the decoder and the stored sequence number
    [2^53], which is no safe integer, the main fragment [2^53] differs
    from the stored number plus one, but the sum is rounded to [2^53]
    and no reset is signalled either. *)
Lemma no_decoder_no_reset :
  (_lastSn (this captions_off) = Some (-1)%Z ∧
   sn (frag M5) ≠ (-1 + 1)%Z ∧
   onFragLoaded sample_parse never_throws M5 captions_off =
   (Some tt, mkSys (set_lastSn (Some 5%Z) (this captions_off)) (world captions_off) [])) ∧
  (_cea608Parser (this loaded_2_53) = true ∧
   _lastSn (this loaded_2_53) = Some (2 ^ 53)%Z ∧
   sn (frag M_2_53) ≠ (2 ^ 53 + 1)%Z ∧
   onFragLoaded sample_parse never_throws M_2_53 loaded_2_53 = (Some tt, loaded_2_53)).
Proof.
  split.
  - split; [reflexivity|]. split; [discriminate | reflexivity].
  - split; [reflexivity|]. split; [reflexivity|]. split; [discriminate|].
    vm_compute. reflexivity.
Qed.

(** C6, witness: with the decoder, the main fragments 5, 6 and 8 after
    the stored sequence number -1 cause two resets. *)
Lemma main_frag_continuity_witness :
  emitted captions_on
    (snd (forEach [M5; M6; M8] (onFragLoaded sample_parse never_throws) captions_on)) =
  [Cea608Parser_reset; Cea608Parser_reset].
Proof.
  destruct (main_frag_continuity sample_parse never_throws captions_on M5 eq_refl)
    as (_ & _ & _ & _ & H).
  destruct (H eq_refl eq_refl M6 M8 eq_refl eq_refl eq_refl eq_refl eq_refl)
    as (_ & H2 & _).
  exact H2.
Defined.



(** C10, witness: after the initial PTS has been found the queue is
    empty, and a second initial PTS changes nothing. *)
Lemma initPTS_defined_queue_empty_witness :
  _initPTS (this gate_open) = Some 900%Z ∧
  _unparsedVttFrags (this gate_open) = [] ∧
  onInitPtsFound sample_parse never_throws 1234 gate_open = (Some tt, gate_open).
Proof.
  split; [reflexivity|].
  destruct (initPTS_defined_queue_empty sample_parse never_throws gate_open
              reachable_gate_open) as [Hq Hrun].
  - vm_compute. discriminate.
  - split; [exact Hq | apply Hrun].
Defined.

(** ** The further properties at sample inputs *)

Lemma addCues_short_cue_forwarded_witness :
  trace (snd (addCues textTrack1 5 5 [] store_0_10)) = [Cues_newCue None 5 5 []] ∧
  _cueRanges (this (snd (addCues textTrack2 30 20 [] store_0_10))) = [(0, 10); (30, 20)].
Proof.
  split.
  - apply (addCues_short_cue_forwarded textTrack1 5 5 [] store_0_10). discriminate.
  - apply (addCues_short_cue_forwarded textTrack2 30 20 [] store_0_10).
    + discriminate.
    + reflexivity.
Defined.

Lemma addCues_well_formed_witness :
  Forall well_formed (_cueRanges (this (snd (addCues textTrack1 8 20 [] store_0_10)))).
Proof.
  apply addCues_well_formed.
  - discriminate.
  - apply Forall_singleton. discriminate.
Defined.


Lemma onManifestLoaded_with_media_witness :
  ∃ r t,
    _textTracks (this (snd (onManifestLoaded (Some [english])
                              (snd (onMediaAttaching 0 (fresh (mkConfig true true))))))) !! 0%nat
      = Some r ∧
    w_tracks (world (snd (onManifestLoaded (Some [english])
                            (snd (onMediaAttaching 0 (fresh (mkConfig true true))))))) !! r
      = Some t ∧
    label t = name english ∧ tt_textTrack1 t = false ∧ tt_textTrack2 t = false.
Proof.
  apply (onManifestLoaded_with_media (Some [english])
           (snd (onMediaAttaching 0 (fresh (mkConfig true true)))) 0%nat);
    reflexivity.
Defined.

Lemma onManifestLoaded_without_media_witness :
  fst (onManifestLoaded (Some [english]) (fresh (mkConfig true true))) = None.
Proof.
  apply (onManifestLoaded_without_media (Some [english]) (fresh (mkConfig true true)) eq_refl).
  split; [reflexivity | discriminate].
Defined.

Lemma onInitPtsFound_without_vttCCs_witness :
  onInitPtsFound sample_parse never_throws 900 no_manifest =
  (None, mkSys (set_initPTS (Some 900%Z) (this no_manifest)) (world no_manifest)
           (trace no_manifest)).
Proof.
  apply (onInitPtsFound_without_vttCCs sample_parse never_throws 900 no_manifest F1 []).
  - reflexivity.
  - reflexivity.
  - reflexivity.
  - split; [reflexivity | discriminate].
Defined.

Lemma main_frags_resets_witness :
  Cea608Parser_resets
    (emitted captions_on
       (snd (forEach [M5; M6] (onFragLoaded sample_parse never_throws) captions_on))) = 1%nat.
Proof.
  destruct (main_frags_resets sample_parse never_throws [M5; M6] captions_on) as (_ & H & _).
  - repeat constructor.
  - intros x [= <-]. vm_compute. discriminate.
  - repeat constructor; vm_compute; discriminate.
  - exact H.
Defined.

Lemma continuity_map_for_parser_witness :
  ∃ vttCCs rest,
    emitted ready (snd (onFragLoaded sample_parse never_throws F1 ready)) =
      WebVTTParser_parse (payload F1) 900 vttCCs (cc (frag F1)) :: rest ∧
    cc_entries vttCCs !! 0%Z = Some (mkVttCC 0 (Some (-1)%Z) true).
Proof.
  destruct (continuity_map_for_parser sample_parse never_throws ready F1 900
              (mkVttCCs 0 0 ∅))
    as (vttCCs & rest & H1 & _ & _ & H4 & _).
  - reflexivity.
  - discriminate.
  - reflexivity.
  - reflexivity.
  - exists vttCCs, rest. split; [exact H1|]. apply H4. reflexivity.
Defined.


Lemma onMediaDetaching_changes_nothing_witness :
  onMediaDetaching subtitles_and_captions = (Some tt, subtitles_and_captions).
Proof.
  apply (onMediaDetaching_changes_nothing sample_parse never_throws sample_captions
           (Some 0%nat)).
  apply reachable_all_captions, reachable_reachable_all, reachable_gate_open.
Defined.

Lemma newCue_creates_track_witness :
  newCue sample_captions None textTrack2 0 10 [] attached =
  addCues textTrack2 0 10 []
    (mkSys (set_channel_track textTrack2 (Some 0%nat) (this attached))
       (mkWorld [mkTextTrack "captions" "Spanish" "en" "hidden" [] false true]
          (<[0%nat := [0%nat]]> ∅))
       []).
Proof.
  apply (newCue_creates_track sample_captions None textTrack2 0 10 [] attached 0%nat);
    reflexivity.
Defined.


Lemma newCue_passes_on_witness :
  newCue sample_captions None textTrack1 0 10 [] (fresh (mkConfig true true)) =
  addCues textTrack1 0 10 [] (fresh (mkConfig true true)).
Proof. apply newCue_passes_on. right. reflexivity. Defined.

Lemma caption_track_found_again_witness :
  ∃ r,
    channel_track textTrack1 (this captioned) = Some r ∧
    ∀ s2 : Sys, world s2 = world captioned → _media (this s2) = Some 0%nat →
      getExistingTrack textTrack1 s2 = (Some (Some r), s2).
Proof.
  apply (caption_track_found_again sample_captions (Some 0%nat) textTrack1 0 10
           ["HELLO"%string] attached 0%nat);
    reflexivity.
Defined.

Lemma channel_track_permanent_witness :
  channel_track textTrack1
    (this (snd (handle sample_parse never_throws (MANIFEST_LOADED (Some [english]))
                  captioned))) = Some 0%nat.
Proof.
  apply (channel_track_permanent sample_parse never_throws sample_captions (Some 0%nat)
           captioned textTrack1 0%nat).
  reflexivity.
Defined.

(** The user data of a fragment: with no media element held the cue of
    the decoder goes to the cue handler without a track, between the two
    calls of [addData]; in a second controller on a media element that
    has a CEA-608 track of channel 1, the callback throws on
    [self.media] and the second sample is not handed over. *)
Example userdata_examples :
  (let out := onFragParsingUserdata sample_captions (Some 0%nat) sample_userdata
                (snd (onLevelSwitching (Some None) captions_on)) in
   fst out = Some tt ∧
   trace (snd out) =
     [Cea608Parser_addData 0 [20; 44]%Z; Cues_newCue None 0 10 ["HELLO"%string];
      Cea608Parser_addData 90000 [20; 47]%Z]) ∧
  (let out := onFragParsingUserdata sample_captions None sample_userdata
                second_controller in
   fst out = None ∧ trace (snd out) = [Cea608Parser_addData 0 [20; 44]%Z]).
Proof. split; split; vm_compute; reflexivity. Qed.

Lemma captions_gate_witness :
  let samples := sample_userdata in
  let s1 := snd (onLevelSwitching (Some None) captions_on) in
  let out := onFragParsingUserdata sample_captions (Some 0%nat) samples s1 in
  fst (onLevelSwitching (Some None) captions_on) = Some tt ∧
  if bool_decide (@None string = Some "NONE"%string)
     || negb (enableCEA708Captions (_config (this captions_on)))
  then out = (Some tt, s1)
  else
    out = forEach samples (λ sample,
            addData sample_captions (Some 0%nat) (pts sample)
              (Cea608._extractCea608Data (bytes sample)) (decoded sample)) s1 ∧
    (∃ n, addData_calls (emitted s1 (snd out)) = take n (map fed samples)) ∧
    (fst out = Some tt → addData_calls (emitted s1 (snd out)) = map fed samples) ∧
    (Forall (λ sample, decoded sample = []) samples →
     out = (Some tt,
            mkSys (this s1) (world s1)
              (trace s1 ++ map (λ sample, Cea608Parser_addData (pts sample)
                                            (Cea608._extractCea608Data (bytes sample)))
                             samples))).
Proof.
  apply (captions_gate sample_parse never_throws sample_captions (Some 0%nat) captions_on
           None).
  apply (reachable_all_event _ _ _ _ _ MANIFEST_LOADING), reachable_all_new.
Defined.

Lemma caption_tracks_apart_from_subtitles_witness :
  marked textTrack1 (world subtitles_and_captions) 1%nat = true ∧
  1%nat ∉ _textTracks (this subtitles_and_captions).
Proof.
  apply (caption_tracks_apart_from_subtitles sample_parse never_throws sample_captions
           (Some 0%nat) subtitles_and_captions).
  - apply reachable_all_captions, reachable_reachable_all, reachable_gate_open.
  - reflexivity.
Defined.

Lemma cues_on_their_tracks_witness :
  (∃ t, w_tracks (world subtitles_and_captions) !! 0%nat = Some t ∧
        tt_textTrack1 t = false ∧ tt_textTrack2 t = false) ∧
  (∃ t, w_tracks (world subtitles_and_captions) !! 1%nat = Some t ∧
        (tt_textTrack1 t = true ∨ tt_textTrack2 t = true)).
Proof.
  destruct (cues_on_their_tracks sample_parse never_throws sample_captions (Some 0%nat)
              subtitles_and_captions) as [A B].
  - apply reachable_all_captions, reachable_reachable_all, reachable_gate_open.
  - split.
    + apply (A 0%nat (sample_cue "a")).
      apply (list_elem_of_lookup_2 _ 1%nat). vm_compute. reflexivity.
    + apply (B 1%nat 0 10 ["HELLO"%string]).
      apply (list_elem_of_lookup_2 _ 6%nat). vm_compute. reflexivity.
Defined.
